(** * mootils: the lock-free ring-buffer queues of [src/msg]

    A shallow embedding of [msg::SPSCQueue] (src/msg/spsc_queue.h) and
    [msg::SPMCQueue] (src/msg/spmc_queue.h) together with their
    [Producer] / [Consumer] handle classes, of their caller [do_nothing]
    (src/root.cpp) and of [evt::Event] with its [Subscription]
    (src/evt/event.h).

    Conventions.
    - [std::uint64_t] cursors are integers in [Z]; every arithmetic
      operation of the source on them is followed by an explicit reduction
      modulo [2^64] ([U64.add], [U64.sub]).  [std::size_t] is taken to be
      64 bits wide, so [static_cast<std::size_t>] on a cursor is the
      identity.
    - [std::array<T, NumSlots>] is a [list T]; its fixed length is a
      well-formedness invariant established by the constructor.
    - Every member function is one atomic step: the embedding describes
      the sequentially consistent interleavings of whole operations.  The
      [std::memory_order] arguments have no counterpart.
    - A handle's [m_queue] pointer is an [option addr]; queue objects live
      in a store [gmap addr _] so that several handles may alias one
      queue.  Handles come from [make_producer] and [make_consumer], from
      moves and from the default constructor of the SPMC [Consumer]. *)

From Stdlib Require Import ZArith Lia Bool.
From stdpp Require Import base tactics option functions list gmap.

Local Open Scope Z_scope.

(** ** Unsigned 64-bit arithmetic *)

Module U64.

Definition modulus : Z := 2 ^ 64.

Definition wrap (z : Z) : Z := z mod modulus.

Definition add (a b : Z) : Z := wrap (a + b).

Definition sub (a b : Z) : Z := wrap (a - b).

Definition in_range (z : Z) : Prop := 0 <= z < modulus.

Lemma modulus_pos : 0 < modulus.
Proof. reflexivity. Qed.

Lemma wrap_range z : in_range (wrap z).
Proof. apply Z.mod_pos_bound, modulus_pos. Qed.

Lemma wrap_small z : in_range z -> wrap z = z.
Proof. intros Hz. apply Z.mod_small, Hz. Qed.


Lemma add_range a b : in_range (add a b).
Proof. apply wrap_range. Qed.

Lemma sub_small a b : b <= a -> a - b < modulus -> sub a b = a - b.
Proof. intros ? ?. apply wrap_small. unfold in_range. lia. Qed.

Lemma add_small a b : 0 <= a + b < modulus -> add a b = a + b.
Proof. intros ?. apply wrap_small. assumption. Qed.

Lemma sub_diag a : sub a a = 0.
Proof. unfold sub, wrap. rewrite Z.sub_diag. reflexivity. Qed.

(** Advancing the minuend by one advances the wrapped difference. *)
Lemma sub_add_1_l a b : sub a b + 1 < modulus -> sub (add a 1) b = sub a b + 1.
Proof.
  intros Hlt. unfold sub, add, wrap in *.
  pose proof (Z.mod_pos_bound (a - b) modulus modulus_pos) as Hb.
  rewrite Zminus_mod_idemp_l.
  replace (a + 1 - b) with ((a - b) + 1) by lia.
  rewrite <- Zplus_mod_idemp_l.
  apply Z.mod_small. lia.
Qed.

(** Advancing the subtrahend by one retracts a positive difference. *)
Lemma sub_add_1_r a b : 0 < sub a b -> sub a (add b 1) = sub a b - 1.
Proof.
  intros Hlt. unfold sub, add, wrap in *.
  pose proof (Z.mod_pos_bound (a - b) modulus modulus_pos) as Hb.
  rewrite Zminus_mod_idemp_r.
  replace (a - (b + 1)) with ((a - b) - 1) by lia.
  rewrite <- Zminus_mod_idemp_l.
  apply Z.mod_small. lia.
Qed.

End U64.

(** ** Power-of-two capacities and index masking *)

Section pow2.

Variable NumSlots : Z.
Hypothesis NumSlots_pos : 0 < NumSlots.
Hypothesis NumSlots_pow2 : Z.land NumSlots (NumSlots - 1) = 0.
Hypothesis NumSlots_size_t : NumSlots < U64.modulus.

Lemma NumSlots_is_pow2 : exists k, 0 <= k < 64 /\ NumSlots = 2 ^ k.
Proof.
  set (k := Z.log2 NumSlots).
  assert (Hk : 0 <= k) by apply Z.log2_nonneg.
  destruct (Z.log2_spec NumSlots NumSlots_pos) as [Hlo Hhi]. fold k in Hlo, Hhi.
  assert (Heq : NumSlots = 2 ^ k).
  { destruct (Z.eq_dec NumSlots (2 ^ k)) as [|Hne]; [assumption|exfalso].
    assert (Hk' : Z.log2 (NumSlots - 1) = k).
    { apply Z.log2_unique; [assumption|]. replace (Z.succ k) with (k + 1) in * by lia. lia. }
    assert (Hb1 : Z.testbit NumSlots k = true) by (apply Z.bit_log2; lia).
    assert (Hb2 : Z.testbit (NumSlots - 1) k = true).
    { rewrite <- Hk'. apply Z.bit_log2.
      assert (0 < 2 ^ k) by (apply Z.pow_pos_nonneg; lia). lia. }
    assert (Hb : Z.testbit (Z.land NumSlots (NumSlots - 1)) k = true).
    { rewrite Z.land_spec, Hb1, Hb2. reflexivity. }
    rewrite NumSlots_pow2, Z.bits_0 in Hb. discriminate. }
  exists k. split; [|assumption]. split; [assumption|].
  destruct (Z_lt_le_dec k 64) as [|Hge]; [assumption|exfalso].
  assert (2 ^ 64 <= 2 ^ k) by (apply Z.pow_le_mono_r; lia).
  unfold U64.modulus in *. lia.
Qed.

Lemma land_mask_mod i : Z.land i (NumSlots - 1) = i mod NumSlots.
Proof.
  destruct NumSlots_is_pow2 as (k & [Hk _] & ->).
  replace (2 ^ k - 1) with (Z.ones k) by (rewrite Z.ones_equiv; lia).
  apply Z.land_ones. assumption.
Qed.

Lemma NumSlots_divides_modulus : (NumSlots | U64.modulus).
Proof.
  destruct NumSlots_is_pow2 as (k & [Hk Hk'] & ->).
  exists (2 ^ (64 - k)). unfold U64.modulus.
  rewrite <- Z.pow_add_r by lia. f_equal. lia.
Qed.

Lemma wrap_mod_NumSlots z : U64.wrap z mod NumSlots = z mod NumSlots.
Proof.
  unfold U64.wrap. apply Z.mod_mod_divide, NumSlots_divides_modulus.
Qed.

(** Two cursors less than [NumSlots] apart never share a storage index. *)
Lemma mod_NumSlots_apart a d :
    0 < d < NumSlots -> (a + d) mod NumSlots <> a mod NumSlots.
Proof.
  intros Hd Heq.
  assert (Hz : (a + d - a) mod NumSlots = 0).
  { rewrite Zminus_mod, Heq, Z.sub_diag. apply Z.mod_0_l. lia. }
  replace (a + d - a) with d in Hz by lia.
  rewrite Z.mod_small in Hz by lia. lia.
Qed.

End pow2.


(** ** Exclusive roles

    A role is what a handle can hold: the producer side of a queue, its
    consumer side, or one consumer slot of a broadcast queue.  [own h] is
    the role the handle object [h] currently points to, [taken r] the
    claim mark of role [r] inside its queue ([None] when there is no such
    queue or slot).  [exclusive] says that marks and handles agree: a held
    role is marked, it is held by one handle only, and a marked role has a
    holder. *)

Section exclusive.

Context {R : Type} `{!EqDecision R}.

Definition exclusive (own : nat -> option R) (taken : R -> option bool) : Prop :=
  (forall h r, own h = Some r -> taken r = Some true) /\
  (forall h1 h2 r, own h1 = Some r -> own h2 = Some r -> h1 = h2) /\
  (forall r, taken r = Some true -> exists h, own h = Some r).

Lemma fn_lookup_insert_decide {V : Type} (f : R -> V) (r r' : R) (v : V) :
  (<[r := v]> f) r' = if decide (r = r') then v else f r'.
Proof. reflexivity. Qed.

Lemma exclusive_ext own taken own' taken' :
  exclusive own taken ->
  (forall h, own' h = own h) -> (forall r, taken' r = taken r) ->
  exclusive own' taken'.
Proof.
  intros (H1 & H2 & H3) Ho Ht. split; [|split].
  - intros h r. rewrite Ho, Ht. apply H1.
  - intros h1 h2 r. rewrite !Ho. apply H2.
  - intros r. rewrite Ht. intros Hr. destruct (H3 r Hr) as [h Hh].
    exists h. rewrite Ho. exact Hh.
Qed.

(** A handle that held nothing takes an unmarked role. *)
Lemma exclusive_acquire own taken h r :
  exclusive own taken -> own h = None -> taken r = Some false ->
  exclusive (<[h := Some r]> own) (<[r := Some true]> taken).
Proof.
  intros (H1 & H2 & H3) Hh Hr. split; [|split].
  - intros h1 r1 Hown. destruct (decide (r = r1)) as [->|Hne].
    + apply fn_lookup_insert.
    + rewrite fn_lookup_insert_ne by assumption.
      destruct (decide (h = h1)) as [->|Hne'].
      * rewrite fn_lookup_insert in Hown. congruence.
      * rewrite fn_lookup_insert_ne in Hown by assumption. eauto.
  - intros h1 h2 r1 Ho1 Ho2.
    destruct (decide (h = h1)) as [E1|Hn1]; destruct (decide (h = h2)) as [E2|Hn2];
      [congruence| | |].
    + subst h1. rewrite fn_lookup_insert in Ho1. injection Ho1 as <-.
      rewrite fn_lookup_insert_ne in Ho2 by assumption.
      specialize (H1 _ _ Ho2). congruence.
    + subst h2. rewrite fn_lookup_insert in Ho2. injection Ho2 as <-.
      rewrite fn_lookup_insert_ne in Ho1 by assumption.
      specialize (H1 _ _ Ho1). congruence.
    + rewrite fn_lookup_insert_ne in Ho1, Ho2 by assumption. eauto.
  - intros r1 Ht. destruct (decide (r = r1)) as [->|Hne].
    + exists h. apply fn_lookup_insert.
    + rewrite fn_lookup_insert_ne in Ht by assumption.
      destruct (H3 r1 Ht) as [h1 Hh1]. exists h1.
      rewrite fn_lookup_insert_ne; [assumption|]. intros ->. congruence.
Qed.

(** The holder of a role lets go of it and the mark is cleared. *)
Lemma exclusive_release own taken h r :
  exclusive own taken -> own h = Some r ->
  exclusive (<[h := None]> own) (<[r := Some false]> taken).
Proof.
  intros (H1 & H2 & H3) Hh. split; [|split].
  - intros h1 r1 Hown. destruct (decide (h = h1)) as [->|Hne].
    + rewrite fn_lookup_insert in Hown. discriminate.
    + rewrite fn_lookup_insert_ne in Hown by assumption.
      rewrite fn_lookup_insert_ne; [eauto|].
      intros ->. apply Hne. eauto.
  - intros h1 h2 r1 Ho1 Ho2.
    destruct (decide (h = h1)) as [->|Hn1]; [rewrite fn_lookup_insert in Ho1; discriminate|].
    destruct (decide (h = h2)) as [->|Hn2]; [rewrite fn_lookup_insert in Ho2; discriminate|].
    rewrite fn_lookup_insert_ne in Ho1, Ho2 by assumption. eauto.
  - intros r1 Ht. destruct (decide (r = r1)) as [->|Hne].
    + rewrite fn_lookup_insert in Ht. discriminate.
    + rewrite fn_lookup_insert_ne in Ht by assumption.
      destruct (H3 r1 Ht) as [h1 Hh1]. exists h1.
      rewrite fn_lookup_insert_ne; [assumption|]. intros ->. congruence.
Qed.

(** What [h] holds passes to [h'], which held nothing; no mark changes. *)
Lemma exclusive_transfer own taken h h' :
  exclusive own taken -> h <> h' -> own h' = None ->
  exclusive (<[h' := own h]> (<[h := None]> own)) taken.
Proof.
  intros (H1 & H2 & H3) Hne Hh'.
  assert (Hlook : forall h1 r1,
    (<[h' := own h]> (<[h := None]> own)) h1 = Some r1 <->
    (h1 = h' /\ own h = Some r1) \/ (h1 <> h /\ h1 <> h' /\ own h1 = Some r1)).
  { intros h1 r1. destruct (decide (h' = h1)) as [->|Hn1].
    - rewrite fn_lookup_insert. intuition congruence.
    - rewrite fn_lookup_insert_ne by assumption.
      destruct (decide (h = h1)) as [->|Hn2].
      + rewrite fn_lookup_insert. intuition congruence.
      + rewrite fn_lookup_insert_ne by assumption. intuition congruence. }
  split; [|split].
  - intros h1 r1 Hown. apply Hlook in Hown as [[_ Ho]|(_ & _ & Ho)]; eauto.
  - intros h1 h2 r1 Ho1 Ho2.
    apply Hlook in Ho1 as [[-> Ho1]|(Ha1 & Hb1 & Ho1)];
      apply Hlook in Ho2 as [[-> Ho2]|(Ha2 & Hb2 & Ho2)]; eauto.
    + exfalso. apply Ha2. eauto.
    + exfalso. apply Ha1. eauto.
  - intros r1 Ht. destruct (H3 r1 Ht) as [h1 Hh1].
    destruct (decide (h1 = h)) as [->|Hn].
    + exists h'. apply Hlook. auto.
    + exists h1. apply Hlook. right. repeat split; [assumption| |assumption].
      intros ->. congruence.
Qed.

End exclusive.
(** Queue objects are addressed by [addr]; handle objects are named by
    [hid].  Both are plain numbers. *)
Abbreviation addr := nat (only parsing).
Abbreviation hid := nat (only parsing).

(** ** The single-producer / single-consumer queue (src/msg/spsc_queue.h) *)

Module SPSC.

Section queue.

Context {T : Type} `{!Inhabited T}.
Variable NumSlots : Z.

(** [static constexpr std::size_t mask = NumSlots - 1] *)
Definition mask : Z := NumSlots - 1.

(** [to_index(i) = static_cast<std::size_t>(i) & mask] *)
Definition to_index (i : Z) : nat := Z.to_nat (Z.land i mask).

(** The data members of [SPSCQueue]. *)
Record SPSCQueue : Type := MkQueue {
  m_buffer : list T;
  m_head : Z;
  m_tail : Z;
  m_producer_claimed : bool;
  m_consumer_claimed : bool
}.

(** [SPSCQueue() = default] with the default member initialisers;
    [inhabitant] is the value-initialised element [T{}] of [m_buffer{}]. *)
Definition init : SPSCQueue :=
  {| m_buffer := replicate (Z.to_nat NumSlots) inhabitant;
     m_head := 0;
     m_tail := 0;
     m_producer_claimed := false;
     m_consumer_claimed := false |}.

(** Stores to single members. *)
Definition store_buffer (i : nat) (item : T) (q : SPSCQueue) : SPSCQueue :=
  MkQueue (<[i := item]> (m_buffer q)) (m_head q) (m_tail q)
          (m_producer_claimed q) (m_consumer_claimed q).

Definition store_head (v : Z) (q : SPSCQueue) : SPSCQueue :=
  MkQueue (m_buffer q) v (m_tail q) (m_producer_claimed q) (m_consumer_claimed q).

Definition store_tail (v : Z) (q : SPSCQueue) : SPSCQueue :=
  MkQueue (m_buffer q) (m_head q) v (m_producer_claimed q) (m_consumer_claimed q).

Definition store_producer_claimed (b : bool) (q : SPSCQueue) : SPSCQueue :=
  MkQueue (m_buffer q) (m_head q) (m_tail q) b (m_consumer_claimed q).

Definition store_consumer_claimed (b : bool) (q : SPSCQueue) : SPSCQueue :=
  MkQueue (m_buffer q) (m_head q) (m_tail q) (m_producer_claimed q) b.

(** [push_impl(const T&)] and [push_impl(T&&)]: the two overloads are the
    same code up to [std::move] of a trivially copyable value. *)
Definition push_impl (item : T) (q : SPSCQueue) : bool * SPSCQueue :=
  let head := m_head q in
  let tail := m_tail q in
  if U64.sub head tail >=? NumSlots then (false, q)
  else (true, store_head (U64.add head 1) (store_buffer (to_index head) item q)).

(** [pop_impl()] *)
Definition pop_impl (q : SPSCQueue) : option T * SPSCQueue :=
  let head := m_head q in
  let tail := m_tail q in
  if tail >=? head then (None, q)
  else
    let out := m_buffer q !!! to_index tail in
    (Some out, store_tail (U64.add tail 1) q).

(** [try_pop_impl(T& out)]: the reference parameter is passed in and
    returned next to the boolean result. *)
Definition try_pop_impl (out : T) (q : SPSCQueue) : bool * T * SPSCQueue :=
  let head := m_head q in
  let tail := m_tail q in
  if tail >=? head then (false, out, q)
  else
    let out' := m_buffer q !!! to_index tail in
    (true, out', store_tail (U64.add tail 1) q).

(** [peek()] *)
Definition peek (q : SPSCQueue) : option T :=
  let head := m_head q in
  let tail := m_tail q in
  if tail >=? head then None else Some (m_buffer q !!! to_index tail).

(** [peek(T& out)] *)
Definition peek_out (out : T) (q : SPSCQueue) : bool * T :=
  let head := m_head q in
  let tail := m_tail q in
  if tail >=? head then (false, out) else (true, m_buffer q !!! to_index tail).

(** [count_snapshot_impl()] *)
Definition count_snapshot_impl (q : SPSCQueue) : Z :=
  let head := m_head q in
  let tail := m_tail q in
  let diff := U64.sub head tail in
  if diff >? NumSlots then NumSlots else U64.sub head tail.

(** *** Handles *)

(** [class Producer]: its only member is [SPSCQueue* m_queue]. *)
Record Producer : Type := MkProducer { producer_m_queue : option addr }.

(** [class Consumer]: its only member is [SPSCQueue* m_queue]. *)
Record Consumer : Type := MkConsumer { consumer_m_queue : option addr }.

(** [explicit Producer(SPSCQueue& q)] and [explicit Consumer(SPSCQueue& q)]:
    the pointer is stored, the claim flags are not touched. *)
Definition Producer_ctor (q : addr) : Producer := MkProducer (Some q).

Definition Consumer_ctor (q : addr) : Consumer := MkConsumer (Some q).

(** [make_producer()], called on the queue object at address [this]:
    [compare_exchange_strong(expected = false, true)] on
    [m_producer_claimed]. *)
Definition make_producer (this : addr) (q : SPSCQueue) : option Producer * SPSCQueue :=
  if m_producer_claimed q then (None, q)
  else (Some (MkProducer (Some this)), store_producer_claimed true q).

(** [make_consumer()] *)
Definition make_consumer (this : addr) (q : SPSCQueue) : option Consumer * SPSCQueue :=
  if m_consumer_claimed q then (None, q)
  else (Some (MkConsumer (Some this)), store_consumer_claimed true q).

(** [~Producer()], acting on the store of queue objects. *)
Definition Producer_dtor (self : Producer) (σ : gmap addr SPSCQueue) : gmap addr SPSCQueue :=
  match producer_m_queue self with
  | Some a => alter (store_producer_claimed false) a σ
  | None => σ
  end.

(** [Producer(Producer&& other)]: the new object and [other] afterwards. *)
Definition Producer_move_ctor (other : Producer) : Producer * Producer :=
  (MkProducer (producer_m_queue other), MkProducer None).

(** [Producer::operator=(Producer&& other)] on two distinct objects
    ([this != &other]): [*this] and [other] afterwards, and the store. *)
Definition Producer_move_assign (self other : Producer) (σ : gmap addr SPSCQueue)
  : Producer * Producer * gmap addr SPSCQueue :=
  let σ' :=
    match producer_m_queue self with
    | Some a => alter (store_producer_claimed false) a σ
    | None => σ
    end in
  (MkProducer (producer_m_queue other), MkProducer None, σ').

(** [~Consumer()] *)
Definition Consumer_dtor (self : Consumer) (σ : gmap addr SPSCQueue) : gmap addr SPSCQueue :=
  match consumer_m_queue self with
  | Some a => alter (store_consumer_claimed false) a σ
  | None => σ
  end.

(** [Consumer(Consumer&& other)] *)
Definition Consumer_move_ctor (other : Consumer) : Consumer * Consumer :=
  (MkConsumer (consumer_m_queue other), MkConsumer None).

(** [Consumer::operator=(Consumer&& other)] on two distinct objects. *)
Definition Consumer_move_assign (self other : Consumer) (σ : gmap addr SPSCQueue)
  : Consumer * Consumer * gmap addr SPSCQueue :=
  let σ' :=
    match consumer_m_queue self with
    | Some a => alter (store_consumer_claimed false) a σ
    | None => σ
    end in
  (MkConsumer (consumer_m_queue other), MkConsumer None, σ').

(** [Producer::push]: [None] stands for the failed assertion on a null
    [m_queue] (or a pointer to a queue that no longer exists). *)
Definition Producer_push (self : Producer) (item : T) (σ : gmap addr SPSCQueue)
  : option (bool * gmap addr SPSCQueue) :=
  a ← producer_m_queue self;
  q ← σ !! a;
  let '(ok, q') := push_impl item q in
  Some (ok, <[a := q']> σ).

(** [Producer::count_snapshot] and [Consumer::count_snapshot] *)
Definition Producer_count_snapshot (self : Producer) (σ : gmap addr SPSCQueue) : option Z :=
  a ← producer_m_queue self;
  q ← σ !! a;
  Some (count_snapshot_impl q).

Definition Consumer_count_snapshot (self : Consumer) (σ : gmap addr SPSCQueue) : option Z :=
  a ← consumer_m_queue self;
  q ← σ !! a;
  Some (count_snapshot_impl q).

(** [Consumer::pop] *)
Definition Consumer_pop (self : Consumer) (σ : gmap addr SPSCQueue)
  : option (option T * gmap addr SPSCQueue) :=
  a ← consumer_m_queue self;
  q ← σ !! a;
  let '(r, q') := pop_impl q in
  Some (r, <[a := q']> σ).

(** [Consumer::try_pop] *)
Definition Consumer_try_pop (self : Consumer) (out : T) (σ : gmap addr SPSCQueue)
  : option (bool * T * gmap addr SPSCQueue) :=
  a ← consumer_m_queue self;
  q ← σ !! a;
  let '(ok, out', q') := try_pop_impl out q in
  Some (ok, out', <[a := q']> σ).

(** *** Sequences of operations on one queue object

    The effect on one queue of the operations its handles offer.
    [MakeProducer this] and [MakeConsumer this] are the factory calls on
    the queue (living at [this]); [DropProducer] and [DropConsumer] are
    the destructor of the handle that currently points to the queue. *)
Inductive op : Type :=
| Push (item : T)
| Pop
| TryPop (out : T)
| MakeProducer (this : addr)
| MakeConsumer (this : addr)
| DropProducer
| DropConsumer.

(** What the caller observes of each operation. *)
Inductive event : Type :=
| EvPush (item : T) (ok : bool)
| EvPop (r : option T)
| EvTryPop (ok : bool) (out : T)
| EvMake (ok : bool)
| EvDrop.

Definition step (o : op) (q : SPSCQueue) : event * SPSCQueue :=
  match o with
  | Push item => let '(ok, q') := push_impl item q in (EvPush item ok, q')
  | Pop => let '(r, q') := pop_impl q in (EvPop r, q')
  | TryPop out => let '(ok, out', q') := try_pop_impl out q in (EvTryPop ok out', q')
  | MakeProducer this =>
      let '(r, q') := make_producer this q in (EvMake (bool_decide (is_Some r)), q')
  | MakeConsumer this =>
      let '(r, q') := make_consumer this q in (EvMake (bool_decide (is_Some r)), q')
  | DropProducer => (EvDrop, store_producer_claimed false q)
  | DropConsumer => (EvDrop, store_consumer_claimed false q)
  end.

Fixpoint run (ops : list op) (q : SPSCQueue) : list event * SPSCQueue :=
  match ops with
  | [] => ([], q)
  | o :: ops' =>
      let '(e, q') := step o q in
      let '(es, q'') := run ops' q' in
      (e :: es, q'')
  end.

(** The values handed to [push], in order. *)
Fixpoint push_items (ops : list op) : list T :=
  match ops with
  | [] => []
  | Push item :: ops' => item :: push_items ops'
  | _ :: ops' => push_items ops'
  end.

(** The number of [pop] / [try_pop] calls. *)
Fixpoint pop_count (ops : list op) : nat :=
  match ops with
  | [] => 0%nat
  | (Pop | TryPop _) :: ops' => S (pop_count ops')
  | _ :: ops' => pop_count ops'
  end.

(** The values accepted by successful pushes, in order. *)
Fixpoint pushed (es : list event) : list T :=
  match es with
  | [] => []
  | EvPush item true :: es' => item :: pushed es'
  | _ :: es' => pushed es'
  end.

(** The values delivered by successful pops, in order. *)
Fixpoint popped (es : list event) : list T :=
  match es with
  | [] => []
  | EvPop (Some v) :: es' => v :: popped es'
  | EvTryPop true v :: es' => v :: popped es'
  | _ :: es' => popped es'
  end.

(** A push that was accepted, a pop that delivered a value. *)
Definition succeeded (e : event) : bool :=
  match e with
  | EvPush _ ok => ok
  | EvPop r => bool_decide (is_Some r)
  | EvTryPop ok _ => ok
  | EvMake _ | EvDrop => true
  end.

(** The abstract content of a queue: [items] are the values pushed and
    not yet popped, oldest first. *)
Definition holds (q : SPSCQueue) (items : list T) : Prop :=
  length (m_buffer q) = Z.to_nat NumSlots /\
  U64.in_range (m_head q) /\
  U64.in_range (m_tail q) /\
  U64.sub (m_head q) (m_tail q) = Z.of_nat (length items) /\
  Z.of_nat (length items) <= NumSlots /\
  forall (j : nat) (v : T),
    items !! j = Some v ->
    m_buffer q !! to_index (U64.add (m_tail q) (Z.of_nat j)) = Some v.

(** *** Queue objects and handle objects together

    A world is a store of queue objects together with the producer and
    consumer handle objects alive at the moment, each under a name. *)
Record World : Type := MkWorld {
  w_queues : gmap addr SPSCQueue;
  w_producers : gmap hid Producer;
  w_consumers : gmap hid Consumer
}.

(** The statements a program can execute on handles.  [WMakeProducer a h]
    is [auto h = queue_a.make_producer()], [WMoveProducer h' h] is
    [Producer h'(std::move(h))], [WAssignProducer h' h] is
    [h' = std::move(h)], [WDestroyProducer h] ends the lifetime of [h];
    likewise for consumers. *)
Inductive wop : Type :=
| WMakeProducer (a : addr) (h : hid)
| WMakeConsumer (a : addr) (h : hid)
| WDestroyProducer (h : hid)
| WDestroyConsumer (h : hid)
| WMoveProducer (h' h : hid)
| WMoveConsumer (h' h : hid)
| WAssignProducer (h' h : hid)
| WAssignConsumer (h' h : hid)
| WPush (h : hid) (item : T)
| WPop (h : hid)
| WTryPop (h : hid) (out : T).

(** One statement.  [None]: the statement is not executable (a name that
    is not alive, a new name that is already in use, no queue at the
    address) or runs into the assertion on a null [m_queue]. *)
Definition wstep (o : wop) (w : World) : option World :=
  match o with
  | WMakeProducer a h =>
      if decide (w_producers w !! h = None) then
        q ← w_queues w !! a;
        match make_producer a q with
        | (Some p, q') =>
            Some (MkWorld (<[a := q']> (w_queues w)) (<[h := p]> (w_producers w))
                          (w_consumers w))
        | (None, q') =>
            Some (MkWorld (<[a := q']> (w_queues w)) (w_producers w) (w_consumers w))
        end
      else None
  | WMakeConsumer a h =>
      if decide (w_consumers w !! h = None) then
        q ← w_queues w !! a;
        match make_consumer a q with
        | (Some c, q') =>
            Some (MkWorld (<[a := q']> (w_queues w)) (w_producers w)
                          (<[h := c]> (w_consumers w)))
        | (None, q') =>
            Some (MkWorld (<[a := q']> (w_queues w)) (w_producers w) (w_consumers w))
        end
      else None
  | WDestroyProducer h =>
      p ← w_producers w !! h;
      Some (MkWorld (Producer_dtor p (w_queues w)) (delete h (w_producers w))
                    (w_consumers w))
  | WDestroyConsumer h =>
      c ← w_consumers w !! h;
      Some (MkWorld (Consumer_dtor c (w_queues w)) (w_producers w)
                    (delete h (w_consumers w)))
  | WMoveProducer h' h =>
      if decide (w_producers w !! h' = None) then
        p ← w_producers w !! h;
        let '(pnew, pold) := Producer_move_ctor p in
        Some (MkWorld (w_queues w) (<[h' := pnew]> (<[h := pold]> (w_producers w)))
                      (w_consumers w))
      else None
  | WMoveConsumer h' h =>
      if decide (w_consumers w !! h' = None) then
        c ← w_consumers w !! h;
        let '(cnew, cold) := Consumer_move_ctor c in
        Some (MkWorld (w_queues w) (w_producers w)
                      (<[h' := cnew]> (<[h := cold]> (w_consumers w))))
      else None
  | WAssignProducer h' h =>
      p' ← w_producers w !! h';
      p ← w_producers w !! h;
      if decide (h' = h) then Some w
      else
        let '(p1, p2, σ') := Producer_move_assign p' p (w_queues w) in
        Some (MkWorld σ' (<[h' := p1]> (<[h := p2]> (w_producers w))) (w_consumers w))
  | WAssignConsumer h' h =>
      c' ← w_consumers w !! h';
      c ← w_consumers w !! h;
      if decide (h' = h) then Some w
      else
        let '(c1, c2, σ') := Consumer_move_assign c' c (w_queues w) in
        Some (MkWorld σ' (w_producers w) (<[h' := c1]> (<[h := c2]> (w_consumers w))))
  | WPush h item =>
      p ← w_producers w !! h;
      '(_, σ') ← Producer_push p item (w_queues w);
      Some (MkWorld σ' (w_producers w) (w_consumers w))
  | WPop h =>
      c ← w_consumers w !! h;
      '(_, σ') ← Consumer_pop c (w_queues w);
      Some (MkWorld σ' (w_producers w) (w_consumers w))
  | WTryPop h out =>
      c ← w_consumers w !! h;
      '(_, _, σ') ← Consumer_try_pop c out (w_queues w);
      Some (MkWorld σ' (w_producers w) (w_consumers w))
  end.

(** The worlds a program can bring about: it starts with freshly
    constructed queues and no handle. *)
Inductive reachable : World -> Prop :=
| reachable_init (σ : gmap addr SPSCQueue) :
    (forall a q, σ !! a = Some q -> q = init) ->
    reachable (MkWorld σ ∅ ∅)
| reachable_step (w w' : World) (o : wop) :
    reachable w -> wstep o w = Some w' -> reachable w'.

(** The queue whose producer (consumer) side the handle [h] points to. *)
Definition producer_of (w : World) (h : hid) : option addr :=
  w_producers w !! h ≫= producer_m_queue.

Definition consumer_of (w : World) (h : hid) : option addr :=
  w_consumers w !! h ≫= consumer_m_queue.

(** The claim flags of the queue at an address. *)
Definition producer_claimed_at (w : World) (a : addr) : option bool :=
  m_producer_claimed <$> w_queues w !! a.

Definition consumer_claimed_at (w : World) (a : addr) : option bool :=
  m_consumer_claimed <$> w_queues w !! a.

(** A program: one statement after the other. *)
Fixpoint wrun (ops : list wop) (w : World) : option World :=
  match ops with
  | [] => Some w
  | o :: ops' => w' ← wstep o w; wrun ops' w'
  end.

(** *** Properties of the queue operations *)

(** The [static_assert]s of the class template, and the range of
    [std::size_t]. *)
Hypothesis NumSlots_pos : 0 < NumSlots.
Hypothesis NumSlots_pow2 : Z.land NumSlots (NumSlots - 1) = 0.
Hypothesis NumSlots_size_t : NumSlots < U64.modulus.

Lemma spsc_to_index_mod i : to_index i = Z.to_nat (i mod NumSlots).
Proof. unfold to_index, mask. rewrite land_mask_mod by assumption. reflexivity. Qed.

Lemma spsc_to_index_lt i : (to_index i < Z.to_nat NumSlots)%nat.
Proof.
  rewrite spsc_to_index_mod.
  pose proof (Z.mod_pos_bound i NumSlots NumSlots_pos). lia.
Qed.

Lemma spsc_to_index_apart (t : Z) (j k : nat) :
  (j < k)%nat -> Z.of_nat k < NumSlots ->
  to_index (U64.add t (Z.of_nat j)) <> to_index (U64.add t (Z.of_nat k)).
Proof.
  intros Hjk Hk Heq. rewrite !spsc_to_index_mod in Heq.
  unfold U64.add in Heq. rewrite !wrap_mod_NumSlots in Heq by assumption.
  apply Z2Nat.inj in Heq; try (apply Z.mod_pos_bound; assumption).
  replace (t + Z.of_nat k) with ((t + Z.of_nat j) + (Z.of_nat k - Z.of_nat j)) in Heq by lia.
  symmetry in Heq. revert Heq. apply mod_NumSlots_apart; [assumption|lia].
Qed.

Lemma holds_head q items :
  holds q items -> m_head q = U64.add (m_tail q) (Z.of_nat (length items)).
Proof.
  intros (_ & Hh & _ & Hsub & _). rewrite <- Hsub.
  unfold U64.add, U64.sub, U64.wrap.
  rewrite Zplus_mod_idemp_r.
  replace (m_tail q + (m_head q - m_tail q)) with (m_head q) by lia.
  symmetry. apply Z.mod_small, Hh.
Qed.

Lemma holds_init : holds init [].
Proof.
  unfold holds, init, U64.in_range; simpl.
  rewrite length_replicate, U64.sub_diag.
  repeat split; try lia; try reflexivity.
  intros j v Hj. rewrite lookup_nil in Hj. discriminate.
Qed.

(** The claim flags play no part in the content. *)
Lemma holds_store_producer_claimed b q items :
  holds q items -> holds (store_producer_claimed b q) items.
Proof. intros H. exact H. Qed.

Lemma holds_store_consumer_claimed b q items :
  holds q items -> holds (store_consumer_claimed b q) items.
Proof. intros H. exact H. Qed.

Lemma push_impl_full item q :
  U64.sub (m_head q) (m_tail q) >= NumSlots -> push_impl item q = (false, q).
Proof.
  intros Hfull. unfold push_impl.
  destruct (Z.geb_spec (U64.sub (m_head q) (m_tail q)) NumSlots); [reflexivity|lia].
Qed.

Lemma push_impl_room item q :
  U64.sub (m_head q) (m_tail q) < NumSlots ->
  push_impl item q =
    (true, store_head (U64.add (m_head q) 1) (store_buffer (to_index (m_head q)) item q)).
Proof.
  intros Hroom. unfold push_impl.
  destruct (Z.geb_spec (U64.sub (m_head q) (m_tail q)) NumSlots); [lia|reflexivity].
Qed.

(** A push on a queue holding [items] either reports "full", exactly when
    [NumSlots] items are held, and changes nothing, or appends the item. *)
Lemma holds_push item q items :
  holds q items ->
  (Z.of_nat (length items) = NumSlots /\ push_impl item q = (false, q)) \/
  (Z.of_nat (length items) < NumSlots /\
   exists q', push_impl item q = (true, q') /\ holds q' (items ++ [item])).
Proof.
  intros Hq. pose proof (holds_head _ _ Hq) as Hhead.
  destruct Hq as (Hlen & Hh & Ht & Hsub & Hle & Hbuf).
  destruct (Z_lt_le_dec (Z.of_nat (length items)) NumSlots) as [Hroom|Hfull].
  - right. split; [assumption|]. eexists. split.
    { apply push_impl_room. lia. }
    unfold holds, store_head, store_buffer; simpl.
    rewrite length_insert, length_app; simpl.
    split; [assumption|]. split; [apply U64.add_range|]. split; [assumption|].
    split; [rewrite U64.sub_add_1_l by lia; lia|]. split; [lia|].
    intros j v Hj.
    { 
      destruct (decide (j < length items)%nat) as [Hlt|Hge].
      * rewrite lookup_app_l in Hj by assumption.
        rewrite list_lookup_insert_ne; [auto|].
        rewrite Hhead. intros Heq. symmetry in Heq. revert Heq.
        apply spsc_to_index_apart; assumption.
      * rewrite lookup_app_r in Hj by lia.
        destruct (j - length items)%nat as [|n] eqn:Hn; simpl in Hj; [|rewrite lookup_nil in Hj; discriminate].
        injection Hj as <-.
        assert (j = length items) as -> by lia.
        rewrite <- Hhead. apply list_lookup_insert_eq.
        rewrite Hlen. apply spsc_to_index_lt. }
  - left. split; [lia|]. apply push_impl_full. lia.
Qed.

Lemma pop_impl_empty q : m_tail q >= m_head q -> pop_impl q = (None, q).
Proof.
  intros Hge. unfold pop_impl.
  destruct (Z.geb_spec (m_tail q) (m_head q)); [reflexivity|lia].
Qed.

Lemma pop_impl_avail q :
  m_tail q < m_head q ->
  pop_impl q = (Some (m_buffer q !!! to_index (m_tail q)), store_tail (U64.add (m_tail q) 1) q).
Proof.
  intros Hlt. unfold pop_impl.
  destruct (Z.geb_spec (m_tail q) (m_head q)); [lia|reflexivity].
Qed.

(** A pop on a queue holding [items] either reports "empty" and changes
    nothing, or removes and returns the oldest item. *)
Lemma holds_pop q items :
  holds q items ->
  pop_impl q = (None, q) \/
  exists v rest q', items = v :: rest /\ pop_impl q = (Some v, q') /\ holds q' rest.
Proof.
  intros (Hlen & Hh & Ht & Hsub & Hle & Hbuf).
  destruct (Z_lt_le_dec (m_tail q) (m_head q)) as [Hlt|Hge].
  - right.
    assert (Hsub' : U64.sub (m_head q) (m_tail q) = m_head q - m_tail q).
    { apply U64.sub_small; unfold U64.in_range in *; lia. }
    destruct items as [|v rest]; [simpl in Hsub; lia|].
    exists v, rest. eexists. split; [reflexivity|]. split.
    + rewrite pop_impl_avail by assumption. do 2 f_equal.
      apply list_lookup_total_correct.
      specialize (Hbuf 0%nat v eq_refl). simpl in Hbuf.
      rewrite U64.add_small in Hbuf by (unfold U64.in_range in *; lia).
      rewrite Z.add_0_r in Hbuf. exact Hbuf.
    + unfold holds, store_tail; simpl. simpl in Hsub, Hle.
      split; [assumption|]. split; [assumption|]. split; [apply U64.add_range|].
      split; [rewrite U64.sub_add_1_r by lia; lia|]. split; [lia|].
      intros j w Hj.
      {  specialize (Hbuf (S j) w Hj).
        replace (U64.add (U64.add (m_tail q) 1) (Z.of_nat j))
          with (U64.add (m_tail q) (Z.of_nat (S j))); [exact Hbuf|].
        unfold U64.add, U64.wrap. rewrite Zplus_mod_idemp_l. f_equal. lia. }
  - left. apply pop_impl_empty. lia.
Qed.

(** [try_pop_impl] is [pop_impl] with the result written through [out]. *)
Lemma spsc_try_pop_impl_pop_impl out q :
  try_pop_impl out q =
    match pop_impl q with
    | (Some v, q') => (true, v, q')
    | (None, q') => (false, out, q')
    end.
Proof. unfold try_pop_impl, pop_impl. destruct (m_tail q >=? m_head q); reflexivity. Qed.

(** Running any sequence of operations keeps the abstract content in step
    with the observed events. *)
Lemma holds_run ops : forall q items,
  holds q items ->
  exists items',
    holds (run ops q).2 items' /\
    items ++ pushed (run ops q).1 = popped (run ops q).1 ++ items'.
Proof.
  induction ops as [|o ops IH]; intros q items Hq; simpl.
  - exists items. split; [assumption|]. rewrite app_nil_r. reflexivity.
  - destruct o as [item| |out|this|this| |]; simpl.
    + destruct (holds_push item q items Hq) as [[_ Hp]|(_ & q' & Hp & Hq')]; rewrite Hp.
      * destruct (IH q items Hq) as (items' & H1 & H2).
        destruct (run ops q) as [es q'']. simpl in *. eauto.
      * destruct (IH q' _ Hq') as (items' & H1 & H2).
        destruct (run ops q') as [es q'']. simpl in *.
        exists items'. split; [assumption|]. rewrite <- H2, <- app_assoc. reflexivity.
    + destruct (holds_pop q items Hq) as [Hp|(v & rest & q' & -> & Hp & Hq')]; rewrite Hp.
      * destruct (IH q items Hq) as (items' & H1 & H2).
        destruct (run ops q) as [es q'']. simpl in *. eauto.
      * destruct (IH q' _ Hq') as (items' & H1 & H2).
        destruct (run ops q') as [es q'']. simpl in *.
        exists items'. split; [assumption|]. rewrite H2. reflexivity.
    + rewrite spsc_try_pop_impl_pop_impl.
      destruct (holds_pop q items Hq) as [Hp|(v & rest & q' & -> & Hp & Hq')]; rewrite Hp.
      * destruct (IH q items Hq) as (items' & H1 & H2).
        destruct (run ops q) as [es q'']. simpl in *. eauto.
      * destruct (IH q' _ Hq') as (items' & H1 & H2).
        destruct (run ops q') as [es q'']. simpl in *.
        exists items'. split; [assumption|]. rewrite H2. reflexivity.
    + unfold make_producer. destruct (m_producer_claimed q).
      * destruct (IH q items Hq) as (items' & H1 & H2).
        destruct (run ops q) as [es q'']. simpl in *. eauto.
      * destruct (IH _ items (holds_store_producer_claimed true q items Hq)) as (items' & H1 & H2).
        destruct (run ops _) as [es q'']. simpl in *. eauto.
    + unfold make_consumer. destruct (m_consumer_claimed q).
      * destruct (IH q items Hq) as (items' & H1 & H2).
        destruct (run ops q) as [es q'']. simpl in *. eauto.
      * destruct (IH _ items (holds_store_consumer_claimed true q items Hq)) as (items' & H1 & H2).
        destruct (run ops _) as [es q'']. simpl in *. eauto.
    + destruct (IH _ items (holds_store_producer_claimed false q items Hq)) as (items' & H1 & H2).
      destruct (run ops _) as [es q'']. simpl in *. eauto.
    + destruct (IH _ items (holds_store_consumer_claimed false q items Hq)) as (items' & H1 & H2).
      destruct (run ops _) as [es q'']. simpl in *. eauto.
Qed.

(** When every operation succeeds, the accepted values are the values
    handed to [push] and every pop call delivered one value. *)
Lemma succeeded_run ops : forall q,
  Forall (fun e => succeeded e = true) (run ops q).1 ->
  pushed (run ops q).1 = push_items ops /\
  length (popped (run ops q).1) = pop_count ops.
Proof.
  induction ops as [|o ops IH]; intros q; simpl; [auto|].
  destruct (step o q) as [e q'] eqn:Hstep.
  specialize (IH q'). destruct (run ops q') as [es q'']. simpl in *.
  intros Hall. inversion Hall as [|? ? He Hes]; subst.
  destruct (IH Hes) as [IH1 IH2].
  destruct o; simpl in Hstep.
  - destruct (push_impl item q) as [ok q1]. injection Hstep as <- <-.
    simpl in He. subst ok. simpl. split; [f_equal|]; assumption.
  - destruct (pop_impl q) as [r q1]. injection Hstep as <- <-.
    destruct r as [v|]; simpl in He; [|discriminate]. simpl. split; [|f_equal]; assumption.
  - destruct (try_pop_impl out q) as [[ok out'] q1]. injection Hstep as <- <-.
    simpl in He. subst ok. simpl. split; [|f_equal]; assumption.
  - destruct (make_producer this q). injection Hstep as <- <-. simpl. auto.
  - destruct (make_consumer this q). injection Hstep as <- <-. simpl. auto.
  - injection Hstep as <- <-. simpl. auto.
  - injection Hstep as <- <-. simpl. auto.
Qed.

(** *** Handles and claim flags agree in every reachable world *)

Lemma make_producer_cases this q :
  (m_producer_claimed q = true /\ make_producer this q = (None, q)) \/
  (m_producer_claimed q = false /\
   make_producer this q = (Some (MkProducer (Some this)), store_producer_claimed true q)).
Proof. unfold make_producer. destruct (m_producer_claimed q); auto. Qed.

Lemma make_consumer_cases this q :
  (m_consumer_claimed q = true /\ make_consumer this q = (None, q)) \/
  (m_consumer_claimed q = false /\
   make_consumer this q = (Some (MkConsumer (Some this)), store_consumer_claimed true q)).
Proof. unfold make_consumer. destruct (m_consumer_claimed q); auto. Qed.

Lemma push_impl_flags item q :
  m_producer_claimed (push_impl item q).2 = m_producer_claimed q /\
  m_consumer_claimed (push_impl item q).2 = m_consumer_claimed q.
Proof.
  unfold push_impl. destruct (U64.sub (m_head q) (m_tail q) >=? NumSlots); auto.
Qed.

Lemma pop_impl_flags q :
  m_producer_claimed (pop_impl q).2 = m_producer_claimed q /\
  m_consumer_claimed (pop_impl q).2 = m_consumer_claimed q.
Proof. unfold pop_impl. destruct (m_tail q >=? m_head q); auto. Qed.

Lemma try_pop_impl_flags out q :
  m_producer_claimed (try_pop_impl out q).2 = m_producer_claimed q /\
  m_consumer_claimed (try_pop_impl out q).2 = m_consumer_claimed q.
Proof. unfold try_pop_impl. destruct (m_tail q >=? m_head q); auto. Qed.

(** Both roles of every queue are exclusive. *)
Definition world_ok (w : World) : Prop :=
  exclusive (producer_of w) (producer_claimed_at w) /\
  exclusive (consumer_of w) (consumer_claimed_at w).

(** Unfold the lookups in handle tables and stores after one statement. *)
Ltac world_lookup :=
  unfold producer_of, consumer_of, producer_claimed_at, consumer_claimed_at;
  cbn [w_queues w_producers w_consumers];
  rewrite ?fn_lookup_insert_decide, ?lookup_insert, ?lookup_delete, ?lookup_alter;
  repeat case_decide; subst; simpl; try congruence; try reflexivity.

Lemma world_ok_init σ :
  (forall a q, σ !! a = Some q -> q = init) -> world_ok (MkWorld σ ∅ ∅).
Proof.
  intros Hσ. split; (split; [|split]).
  - intros h a. unfold producer_of; simpl. rewrite lookup_empty. discriminate.
  - intros h1 h2 a. unfold producer_of; simpl. rewrite lookup_empty. discriminate.
  - intros a. unfold producer_claimed_at; simpl.
    destruct (σ !! a) as [q|] eqn:Hq; simpl; [|discriminate].
    rewrite (Hσ a q Hq). discriminate.
  - intros h a. unfold consumer_of; simpl. rewrite lookup_empty. discriminate.
  - intros h1 h2 a. unfold consumer_of; simpl. rewrite lookup_empty. discriminate.
  - intros a. unfold consumer_claimed_at; simpl.
    destruct (σ !! a) as [q|] eqn:Hq; simpl; [|discriminate].
    rewrite (Hσ a q Hq). discriminate.
Qed.

(** A store update that keeps both flags of the queue at [a]. *)
Lemma flags_insert_same (σ : gmap addr SPSCQueue) a q q' b :
  σ !! a = Some q ->
  m_producer_claimed q' = m_producer_claimed q ->
  m_consumer_claimed q' = m_consumer_claimed q ->
  (m_producer_claimed <$> <[a := q']> σ !! b) = (m_producer_claimed <$> σ !! b) /\
  (m_consumer_claimed <$> <[a := q']> σ !! b) = (m_consumer_claimed <$> σ !! b).
Proof.
  intros Hq Hp Hc. rewrite lookup_insert. case_decide.
  - subst b. rewrite Hq. simpl. rewrite Hp, Hc. auto.
  - auto.
Qed.

Lemma world_ok_queues w σ' :
  world_ok w ->
  (forall b, (m_producer_claimed <$> σ' !! b) = (m_producer_claimed <$> w_queues w !! b) /\
             (m_consumer_claimed <$> σ' !! b) = (m_consumer_claimed <$> w_queues w !! b)) ->
  world_ok (MkWorld σ' (w_producers w) (w_consumers w)).
Proof.
  intros [Hp Hc] Hσ. split.
  - apply (exclusive_ext _ _ _ _ Hp); [reflexivity|]. intros b. apply Hσ.
  - apply (exclusive_ext _ _ _ _ Hc); [reflexivity|]. intros b. apply Hσ.
Qed.

(** The producer side of each kind of statement. *)

Lemma world_ok_make_producer w a h q :
  world_ok w -> w_producers w !! h = None -> w_queues w !! a = Some q ->
  m_producer_claimed q = false ->
  world_ok (MkWorld (<[a := store_producer_claimed true q]> (w_queues w))
                    (<[h := MkProducer (Some a)]> (w_producers w)) (w_consumers w)).
Proof.
  intros [Hp Hc] Hh Hq Hflag. split.
  - eapply exclusive_ext; [apply (exclusive_acquire _ _ h a Hp)| |].
    + unfold producer_of. rewrite Hh. reflexivity.
    + unfold producer_claimed_at. rewrite Hq. simpl. rewrite Hflag. reflexivity.
    + intros h1. world_lookup.
    + intros b. world_lookup.
  - apply (exclusive_ext _ _ _ _ Hc); [reflexivity|]. intros b. world_lookup.
    rewrite Hq. reflexivity.
Qed.

Lemma world_ok_make_consumer w a h q :
  world_ok w -> w_consumers w !! h = None -> w_queues w !! a = Some q ->
  m_consumer_claimed q = false ->
  world_ok (MkWorld (<[a := store_consumer_claimed true q]> (w_queues w))
                    (w_producers w) (<[h := MkConsumer (Some a)]> (w_consumers w))).
Proof.
  intros [Hp Hc] Hh Hq Hflag. split.
  - apply (exclusive_ext _ _ _ _ Hp); [reflexivity|]. intros b. world_lookup.
    rewrite Hq. reflexivity.
  - eapply exclusive_ext; [apply (exclusive_acquire _ _ h a Hc)| |].
    + unfold consumer_of. rewrite Hh. reflexivity.
    + unfold consumer_claimed_at. rewrite Hq. simpl. rewrite Hflag. reflexivity.
    + intros h1. world_lookup.
    + intros b. world_lookup.
Qed.

(** Letting go of what [h] points to, in place: the body shared by the
    destructor and the move assignment. *)
Lemma world_ok_release_producer w h p :
  world_ok w -> w_producers w !! h = Some p ->
  world_ok (MkWorld (Producer_dtor p (w_queues w))
                    (<[h := MkProducer None]> (w_producers w)) (w_consumers w)).
Proof.
  intros [Hp Hc] Hh. unfold Producer_dtor.
  destruct p as [[a|]]; simpl.
  - assert (Hown : producer_of w h = Some a) by (unfold producer_of; rewrite Hh; reflexivity).
    pose proof (proj1 Hp h a Hown) as Htaken. unfold producer_claimed_at in Htaken.
    destruct (w_queues w !! a) as [q|] eqn:Hq; simpl in Htaken; [|discriminate].
    split.
    + eapply exclusive_ext; [apply (exclusive_release _ _ h a Hp Hown)| |].
      * intros h1. world_lookup.
      * intros b. world_lookup. rewrite Hq. reflexivity.
    + apply (exclusive_ext _ _ _ _ Hc); [reflexivity|]. intros b. world_lookup.
      rewrite Hq. reflexivity.
  - split; [|assumption].
    apply (exclusive_ext _ _ _ _ Hp); [|reflexivity]. intros h1. world_lookup.
    rewrite Hh. reflexivity.
Qed.

Lemma world_ok_release_consumer w h c :
  world_ok w -> w_consumers w !! h = Some c ->
  world_ok (MkWorld (Consumer_dtor c (w_queues w)) (w_producers w)
                    (<[h := MkConsumer None]> (w_consumers w))).
Proof.
  intros [Hp Hc] Hh. unfold Consumer_dtor.
  destruct c as [[a|]]; simpl.
  - assert (Hown : consumer_of w h = Some a) by (unfold consumer_of; rewrite Hh; reflexivity).
    pose proof (proj1 Hc h a Hown) as Htaken. unfold consumer_claimed_at in Htaken.
    destruct (w_queues w !! a) as [q|] eqn:Hq; simpl in Htaken; [|discriminate].
    split.
    + apply (exclusive_ext _ _ _ _ Hp); [reflexivity|]. intros b. world_lookup.
      rewrite Hq. reflexivity.
    + eapply exclusive_ext; [apply (exclusive_release _ _ h a Hc Hown)| |].
      * intros h1. world_lookup.
      * intros b. world_lookup. rewrite Hq. reflexivity.
  - split; [assumption|].
    apply (exclusive_ext _ _ _ _ Hc); [|reflexivity]. intros h1. world_lookup.
    rewrite Hh. reflexivity.
Qed.

(** A handle that points to nothing goes out of existence. *)
Lemma world_ok_delete_producer w h :
  world_ok w -> producer_of w h = None ->
  world_ok (MkWorld (w_queues w) (delete h (w_producers w)) (w_consumers w)).
Proof.
  intros [Hp Hc] Hh. split; [|assumption].
  apply (exclusive_ext _ _ _ _ Hp); [|reflexivity]. intros h1. world_lookup.
  symmetry. exact Hh.
Qed.

Lemma world_ok_delete_consumer w h :
  world_ok w -> consumer_of w h = None ->
  world_ok (MkWorld (w_queues w) (w_producers w) (delete h (w_consumers w))).
Proof.
  intros [Hp Hc] Hh. split; [assumption|].
  apply (exclusive_ext _ _ _ _ Hc); [|reflexivity]. intros h1. world_lookup.
  symmetry. exact Hh.
Qed.

(** The pointer of [h] passes to [h'], which pointed to nothing. *)
Lemma world_ok_transfer_producer w h h' p :
  world_ok w -> h <> h' -> producer_of w h' = None -> w_producers w !! h = Some p ->
  world_ok (MkWorld (w_queues w)
                    (<[h' := MkProducer (producer_m_queue p)]>
                       (<[h := MkProducer None]> (w_producers w)))
                    (w_consumers w)).
Proof.
  intros [Hp Hc] Hne Hh' Hh. split; [|assumption].
  eapply exclusive_ext; [apply (exclusive_transfer _ _ h h' Hp Hne Hh')| |reflexivity].
  intros h1. unfold producer_of at 2. rewrite Hh. world_lookup.
Qed.

Lemma world_ok_transfer_consumer w h h' c :
  world_ok w -> h <> h' -> consumer_of w h' = None -> w_consumers w !! h = Some c ->
  world_ok (MkWorld (w_queues w) (w_producers w)
                    (<[h' := MkConsumer (consumer_m_queue c)]>
                       (<[h := MkConsumer None]> (w_consumers w)))).
Proof.
  intros [Hp Hc] Hne Hh' Hh. split; [assumption|].
  eapply exclusive_ext; [apply (exclusive_transfer _ _ h h' Hc Hne Hh')| |reflexivity].
  intros h1. unfold consumer_of at 2. rewrite Hh. world_lookup.
Qed.

(** The destructor of a handle that points to nothing changes no queue,
    and neither does the destructor of what a move leaves behind. *)
Lemma Producer_dtor_null p (σ : gmap addr SPSCQueue) :
  producer_m_queue p = None -> Producer_dtor p σ = σ.
Proof. unfold Producer_dtor. intros ->. reflexivity. Qed.

Lemma Consumer_dtor_null c (σ : gmap addr SPSCQueue) :
  consumer_m_queue c = None -> Consumer_dtor c σ = σ.
Proof. unfold Consumer_dtor. intros ->. reflexivity. Qed.

Lemma Producer_move_assign_dtor p' p (σ : gmap addr SPSCQueue) :
  Producer_move_assign p' p σ =
    (MkProducer (producer_m_queue p), MkProducer None, Producer_dtor p' σ).
Proof. reflexivity. Qed.

Lemma Consumer_move_assign_dtor c' c (σ : gmap addr SPSCQueue) :
  Consumer_move_assign c' c σ =
    (MkConsumer (consumer_m_queue c), MkConsumer None, Consumer_dtor c' σ).
Proof. reflexivity. Qed.

(** Every statement keeps both roles exclusive. *)
Lemma world_ok_step o w w' : world_ok w -> wstep o w = Some w' -> world_ok w'.
Proof.
  intros Hw Hstep. destruct o; simpl in Hstep.
  - (* make_producer *)
    case_decide as Hh; [|discriminate].
    destruct (w_queues w !! a) as [q|] eqn:Hq; simpl in Hstep; [|discriminate].
    destruct (make_producer_cases a q) as [[Hf Hm]|[Hf Hm]]; rewrite Hm in Hstep;
      injection Hstep as <-.
    + rewrite insert_id by assumption. destruct w; assumption.
    + apply world_ok_make_producer; assumption.
  - (* make_consumer *)
    case_decide as Hh; [|discriminate].
    destruct (w_queues w !! a) as [q|] eqn:Hq; simpl in Hstep; [|discriminate].
    destruct (make_consumer_cases a q) as [[Hf Hm]|[Hf Hm]]; rewrite Hm in Hstep;
      injection Hstep as <-.
    + rewrite insert_id by assumption. destruct w; assumption.
    + apply world_ok_make_consumer; assumption.
  - (* ~Producer *)
    destruct (w_producers w !! h) as [p|] eqn:Hp; simpl in Hstep; [|discriminate].
    injection Hstep as <-.
    pose proof (world_ok_release_producer w h p Hw Hp) as H1.
    apply (world_ok_delete_producer _ h) in H1.
    + simpl in H1. rewrite delete_insert_eq in H1. exact H1.
    + unfold producer_of; simpl. rewrite lookup_insert_eq. reflexivity.
  - (* ~Consumer *)
    destruct (w_consumers w !! h) as [c|] eqn:Hc; simpl in Hstep; [|discriminate].
    injection Hstep as <-.
    pose proof (world_ok_release_consumer w h c Hw Hc) as H1.
    apply (world_ok_delete_consumer _ h) in H1.
    + simpl in H1. rewrite delete_insert_eq in H1. exact H1.
    + unfold consumer_of; simpl. rewrite lookup_insert_eq. reflexivity.
  - (* Producer(Producer&&) *)
    case_decide as Hh'; [|discriminate].
    destruct (w_producers w !! h) as [p|] eqn:Hp; simpl in Hstep; [|discriminate].
    injection Hstep as <-.
    apply world_ok_transfer_producer; try assumption.
    + intros ->. congruence.
    + unfold producer_of. rewrite Hh'. reflexivity.
  - (* Consumer(Consumer&&) *)
    case_decide as Hh'; [|discriminate].
    destruct (w_consumers w !! h) as [c|] eqn:Hc; simpl in Hstep; [|discriminate].
    injection Hstep as <-.
    apply world_ok_transfer_consumer; try assumption.
    + intros ->. congruence.
    + unfold consumer_of. rewrite Hh'. reflexivity.
  - (* Producer::operator=(Producer&&) *)
    destruct (w_producers w !! h') as [p'|] eqn:Hp'; simpl in Hstep; [|discriminate].
    destruct (w_producers w !! h) as [p|] eqn:Hp; simpl in Hstep; [|discriminate].
    case_decide as Hne; [injection Hstep as <-; assumption|].
    injection Hstep as <-.
    pose proof (world_ok_release_producer w h' p' Hw Hp') as H1.
    apply (world_ok_transfer_producer _ h h' p) in H1; simpl; try congruence.
    + simpl in H1.
      replace (<[h':=MkProducer (producer_m_queue p)]> (<[h:=MkProducer None]> (w_producers w)))
        with (<[h':=MkProducer (producer_m_queue p)]>
                (<[h:=MkProducer None]> (<[h':=MkProducer None]> (w_producers w))));
        [exact H1|].
      apply map_eq. intros i. rewrite !lookup_insert. repeat case_decide; congruence.
    + unfold producer_of; simpl. rewrite lookup_insert_eq. reflexivity.
    + rewrite lookup_insert_ne by assumption. assumption.
  - (* Consumer::operator=(Consumer&&) *)
    destruct (w_consumers w !! h') as [c'|] eqn:Hc'; simpl in Hstep; [|discriminate].
    destruct (w_consumers w !! h) as [c|] eqn:Hc; simpl in Hstep; [|discriminate].
    case_decide as Hne; [injection Hstep as <-; assumption|].
    injection Hstep as <-.
    pose proof (world_ok_release_consumer w h' c' Hw Hc') as H1.
    apply (world_ok_transfer_consumer _ h h' c) in H1; simpl; try congruence.
    + simpl in H1.
      replace (<[h':=MkConsumer (consumer_m_queue c)]> (<[h:=MkConsumer None]> (w_consumers w)))
        with (<[h':=MkConsumer (consumer_m_queue c)]>
                (<[h:=MkConsumer None]> (<[h':=MkConsumer None]> (w_consumers w))));
        [exact H1|].
      apply map_eq. intros i. rewrite !lookup_insert. repeat case_decide; congruence.
    + unfold consumer_of; simpl. rewrite lookup_insert_eq. reflexivity.
    + rewrite lookup_insert_ne by assumption. assumption.
  - (* push *)
    destruct (w_producers w !! h) as [p|]; simpl in Hstep; [|discriminate].
    unfold Producer_push in Hstep.
    destruct (producer_m_queue p) as [a|]; simpl in Hstep; [|discriminate].
    destruct (w_queues w !! a) as [q|] eqn:Hq; simpl in Hstep; [|discriminate].
    pose proof (push_impl_flags item q) as [Hf1 Hf2].
    destruct (push_impl item q) as [ok q']. simpl in *. injection Hstep as <-.
    apply world_ok_queues; [assumption|].
    intros b. apply (flags_insert_same _ a q); assumption.
  - (* pop *)
    destruct (w_consumers w !! h) as [c|]; simpl in Hstep; [|discriminate].
    unfold Consumer_pop in Hstep.
    destruct (consumer_m_queue c) as [a|]; simpl in Hstep; [|discriminate].
    destruct (w_queues w !! a) as [q|] eqn:Hq; simpl in Hstep; [|discriminate].
    pose proof (pop_impl_flags q) as [Hf1 Hf2].
    destruct (pop_impl q) as [r q']. simpl in *. injection Hstep as <-.
    apply world_ok_queues; [assumption|].
    intros b. apply (flags_insert_same _ a q); assumption.
  - (* try_pop *)
    destruct (w_consumers w !! h) as [c|]; simpl in Hstep; [|discriminate].
    unfold Consumer_try_pop in Hstep.
    destruct (consumer_m_queue c) as [a|]; simpl in Hstep; [|discriminate].
    destruct (w_queues w !! a) as [q|] eqn:Hq; simpl in Hstep; [|discriminate].
    pose proof (try_pop_impl_flags out q) as [Hf1 Hf2].
    destruct (try_pop_impl out q) as [[ok out'] q']. simpl in *. injection Hstep as <-.
    apply world_ok_queues; [assumption|].
    intros b. apply (flags_insert_same _ a q); assumption.
Qed.

Lemma reachable_world_ok w : reachable w -> world_ok w.
Proof.
  induction 1 as [σ Hσ|w w' o _ IH Hstep].
  - apply world_ok_init, Hσ.
  - eapply world_ok_step; eassumption.
Qed.

Lemma spsc_wrun_reachable ops : forall w w',
  reachable w -> wrun ops w = Some w' -> reachable w'.
Proof.
  induction ops as [|o ops IH]; intros w w' Hw Hrun; simpl in Hrun.
  - injection Hrun as <-. assumption.
  - destruct (wstep o w) as [w1|] eqn:Hstep; simpl in Hrun; [|discriminate].
    apply (IH w1); [|assumption]. eapply reachable_step; eassumption.
Qed.

(** *** Order, capacity and claims of the SPSC queue *)

(** The values delivered so far are always the first of the values
    accepted so far, whatever the operations and their outcomes. *)
Lemma spsc_popped_prefix (ops : list op) :
  popped (run ops init).1 `prefix_of` pushed (run ops init).1.
Proof.
  destruct (holds_run ops init [] holds_init) as (items' & _ & Heq).
  simpl in Heq. exists items'. exact Heq.
Qed.

(** A reachable queue whose cursors coincide holds nothing. *)
Lemma holds_empty (pre : list op) :
  let q := (run pre init).2 in
  m_head q = m_tail q -> holds q [].
Proof.
  destruct (holds_run pre init [] holds_init) as (items & Hq & _).
  simpl. intros Heq. pose proof Hq as (_ & _ & _ & Hsub & _).
  rewrite Heq, U64.sub_diag in Hsub.
  destruct items; [assumption|simpl in Hsub; lia].
Qed.

(** C1 (FIFO order, SPSC).  Start from a freshly constructed queue, or
    from any state such a queue reaches (by the operations [pre]) in which
    it is empty, [m_head = m_tail].  Take any sequence of operations in
    which every push and every pop succeeds and which pops as many times
    as it pushes, say N times each (pushes and pops interleaved in any
    way, [pop] and [try_pop] mixed).  Then the values returned by the N
    pops are exactly the N values handed to [push], in the order in which
    they were pushed.  The cursors wrap modulo [2^64]; the statement holds
    for sequences of any length. *)
Theorem spsc_fifo_order (pre ops : list op) :
  let q := (run pre init).2 in
  m_head q = m_tail q ->
  Forall (fun e => succeeded e = true) (run ops q).1 ->
  pop_count ops = length (push_items ops) ->
  popped (run ops q).1 = push_items ops.
Proof.
  intros q Hempty Hok Hcount.
  destruct (succeeded_run ops q Hok) as [Hpushed Hpopped].
  destruct (holds_run ops q [] (holds_empty pre Hempty)) as (items' & _ & Heq).
  simpl in Heq. rewrite Hpushed in Heq.
  assert (Hnil : items' = []).
  { apply (f_equal length) in Heq. rewrite length_app, Hpopped, Hcount in Heq.
    destruct items'; [reflexivity|simpl in Heq; lia]. }
  rewrite Hnil, app_nil_r in Heq. symmetry. exact Heq.
Qed.

(** In every state reached from a fresh queue the wrapped distance
    [head - tail] is at most [NumSlots]; when one more item would exceed
    it, [push_impl] reports "full" and leaves the queue as it is. *)
Lemma spsc_capacity (ops : list op) :
  let q := (run ops init).2 in
  0 <= U64.sub (m_head q) (m_tail q) <= NumSlots /\
  forall item,
    U64.sub (U64.add (m_head q) 1) (m_tail q) > NumSlots ->
    push_impl item q = (false, q).
Proof.
  destruct (holds_run ops init [] holds_init) as (items' & Hq & _).
  simpl. destruct (run ops init) as [es q]. simpl in *.
  pose proof Hq as (_ & _ & _ & Hsub & Hle & _).
  split; [lia|]. intros item Hover.
  destruct (holds_push item q items' Hq) as [[_ Hp]|[Hlt _]]; [assumption|exfalso].
  rewrite U64.sub_add_1_l in Hover by lia. lia.
Qed.


(** [try_pop_impl] and [pop_impl] agree on result and successor state. *)
Lemma spsc_try_pop_equiv (out : T) (q : SPSCQueue) :
  (forall v q', try_pop_impl out q = (true, v, q') <-> pop_impl q = (Some v, q')) /\
  (forall out' q', try_pop_impl out q = (false, out', q') <->
                   pop_impl q = (None, q') /\ out' = out).
Proof.
  rewrite spsc_try_pop_impl_pop_impl.
  destruct (pop_impl q) as [[v0|] q0]; split.
  - intros v q'. split; intros Heq; injection Heq as <- <-; reflexivity.
  - intros out' q'. split; [intros Heq|intros [Heq _]]; discriminate.
  - intros v q'. split; intros Heq; discriminate.
  - intros out' q'. split.
    + intros Heq. injection Heq as <- <-. auto.
    + intros [Heq ->]. injection Heq as <-. reflexivity.
Qed.

(** C7 (producer-claim exclusivity).  In every world a program can reach
    and for every queue in it: at most one producer handle points to the
    queue; [make_producer] returns a handle (and sets the claim flag)
    when no producer handle points to the queue, and returns nothing,
    changing nothing, while one does; and once that handle is destroyed
    no handle points to the queue and [make_producer] succeeds again. *)
Theorem producer_claim_exclusive (w : World) (a : addr) (q : SPSCQueue) :
  reachable w ->
  w_queues w !! a = Some q ->
  (forall h1 h2, producer_of w h1 = Some a -> producer_of w h2 = Some a -> h1 = h2) /\
  ((forall h, producer_of w h <> Some a) ->
   make_producer a q = (Some (MkProducer (Some a)), store_producer_claimed true q)) /\
  ((exists h, producer_of w h = Some a) -> make_producer a q = (None, q)) /\
  (forall h, producer_of w h = Some a ->
     exists w' q',
       wstep (WDestroyProducer h) w = Some w' /\
       w_queues w' !! a = Some q' /\
       (forall h0, producer_of w' h0 <> Some a) /\
       make_producer a q' = (Some (MkProducer (Some a)), store_producer_claimed true q')).
Proof.
  intros Hreach Hq.
  pose proof (reachable_world_ok w Hreach) as Hw.
  destruct Hw as [(H1 & H2 & H3) Hc].
  assert (Hflag : producer_claimed_at w a = Some (m_producer_claimed q)).
  { unfold producer_claimed_at. rewrite Hq. reflexivity. }
  split; [exact (fun h1 h2 => H2 h1 h2 a)|]. split; [|split].
  - intros Hnone. destruct (make_producer_cases a q) as [[Hf _]|[_ Hm]]; [exfalso|exact Hm].
    rewrite Hf in Hflag. destruct (H3 a Hflag) as [h Hh]. exact (Hnone h Hh).
  - intros [h Hh]. destruct (make_producer_cases a q) as [[_ Hm]|[Hf _]]; [exact Hm|exfalso].
    specialize (H1 h a Hh). rewrite Hflag, Hf in H1. discriminate.
  - intros h Hh. unfold producer_of in Hh.
    destruct (w_producers w !! h) as [p|] eqn:Hp; simpl in Hh; [|discriminate].
    eexists. exists (store_producer_claimed false q).
    split; [simpl; rewrite Hp; reflexivity|].
    assert (Hq' : Producer_dtor p (w_queues w) !! a = Some (store_producer_claimed false q)).
    { unfold Producer_dtor. rewrite Hh, lookup_alter_eq, Hq. reflexivity. }
    split; [exact Hq'|].
    assert (Hstep : wstep (WDestroyProducer h) w =
                    Some (MkWorld (Producer_dtor p (w_queues w)) (delete h (w_producers w))
                                  (w_consumers w))).
    { simpl. rewrite Hp. reflexivity. }
    pose proof (world_ok_step _ _ _ (conj (conj H1 (conj H2 H3)) Hc) Hstep) as [(K1 & _) _].
    split; [|reflexivity].
    intros h0 Hh0. specialize (K1 h0 a Hh0).
    unfold producer_claimed_at in K1. simpl in K1. rewrite Hq' in K1. discriminate.
Qed.

(** Moving a producer handle, by construction or by assignment between
    two distinct objects: the destination points to what the source
    pointed to, the source points to nothing, the role it held is still
    claimed, its destructor then changes no queue, and both roles of
    every queue remain exclusive. *)
Lemma spsc_producer_move (w w' : World) (h h' : hid) :
  reachable w ->
  wstep (WMoveProducer h' h) w = Some w' \/
    (h' <> h /\ wstep (WAssignProducer h' h) w = Some w') ->
  producer_of w' h' = producer_of w h /\
  producer_of w' h = None /\
  (forall a, producer_of w h = Some a -> producer_claimed_at w' a = Some true) /\
  (exists w'', wstep (WDestroyProducer h) w' = Some w'' /\ w_queues w'' = w_queues w') /\
  world_ok w'.
Proof.
  intros Hreach Hmove.
  pose proof (reachable_world_ok w Hreach) as Hw.
  assert (Hw' : world_ok w').
  { destruct Hmove as [Hs|[_ Hs]]; eapply world_ok_step; eassumption. }
  assert (Hfacts : h' <> h /\ exists p σ',
            w_producers w !! h = Some p /\
            w' = MkWorld σ' (<[h' := MkProducer (producer_m_queue p)]>
                               (<[h := MkProducer None]> (w_producers w)))
                         (w_consumers w)).
  { destruct Hmove as [Hs|[Hne Hs]]; simpl in Hs.
    - case_decide as Hh'; [|discriminate].
      destruct (w_producers w !! h) as [p|] eqn:Hp; simpl in Hs; [|discriminate].
      injection Hs as <-. split; [intros ->; congruence|]. eauto.
    - destruct (w_producers w !! h') as [p'|] eqn:Hp'; simpl in Hs; [|discriminate].
      destruct (w_producers w !! h) as [p|] eqn:Hp; simpl in Hs; [|discriminate].
      rewrite decide_False in Hs by assumption. injection Hs as <-. eauto. }
  destruct Hfacts as (Hne & p & σ' & Hp & ->).
  assert (Hdst : producer_of (MkWorld σ' (<[h' := MkProducer (producer_m_queue p)]>
                    (<[h := MkProducer None]> (w_producers w))) (w_consumers w)) h'
                 = producer_of w h).
  { unfold producer_of; simpl. rewrite lookup_insert_eq, Hp. reflexivity. }
  split; [exact Hdst|]. split; [|split; [|split; [|exact Hw']]].
  - unfold producer_of; simpl.
    rewrite lookup_insert_ne, lookup_insert_eq by assumption. reflexivity.
  - intros a Ha. destruct Hw' as [(K1 & _) _]. apply (K1 h'). rewrite Hdst. exact Ha.
  - eexists. split.
    + simpl. rewrite lookup_insert_ne, lookup_insert_eq by assumption. reflexivity.
    + reflexivity.
Qed.

(** The same for consumer handles. *)
Lemma spsc_consumer_move (w w' : World) (h h' : hid) :
  reachable w ->
  wstep (WMoveConsumer h' h) w = Some w' \/
    (h' <> h /\ wstep (WAssignConsumer h' h) w = Some w') ->
  consumer_of w' h' = consumer_of w h /\
  consumer_of w' h = None /\
  (forall a, consumer_of w h = Some a -> consumer_claimed_at w' a = Some true) /\
  (exists w'', wstep (WDestroyConsumer h) w' = Some w'' /\ w_queues w'' = w_queues w') /\
  world_ok w'.
Proof.
  intros Hreach Hmove.
  pose proof (reachable_world_ok w Hreach) as Hw.
  assert (Hw' : world_ok w').
  { destruct Hmove as [Hs|[_ Hs]]; eapply world_ok_step; eassumption. }
  assert (Hfacts : h' <> h /\ exists c σ',
            w_consumers w !! h = Some c /\
            w' = MkWorld σ' (w_producers w)
                         (<[h' := MkConsumer (consumer_m_queue c)]>
                            (<[h := MkConsumer None]> (w_consumers w)))).
  { destruct Hmove as [Hs|[Hne Hs]]; simpl in Hs.
    - case_decide as Hh'; [|discriminate].
      destruct (w_consumers w !! h) as [c|] eqn:Hc; simpl in Hs; [|discriminate].
      injection Hs as <-. split; [intros ->; congruence|]. eauto.
    - destruct (w_consumers w !! h') as [c'|] eqn:Hc'; simpl in Hs; [|discriminate].
      destruct (w_consumers w !! h) as [c|] eqn:Hc; simpl in Hs; [|discriminate].
      rewrite decide_False in Hs by assumption. injection Hs as <-. eauto. }
  destruct Hfacts as (Hne & c & σ' & Hc & ->).
  assert (Hdst : consumer_of (MkWorld σ' (w_producers w)
                    (<[h' := MkConsumer (consumer_m_queue c)]>
                       (<[h := MkConsumer None]> (w_consumers w)))) h'
                 = consumer_of w h).
  { unfold consumer_of; simpl. rewrite lookup_insert_eq, Hc. reflexivity. }
  split; [exact Hdst|]. split; [|split; [|split; [|exact Hw']]].
  - unfold consumer_of; simpl.
    rewrite lookup_insert_ne, lookup_insert_eq by assumption. reflexivity.
  - intros a Ha. destruct Hw' as [_ (K1 & _)]. apply (K1 h'). rewrite Hdst. exact Ha.
  - eexists. split.
    + simpl. rewrite lookup_insert_ne, lookup_insert_eq by assumption. reflexivity.
    + reflexivity.
Qed.

(** *** Handles constructed directly

    The converting constructors of the handle classes are public.  The
    worlds of this development hold the handles a program gets from
    [make_producer] and [make_consumer] and moves around; a program that
    constructs a handle itself leaves them: the handle points to a queue
    whose claim flag is not set, and [make_producer] hands out a second
    one. *)
Remark producer_ctor_unclaimed (a : addr) (h : hid) :
  let w := MkWorld {[a := init]} {[h := Producer_ctor a]} ∅ in
  producer_of w h = Some a /\
  make_producer a init = (Some (Producer_ctor a), store_producer_claimed true init) /\
  ~ reachable w.
Proof.
  intros w. split; [|split].
  - unfold producer_of, w. simpl. rewrite lookup_singleton_eq. reflexivity.
  - reflexivity.
  - intros Hreach. destruct (reachable_world_ok w Hreach) as [(H1 & _) _].
    assert (Hh : producer_of w h = Some a).
    { unfold producer_of, w. simpl. rewrite lookup_singleton_eq. reflexivity. }
    specialize (H1 h a Hh). unfold producer_claimed_at, w in H1. simpl in H1.
    rewrite lookup_singleton_eq in H1. discriminate.
Qed.

(** *** Content, [peek] and the outcome of [push] and [pop] *)

Lemma spsc_run_app ops1 ops2 q :
  run (ops1 ++ ops2) q =
    ((run ops1 q).1 ++ (run ops2 (run ops1 q).2).1, (run ops2 (run ops1 q).2).2).
Proof.
  revert q. induction ops1 as [|o ops1 IH]; intros q; simpl.
  - destruct (run ops2 q); reflexivity.
  - destruct (step o q) as [e q1]. rewrite IH.
    destruct (run ops1 q1) as [es1 q2]. simpl.
    destruct (run ops2 q2) as [es2 q3]. reflexivity.
Qed.

Lemma spsc_pushed_app es1 es2 : pushed (es1 ++ es2) = pushed es1 ++ pushed es2.
Proof.
  induction es1 as [|e es1 IH]; [reflexivity|].
  destruct e as [item [|]| | | |]; simpl; rewrite ?IH; reflexivity.
Qed.

Lemma spsc_popped_app es1 es2 : popped (es1 ++ es2) = popped es1 ++ popped es2.
Proof.
  induction es1 as [|e es1 IH]; [reflexivity|].
  destruct e as [|[v|]|[|] v| |]; simpl; rewrite ?IH; reflexivity.
Qed.

Lemma spsc_push_items_app ops1 ops2 :
  push_items (ops1 ++ ops2) = push_items ops1 ++ push_items ops2.
Proof.
  induction ops1 as [|o ops1 IH]; [reflexivity|].
  destruct o; simpl; rewrite ?IH; reflexivity.
Qed.

(** On a queue holding [items], [count_snapshot_impl] is their number. *)
Lemma holds_count_snapshot q items :
  holds q items -> count_snapshot_impl q = Z.of_nat (length items).
Proof.
  intros (_ & _ & _ & Hsub & Hle & _). unfold count_snapshot_impl.
  destruct (Z.gtb_spec (U64.sub (m_head q) (m_tail q)) NumSlots); [lia|assumption].
Qed.

(** The cursors have not wrapped. *)
Definition unwrapped (q : SPSCQueue) : Prop :=
  0 <= m_tail q <= m_head q /\ m_head q < U64.modulus.

Lemma unwrapped_holds_length q items :
  unwrapped q -> holds q items -> m_head q - m_tail q = Z.of_nat (length items).
Proof.
  intros [Hle Hlt] (_ & _ & _ & Hsub & _).
  rewrite U64.sub_small in Hsub by lia. exact Hsub.
Qed.

(** Without wrap-around a pop reports "empty" only on an empty queue. *)
Lemma unwrapped_pop q items :
  unwrapped q -> holds q items ->
  match items with
  | [] => pop_impl q = (None, q)
  | v :: rest =>
      exists q', pop_impl q = (Some v, q') /\ holds q' rest /\ unwrapped q' /\
                 m_head q' = m_head q /\ m_tail q' = m_tail q + 1
  end.
Proof.
  intros Hu Hq. pose proof (unwrapped_holds_length q items Hu Hq) as Hlen.
  destruct Hu as [Hle Hlt].
  destruct items as [|v rest]; simpl in Hlen.
  - apply pop_impl_empty. lia.
  - destruct (holds_pop q (v :: rest) Hq) as [Hp|(v' & rest' & q' & Heq & Hp & Hq')].
    + rewrite pop_impl_avail in Hp by lia. discriminate.
    + injection Heq as <- <-. exists q'. split; [exact Hp|]. split; [exact Hq'|].
      rewrite pop_impl_avail in Hp by lia. injection Hp as _ <-.
      unfold unwrapped, store_tail; simpl.
      rewrite U64.add_small by lia. repeat split; lia.
Qed.

(** Without wrap-around a push advances the producer cursor by one. *)
Lemma unwrapped_push item q items :
  unwrapped q -> holds q items -> m_head q + 1 < U64.modulus ->
  (Z.of_nat (length items) = NumSlots /\ push_impl item q = (false, q)) \/
  (Z.of_nat (length items) < NumSlots /\
   exists q', push_impl item q = (true, q') /\ holds q' (items ++ [item]) /\
              unwrapped q' /\ m_head q' = m_head q + 1 /\ m_tail q' = m_tail q).
Proof.
  intros [Hle Hlt] Hq Hroom.
  destruct (holds_push item q items Hq) as [Hfull|(Hn & q' & Hp & Hq')]; [left; exact Hfull|].
  right. split; [exact Hn|]. exists q'. split; [exact Hp|]. split; [exact Hq'|].
  pose proof Hq as (_ & _ & _ & Hsub & _).
  rewrite push_impl_room in Hp by lia. injection Hp as <-.
  unfold unwrapped, store_head, store_buffer; simpl.
  rewrite U64.add_small by lia. repeat split; lia.
Qed.

Ltac stepped Hu Hq :=
  split; [exact Hu|]; split; [exact Hq|]; split; [lia|];
  simpl; rewrite ?app_nil_r; reflexivity.

(** Any operations that make fewer than [2^64] pushes in all keep the
    cursors from wrapping. *)
Lemma unwrapped_run ops : forall q items,
  unwrapped q -> holds q items ->
  m_head q + Z.of_nat (length (push_items ops)) < U64.modulus ->
  exists items',
    unwrapped (run ops q).2 /\ holds (run ops q).2 items' /\
    items ++ pushed (run ops q).1 = popped (run ops q).1 ++ items'.
Proof.
  induction ops as [|o ops IH]; intros q items Hu Hq Hcnt.
  - exists items. simpl. rewrite app_nil_r. auto.
  - assert (Hstep : exists items1,
              unwrapped (step o q).2 /\ holds (step o q).2 items1 /\
              m_head (step o q).2 + Z.of_nat (length (push_items ops)) < U64.modulus /\
              items ++ pushed [(step o q).1] = popped [(step o q).1] ++ items1).
    { destruct o as [item| |out|this|this| |]; simpl in Hcnt |- *.
      - destruct (unwrapped_push item q items Hu Hq ltac:(lia))
          as [[_ Hp]|(_ & q' & Hp & Hq' & Hu' & Hh' & _)]; rewrite Hp; simpl.
        + exists items. stepped Hu Hq.
        + exists (items ++ [item]). stepped Hu' Hq'.
      - pose proof (unwrapped_pop q items Hu Hq) as Hpop.
        destruct items as [|v rest].
        + rewrite Hpop. simpl. exists []. stepped Hu Hq.
        + destruct Hpop as (q' & Hp & Hq' & Hu' & Hh' & _). rewrite Hp. simpl.
          exists rest. stepped Hu' Hq'.
      - rewrite spsc_try_pop_impl_pop_impl.
        pose proof (unwrapped_pop q items Hu Hq) as Hpop.
        destruct items as [|v rest].
        + rewrite Hpop. simpl. exists []. stepped Hu Hq.
        + destruct Hpop as (q' & Hp & Hq' & Hu' & Hh' & _). rewrite Hp. simpl.
          exists rest. stepped Hu' Hq'.
      - unfold make_producer. destruct (m_producer_claimed q); simpl;
          exists items; stepped Hu Hq.
      - unfold make_consumer. destruct (m_consumer_claimed q); simpl;
          exists items; stepped Hu Hq.
      - exists items. stepped Hu Hq.
      - exists items. stepped Hu Hq. }
    destruct Hstep as (items1 & Hu1 & Hq1 & Hcnt1 & Heq1).
    destruct (IH _ items1 Hu1 Hq1 Hcnt1) as (items' & Hu' & Hq' & Heq').
    exists items'. cbn [run]. destruct (step o q) as [e q1]. cbn [fst snd] in *.
    destruct (run ops q1) as [es q2]. cbn [fst snd] in *.
    split; [exact Hu'|]. split; [exact Hq'|].
    change (e :: es) with ([e] ++ es).
    rewrite spsc_pushed_app, spsc_popped_app, app_assoc, Heq1, <- !app_assoc, Heq'.
    reflexivity.
Qed.

Lemma unwrapped_init : unwrapped init.
Proof. unfold unwrapped, init; simpl. split; [lia|reflexivity]. Qed.

(** The oldest of the values a queue holds is what [peek] and [pop]
    return. *)
Lemma unwrapped_peek q items out :
  unwrapped q -> holds q items ->
  peek q = head items /\
  peek_out out q = match head items with Some v => (true, v) | None => (false, out) end /\
  (pop_impl q).1 = head items.
Proof.
  intros Hu Hq. pose proof (unwrapped_pop q items Hu Hq) as Hpop.
  assert (Hpeek : peek q = (pop_impl q).1 /\
                  peek_out out q = match (pop_impl q).1 with
                                   | Some v => (true, v) | None => (false, out) end).
  { unfold peek, peek_out, pop_impl. destruct (m_tail q >=? m_head q); auto. }
  destruct Hpeek as [-> ->].
  destruct items as [|v rest].
  - rewrite Hpop. auto.
  - destruct Hpop as (q' & -> & _). auto.
Qed.

(** X1 (SPSC conservation).  Whatever operations run on a fresh queue and
    whatever they return, the values delivered by [pop] / [try_pop] are, in
    order, the first of the values accepted by [push], and
    [count_snapshot_impl] is the number of accepted values not delivered
    yet.  Creating and destroying handles in between changes none of this.
    The cursors wrap modulo [2^64]; the statement holds for sequences of any
    length. *)
Theorem spsc_delivered_prefix_and_count (ops : list op) :
  exists rest : list T,
    pushed (run ops init).1 = popped (run ops init).1 ++ rest /\
    count_snapshot_impl (run ops init).2 = Z.of_nat (length rest).
Proof.
  destruct (holds_run ops init [] holds_init) as (items' & Hq & Heq).
  exists items'. split; [exact Heq|]. apply holds_count_snapshot, Hq.
Qed.

(** X2 (SPSC [peek]).  After any operations on a fresh queue that make fewer
    than [2^64] pushes, both [peek] overloads report the oldest accepted
    value that has not been delivered, which is the value the next [pop]
    returns, and report "empty" when every accepted value has been
    delivered. *)
Theorem spsc_peek_oldest (ops : list op) (out : T) :
  Z.of_nat (length (push_items ops)) < U64.modulus ->
  let q := (run ops init).2 in
  let next := pushed (run ops init).1 !! length (popped (run ops init).1) in
  peek q = next /\
  peek_out out q = match next with Some v => (true, v) | None => (false, out) end /\
  (pop_impl q).1 = next.
Proof.
  intros Hcnt.
  destruct (unwrapped_run ops init [] unwrapped_init holds_init) as (items' & Hu & Hq & Heq).
  { simpl. lia. }
  simpl in Heq. cbv zeta. rewrite Heq.
  replace ((popped (run ops init).1 ++ items') !! length (popped (run ops init).1))
    with (head items').
  - apply unwrapped_peek; assumption.
  - rewrite lookup_app_r by lia. rewrite Nat.sub_diag. destruct items'; reflexivity.
Qed.

(** X3 (SPSC refusals).  After any operations on a fresh queue that make
    fewer than [2^64] pushes, [push] is refused exactly when [NumSlots]
    accepted values are waiting to be delivered, and [pop] reports "empty"
    exactly when none is waiting: neither fails for any other reason. *)
Theorem spsc_refusals_exact (ops : list op) (item : T) :
  Z.of_nat (length (push_items ops)) + 1 < U64.modulus ->
  let q := (run ops init).2 in
  let waiting :=
    (length (pushed (run ops init).1) - length (popped (run ops init).1))%nat in
  ((push_impl item q).1 = false <-> Z.of_nat waiting = NumSlots) /\
  ((pop_impl q).1 = None <-> waiting = 0%nat).
Proof.
  intros Hcnt.
  destruct (unwrapped_run ops init [] unwrapped_init holds_init) as (items' & Hu & Hq & Heq).
  { simpl. lia. }
  simpl in Heq. cbv zeta. rewrite Heq, length_app.
  replace (length (popped (run ops init).1) + length items' -
           length (popped (run ops init).1))%nat with (length items') by lia.
  split.
  - destruct (holds_push item _ items' Hq) as [[Hn Hp]|(Hn & q' & Hp & _)]; rewrite Hp; simpl.
    + split; auto.
    + split; [discriminate|lia].
  - pose proof (unwrapped_pop _ items' Hu Hq) as Hpop.
    destruct items' as [|v rest].
    + rewrite Hpop. simpl. split; auto.
    + destruct Hpop as (q' & -> & _). simpl. split; [discriminate|lia].
Qed.

(** The producer cursor advances by at most one per push. *)
Lemma head_bound_step o q :
  unwrapped q -> m_head q + Z.of_nat (length (push_items [o])) < U64.modulus ->
  unwrapped (step o q).2 /\
  m_head (step o q).2 <= m_head q + Z.of_nat (length (push_items [o])).
Proof.
  intros [Hle Hlt] Hc. unfold unwrapped.
  destruct o as [item| |out|this|this| |]; simpl in Hc |- *.
  - unfold push_impl. destruct (U64.sub (m_head q) (m_tail q) >=? NumSlots); simpl;
      rewrite ?U64.add_small by lia; lia.
  - unfold pop_impl. destruct (Z.geb_spec (m_tail q) (m_head q)); simpl;
      rewrite ?U64.add_small by lia; lia.
  - unfold try_pop_impl. destruct (Z.geb_spec (m_tail q) (m_head q)); simpl;
      rewrite ?U64.add_small by lia; lia.
  - unfold make_producer. destruct (m_producer_claimed q); simpl; lia.
  - unfold make_consumer. destruct (m_consumer_claimed q); simpl; lia.
  - lia.
  - lia.
Qed.

Lemma head_bound_run ops : forall q,
  unwrapped q -> m_head q + Z.of_nat (length (push_items ops)) < U64.modulus ->
  m_head (run ops q).2 <= m_head q + Z.of_nat (length (push_items ops)).
Proof.
  induction ops as [|o ops IH]; intros q Hu Hc; [simpl; lia|].
  change (o :: ops) with ([o] ++ ops) in Hc |- *.
  rewrite spsc_push_items_app, length_app, Nat2Z.inj_add in Hc |- *.
  destruct (head_bound_step o q Hu ltac:(lia)) as [Hu1 Hle1].
  specialize (IH _ Hu1 ltac:(lia)).
  rewrite spsc_run_app. cbn [snd].
  replace (run [o] q).2 with (step o q).2; [lia|].
  simpl. destruct (step o q). reflexivity.
Qed.

(** A burst of pushes that fits is accepted in full. *)
Lemma holds_push_all (vs : list T) : forall q items,
  unwrapped q -> holds q items ->
  Z.of_nat (length items) + Z.of_nat (length vs) <= NumSlots ->
  m_head q + Z.of_nat (length vs) < U64.modulus ->
  run (map Push vs) q =
    (map (fun v => EvPush v true) vs, (run (map Push vs) q).2) /\
  unwrapped (run (map Push vs) q).2 /\ holds (run (map Push vs) q).2 (items ++ vs).
Proof.
  induction vs as [|v vs IH]; intros q items Hu Hq Hfit Hcnt; simpl in *.
  - rewrite app_nil_r. auto.
  - destruct (unwrapped_push v q items Hu Hq ltac:(lia))
      as [[Hn _]|(_ & q' & Hp & Hq' & Hu' & Hh' & _)]; [lia|].
    rewrite Hp.
    destruct (IH q' (items ++ [v]) Hu' Hq') as (Hrun & Hu2 & Hq2).
    { rewrite length_app. simpl. lia. }
    { lia. }
    rewrite Hrun. simpl. rewrite <- app_assoc in Hq2. auto.
Qed.

(** Popping as often as there are values delivers them all, oldest
    first. *)
Lemma holds_pop_all (items : list T) : forall q,
  unwrapped q -> holds q items ->
  run (replicate (length items) Pop) q =
    (map (fun v => EvPop (Some v)) items, (run (replicate (length items) Pop) q).2) /\
  holds (run (replicate (length items) Pop) q).2 [].
Proof.
  induction items as [|v rest IH]; intros q Hu Hq; simpl.
  - auto.
  - destruct (unwrapped_pop q (v :: rest) Hu Hq) as (q' & Hp & Hq' & Hu' & _).
    rewrite Hp. destruct (IH q' Hu' Hq') as (Hrun & Hq2).
    rewrite Hrun. simpl. auto.
Qed.

(** X4 (SPSC burst round trip).  On a queue that is empty (fresh, or emptied
    by earlier operations), a burst of at most [NumSlots] pushes is accepted
    without exception, and as many pops then return exactly those values in
    the order pushed; fewer than [2^64] pushes are made in all. *)
Theorem spsc_burst_round_trip (pre : list op) (vs : list T) :
  let q := (run pre init).2 in
  m_head q = m_tail q ->
  Z.of_nat (length vs) <= NumSlots ->
  Z.of_nat (length (push_items pre)) + Z.of_nat (length vs) < U64.modulus ->
  (run (map Push vs ++ replicate (length vs) Pop) q).1 =
    map (fun v => EvPush v true) vs ++ map (fun v => EvPop (Some v)) vs.
Proof.
  intros q Hempty Hfit Hcnt. subst q.
  destruct (unwrapped_run pre init [] unwrapped_init holds_init) as (items & Hu & Hq & Heq).
  { simpl. lia. }
  assert (Hitems : items = []).
  { pose proof (unwrapped_holds_length _ _ Hu Hq) as Hlen.
    rewrite Hempty, Z.sub_diag in Hlen. destruct items; [reflexivity|simpl in Hlen; lia]. }
  subst items.
  pose proof (head_bound_run pre init unwrapped_init) as Hhead.
  simpl in Hhead. specialize (Hhead ltac:(lia)).
  rewrite spsc_run_app.
  destruct (holds_push_all vs _ [] Hu Hq) as (Hrun1 & Hu1 & Hq1); [simpl; lia|lia|].
  simpl in Hq1. destruct (holds_pop_all vs _ Hu1 Hq1) as (Hrun2 & _).
  rewrite Hrun1. cbn [fst snd]. rewrite Hrun2. reflexivity.
Qed.

(** *** The cursors at [2^64] *)

(** A burst of pushes that fits is accepted in full, wrapped or not. *)
Lemma holds_push_burst (v : T) (k : nat) : forall q items,
  holds q items ->
  Z.of_nat (length items) + Z.of_nat k <= NumSlots ->
  run (replicate k (Push v)) q =
    (replicate k (EvPush v true), (run (replicate k (Push v)) q).2) /\
  holds (run (replicate k (Push v)) q).2 (items ++ replicate k v).
Proof.
  induction k as [|k IH]; intros q items Hq Hfit; simpl.
  - rewrite app_nil_r. auto.
  - destruct (holds_push v q items Hq) as [[Hn _]|(_ & q' & Hp & Hq')]; [lia|].
    rewrite Hp. destruct (IH q' (items ++ [v]) Hq') as (Hrun & Hq2).
    { rewrite length_app. simpl. lia. }
    rewrite Hrun. simpl. rewrite <- app_assoc in Hq2. auto.
Qed.

(** Pushing and popping one value at a time, up to the last value of the
    cursor range. *)
Lemma holds_push_pop_rounds (v : T) (k : nat) : forall q,
  unwrapped q -> holds q [] -> m_head q + Z.of_nat k < U64.modulus ->
  run (concat (replicate k [Push v; Pop])) q =
    (concat (replicate k [EvPush v true; EvPop (Some v)]),
     (run (concat (replicate k [Push v; Pop])) q).2) /\
  holds (run (concat (replicate k [Push v; Pop])) q).2 [] /\
  m_tail (run (concat (replicate k [Push v; Pop])) q).2 = m_tail q + Z.of_nat k.
Proof.
  induction k as [|k IH]; intros q Hu Hq Hcnt.
  - simpl. split; [reflexivity|]. split; [assumption|lia].
  - cbn [replicate concat app run step].
    destruct (unwrapped_push v q [] Hu Hq ltac:(lia))
      as [[Hn _]|(_ & q1 & Hp & Hq1 & Hu1 & Hh1 & Ht1)]; [simpl in Hn; lia|].
    rewrite Hp. simpl in Hq1.
    destruct (unwrapped_pop q1 [v] Hu1 Hq1) as (q2 & Hp2 & Hq2 & Hu2 & Hh2 & Ht2).
    rewrite Hp2.
    destruct (IH q2 Hu2 Hq2 ltac:(lia)) as (Hrun & Hq3 & Ht3).
    rewrite Hrun. cbn [fst snd]. split; [reflexivity|]. split; [exact Hq3|]. lia.
Qed.

(** X5 (SPSC cursors at [2^64]).  The consumer compares the cursors as plain
    numbers.  Once the producer cursor has gone round ([2^64 - 1] values
    pushed and popped one by one, then [NumSlots] more pushed, all
    accepted), it is below the consumer cursor: [count_snapshot_impl]
    reports [NumSlots] values, [push] is refused as "full", and [pop],
    [try_pop] and [peek] report "empty".  Neither call changes the queue, so
    it stays that way. *)
Theorem spsc_stuck_after_wrap (v out : T) (n : nat) :
  Z.of_nat n = U64.modulus - 1 ->
  let r := run (concat (replicate n [Push v; Pop]) ++
                replicate (Z.to_nat NumSlots) (Push v)) init in
  Forall (fun e => succeeded e = true) r.1 /\
  count_snapshot_impl r.2 = NumSlots /\
  push_impl v r.2 = (false, r.2) /\
  pop_impl r.2 = (None, r.2) /\
  try_pop_impl out r.2 = (false, out, r.2) /\
  peek r.2 = None.
Proof.
  intros Hn r. subst r. rewrite spsc_run_app.
  destruct (holds_push_pop_rounds v n init unwrapped_init holds_init) as (Hrun1 & Hq1 & Ht1).
  { simpl. lia. }
  set (q1 := (run (concat (replicate n [Push v; Pop])) init).2) in *.
  destruct (holds_push_burst v (Z.to_nat NumSlots) q1 [] Hq1) as (Hrun2 & Hq2).
  { simpl. lia. }
  set (q2 := (run (replicate (Z.to_nat NumSlots) (Push v)) q1).2) in *.
  rewrite Hrun1, Hrun2. cbn [fst snd]. simpl in Hq2.
  assert (Htail : m_tail q2 = U64.modulus - 1).
  { assert (Hgen : forall k q, m_tail (run (replicate k (Push v)) q).2 = m_tail q).
    { induction k as [|k IH]; intros q; [reflexivity|]. simpl.
      destruct (push_impl v q) as [ok q'] eqn:Hp. specialize (IH q').
      destruct (run (replicate k (Push v)) q'). simpl in *. rewrite IH.
      unfold push_impl in Hp.
      destruct (U64.sub (m_head q) (m_tail q) >=? NumSlots); injection Hp as <- <-; reflexivity. }
    unfold q2. rewrite Hgen, Ht1. simpl. lia. }
  assert (Hhead : m_head q2 = NumSlots - 1).
  { rewrite (holds_head _ _ Hq2), Htail, length_replicate, Z2Nat.id by lia.
    unfold U64.add, U64.wrap.
    replace (U64.modulus - 1 + NumSlots) with ((NumSlots - 1) + 1 * U64.modulus) by lia.
    rewrite Z.mod_add by (unfold U64.modulus; lia).
    apply Z.mod_small. lia. }
  assert (Hpop : pop_impl q2 = (None, q2)) by (apply pop_impl_empty; lia).
  split; [|split; [|split; [|split; [|split]]]].
  - apply Forall_app. split.
    + clear. induction n as [|k IH]; simpl; [constructor|].
      constructor; [reflexivity|]. constructor; [reflexivity|exact IH].
    + apply Forall_forall. intros e He. apply elem_of_replicate in He as [-> _]. reflexivity.
  - rewrite (holds_count_snapshot _ _ Hq2), length_replicate. lia.
  - destruct (holds_push v q2 _ Hq2) as [[_ Hp]|[Hlt _]]; [exact Hp|].
    rewrite length_replicate in Hlt. lia.
  - exact Hpop.
  - rewrite spsc_try_pop_impl_pop_impl, Hpop. reflexivity.
  - unfold peek. destruct (Z.geb_spec (m_tail q2) (m_head q2)); [reflexivity|lia].
Qed.

(** *** The consumer role, and what a move assignment lets go of *)

(** X6 (consumer-claim exclusivity).  The consumer role is exclusive in the
    same way as the producer role.  In every world a program can reach and
    for every queue in it: at most one consumer handle points to the queue;
    [make_consumer] returns a handle (and sets the claim flag) when no
    consumer handle points to the queue, whether or not a producer handle
    does, and returns nothing, changing nothing, while one does; and once
    that handle is destroyed no handle points to the queue and
    [make_consumer] succeeds again. *)
Theorem consumer_claim_exclusive (w : World) (a : addr) (q : SPSCQueue) :
  reachable w ->
  w_queues w !! a = Some q ->
  (forall h1 h2, consumer_of w h1 = Some a -> consumer_of w h2 = Some a -> h1 = h2) /\
  ((forall h, consumer_of w h <> Some a) ->
   make_consumer a q = (Some (MkConsumer (Some a)), store_consumer_claimed true q)) /\
  ((exists h, consumer_of w h = Some a) -> make_consumer a q = (None, q)) /\
  (forall h, consumer_of w h = Some a ->
     exists w' q',
       wstep (WDestroyConsumer h) w = Some w' /\
       w_queues w' !! a = Some q' /\
       (forall h0, consumer_of w' h0 <> Some a) /\
       make_consumer a q' = (Some (MkConsumer (Some a)), store_consumer_claimed true q')).
Proof.
  intros Hreach Hq.
  pose proof (reachable_world_ok w Hreach) as Hw.
  destruct Hw as [Hp (H1 & H2 & H3)].
  assert (Hflag : consumer_claimed_at w a = Some (m_consumer_claimed q)).
  { unfold consumer_claimed_at. rewrite Hq. reflexivity. }
  split; [exact (fun h1 h2 => H2 h1 h2 a)|]. split; [|split].
  - intros Hnone. destruct (make_consumer_cases a q) as [[Hf _]|[_ Hm]]; [exfalso|exact Hm].
    rewrite Hf in Hflag. destruct (H3 a Hflag) as [h Hh]. exact (Hnone h Hh).
  - intros [h Hh]. destruct (make_consumer_cases a q) as [[_ Hm]|[Hf _]]; [exact Hm|exfalso].
    specialize (H1 h a Hh). rewrite Hflag, Hf in H1. discriminate.
  - intros h Hh. unfold consumer_of in Hh.
    destruct (w_consumers w !! h) as [c|] eqn:Hc; simpl in Hh; [|discriminate].
    eexists. exists (store_consumer_claimed false q).
    split; [simpl; rewrite Hc; reflexivity|].
    assert (Hq' : Consumer_dtor c (w_queues w) !! a = Some (store_consumer_claimed false q)).
    { unfold Consumer_dtor. rewrite Hh, lookup_alter_eq, Hq. reflexivity. }
    split; [exact Hq'|].
    assert (Hstep : wstep (WDestroyConsumer h) w =
                    Some (MkWorld (Consumer_dtor c (w_queues w)) (w_producers w)
                                  (delete h (w_consumers w)))).
    { simpl. rewrite Hc. reflexivity. }
    pose proof (world_ok_step _ _ _ (conj Hp (conj H1 (conj H2 H3))) Hstep) as [_ (K1 & _)].
    split; [|reflexivity].
    intros h0 Hh0. specialize (K1 h0 a Hh0).
    unfold consumer_claimed_at in K1. simpl in K1. rewrite Hq' in K1. discriminate.
Qed.

(** X7 (a move assignment releases).  A move assignment [h' = std::move(h)]
    between two distinct handles lets go of the role the destination [h']
    held: afterwards the claim flag of the queue [h'] pointed to is cleared,
    no handle points to that queue's role any more, and the factory call on
    it succeeds again.  This holds for producer and for consumer handles, in
    every reachable world. *)
Theorem assign_releases_destination (w w' : World) (h h' : hid) (a' : addr) :
  reachable w -> h' <> h ->
  (wstep (WAssignProducer h' h) w = Some w' ->
   producer_of w h' = Some a' ->
   producer_claimed_at w' a' = Some false /\
   (forall h0, producer_of w' h0 <> Some a') /\
   exists q', w_queues w' !! a' = Some q' /\
     make_producer a' q' = (Some (MkProducer (Some a')), store_producer_claimed true q')) /\
  (wstep (WAssignConsumer h' h) w = Some w' ->
   consumer_of w h' = Some a' ->
   consumer_claimed_at w' a' = Some false /\
   (forall h0, consumer_of w' h0 <> Some a') /\
   exists q', w_queues w' !! a' = Some q' /\
     make_consumer a' q' = (Some (MkConsumer (Some a')), store_consumer_claimed true q')).
Proof.
  intros Hreach Hne. pose proof (reachable_world_ok w Hreach) as Hw. split.
  - intros Hstep Hown.
    pose proof (world_ok_step _ _ _ Hw Hstep) as [(K1 & _) _].
    destruct Hw as [(H1 & _) _].
    pose proof (H1 h' a' Hown) as Hflag.
    simpl in Hstep. unfold producer_of in Hown.
    destruct (w_producers w !! h') as [p'|] eqn:Hp'; simpl in Hstep, Hown; [|discriminate].
    destruct (w_producers w !! h) as [p|] eqn:Hp; simpl in Hstep; [|discriminate].
    rewrite decide_False in Hstep by assumption. injection Hstep as <-.
    unfold producer_claimed_at in Hflag.
    destruct (w_queues w !! a') as [q|] eqn:Hq; simpl in Hflag; [|discriminate].
    assert (Hq' : (match producer_m_queue p' with
                   | Some a => alter (store_producer_claimed false) a (w_queues w)
                   | None => w_queues w
                   end) !! a' = Some (store_producer_claimed false q)).
    { rewrite Hown, lookup_alter_eq, Hq. reflexivity. }
    assert (Hcl : producer_claimed_at
                    (MkWorld (match producer_m_queue p' with
                              | Some a => alter (store_producer_claimed false) a (w_queues w)
                              | None => w_queues w
                              end)
                       (<[h' := MkProducer (producer_m_queue p)]>
                          (<[h := MkProducer None]> (w_producers w)))
                       (w_consumers w)) a' = Some false).
    { unfold producer_claimed_at. cbn [w_queues]. rewrite Hq'. reflexivity. }
    split; [exact Hcl|]. split.
    + intros h0 Hh0. specialize (K1 h0 a' Hh0). rewrite Hcl in K1. discriminate.
    + exists (store_producer_claimed false q). split; [exact Hq'|reflexivity].
  - intros Hstep Hown.
    pose proof (world_ok_step _ _ _ Hw Hstep) as [_ (K1 & _)].
    destruct Hw as [_ (H1 & _)].
    pose proof (H1 h' a' Hown) as Hflag.
    simpl in Hstep. unfold consumer_of in Hown.
    destruct (w_consumers w !! h') as [c'|] eqn:Hc'; simpl in Hstep, Hown; [|discriminate].
    destruct (w_consumers w !! h) as [c|] eqn:Hc; simpl in Hstep; [|discriminate].
    rewrite decide_False in Hstep by assumption. injection Hstep as <-.
    unfold consumer_claimed_at in Hflag.
    destruct (w_queues w !! a') as [q|] eqn:Hq; simpl in Hflag; [|discriminate].
    assert (Hq' : (match consumer_m_queue c' with
                   | Some a => alter (store_consumer_claimed false) a (w_queues w)
                   | None => w_queues w
                   end) !! a' = Some (store_consumer_claimed false q)).
    { rewrite Hown, lookup_alter_eq, Hq. reflexivity. }
    assert (Hcl : consumer_claimed_at
                    (MkWorld (match consumer_m_queue c' with
                              | Some a => alter (store_consumer_claimed false) a (w_queues w)
                              | None => w_queues w
                              end)
                       (w_producers w)
                       (<[h' := MkConsumer (consumer_m_queue c)]>
                          (<[h := MkConsumer None]> (w_consumers w)))) a' = Some false).
    { unfold consumer_claimed_at. cbn [w_queues]. rewrite Hq'. reflexivity. }
    split; [exact Hcl|]. split.
    + intros h0 Hh0. specialize (K1 h0 a' Hh0). rewrite Hcl in K1. discriminate.
    + exists (store_consumer_claimed false q). split; [exact Hq'|reflexivity].
Qed.

(** X8 (the public constructor goes past the claim).  [Producer(SPSCQueue&)]
    is public and does not touch the claim flag.  In any reachable world, a
    producer handle [h1] constructed directly on the queue at [a] leaves the
    flag as it was.  If no producer handle pointed to the queue,
    [make_producer] still succeeds afterwards, and two live producer handles
    point to the same queue.  If a handle [h] held the role, the destructor
    of [h1] clears the flag while [h] is still alive. *)
Theorem producer_ctor_bypasses_claim (w : World) (a : addr) (q : SPSCQueue) (h1 h2 : hid) :
  reachable w -> w_queues w !! a = Some q ->
  h1 <> h2 -> w_producers w !! h1 = None -> w_producers w !! h2 = None ->
  let w1 := MkWorld (w_queues w) (<[h1 := Producer_ctor a]> (w_producers w))
                    (w_consumers w) in
  producer_of w1 h1 = Some a /\
  producer_claimed_at w1 a = producer_claimed_at w a /\
  ((forall h, producer_of w h <> Some a) ->
   exists w2,
     wstep (WMakeProducer a h2) w1 = Some w2 /\
     producer_of w2 h1 = Some a /\ producer_of w2 h2 = Some a) /\
  (forall h, producer_of w h = Some a ->
   exists w2,
     wstep (WDestroyProducer h1) w1 = Some w2 /\
     producer_of w2 h = Some a /\ producer_claimed_at w2 a = Some false).
Proof.
  intros Hreach Hq Hne Hh1 Hh2 w1.
  pose proof (reachable_world_ok w Hreach) as [(H1 & H2 & H3) _].
  assert (Hown1 : producer_of w1 h1 = Some a).
  { unfold producer_of, w1; simpl. rewrite lookup_insert_eq. reflexivity. }
  split; [exact Hown1|]. split; [reflexivity|]. split.
  - intros Hnone.
    assert (Hflag : m_producer_claimed q = false).
    { destruct (m_producer_claimed q) eqn:Hf; [exfalso|reflexivity].
      destruct (H3 a) as [h Hh]; [|exact (Hnone h Hh)].
      unfold producer_claimed_at. rewrite Hq. simpl. rewrite Hf. reflexivity. }
    eexists. split.
    + simpl. rewrite lookup_insert_ne by assumption.
      rewrite decide_True by assumption. rewrite Hq. simpl.
      unfold make_producer. rewrite Hflag. reflexivity.
    + split; unfold producer_of; simpl.
      * rewrite lookup_insert_ne, lookup_insert_eq by congruence. reflexivity.
      * rewrite lookup_insert_eq. reflexivity.
  - intros h Hh.
    assert (Hhne : h <> h1).
    { intros ->. unfold producer_of in Hh. rewrite Hh1 in Hh. discriminate. }
    eexists. split.
    + simpl. rewrite lookup_insert_eq. simpl. reflexivity.
    + split.
      * unfold producer_of; simpl.
        rewrite lookup_delete_ne, lookup_insert_ne by congruence. exact Hh.
      * unfold producer_claimed_at, Producer_dtor, Producer_ctor; simpl.
        rewrite lookup_alter_eq, Hq. reflexivity.
Qed.

End queue.

End SPSC.

(** ** The single-producer / multiple-consumer broadcast queue
       (src/msg/spmc_queue.h) *)

Module SPMC.

(** [enum class SlotState : uint8_t] *)
Inductive SlotState : Type := Free | Initializing | Active.

(** [struct ConsumerSlot] *)
Record ConsumerSlot : Type := MkSlot { state : SlotState; tail : Z }.

#[global] Instance SlotState_eq_dec : EqDecision SlotState.
Proof. solve_decision. Defined.

#[global] Instance ConsumerSlot_inhabited : Inhabited ConsumerSlot :=
  populate (MkSlot Free 0).

(** [class Consumer]: [SPMCQueue* m_queue] and [std::size_t m_slot_idx]. *)
Record Consumer : Type := MkConsumer {
  consumer_m_queue : option addr;
  consumer_m_slot_idx : nat
}.

(** [class Producer]: its only member is [SPMCQueue* m_queue]. *)
Record Producer : Type := MkProducer { producer_m_queue : option addr }.

Section queue.

Context {T : Type} `{!Inhabited T}.
Variable NumSlots : Z.
Variable MaxConsumers : nat.

(** [static constexpr std::size_t mask = NumSlots - 1] *)
Definition mask : Z := NumSlots - 1.

(** [to_index(i) = static_cast<std::size_t>(i) & mask] *)
Definition to_index (i : Z) : nat := Z.to_nat (Z.land i mask).

(** The data members of [SPMCQueue]. *)
Record SPMCQueue : Type := MkQueue {
  m_buffer : list T;
  m_head : Z;
  m_slots : list ConsumerSlot;
  m_producer_claimed : bool
}.

(** [SPMCQueue() = default] with the default member initialisers;
    [inhabitant] is the value-initialised element [T{}] of [m_buffer{}]. *)
Definition init : SPMCQueue :=
  {| m_buffer := replicate (Z.to_nat NumSlots) inhabitant;
     m_head := 0;
     m_slots := replicate MaxConsumers (MkSlot Free 0);
     m_producer_claimed := false |}.

(** Stores to single members. *)
Definition store_buffer (i : nat) (item : T) (q : SPMCQueue) : SPMCQueue :=
  MkQueue (<[i := item]> (m_buffer q)) (m_head q) (m_slots q) (m_producer_claimed q).

Definition store_head (v : Z) (q : SPMCQueue) : SPMCQueue :=
  MkQueue (m_buffer q) v (m_slots q) (m_producer_claimed q).

(** [m_slots[idx].tail.store(v)] *)
Definition store_tail (idx : nat) (v : Z) (q : SPMCQueue) : SPMCQueue :=
  MkQueue (m_buffer q) (m_head q)
          (alter (fun s => MkSlot (state s) v) idx (m_slots q))
          (m_producer_claimed q).

(** [m_slots[idx].state.store(st)] *)
Definition store_state (idx : nat) (st : SlotState) (q : SPMCQueue) : SPMCQueue :=
  MkQueue (m_buffer q) (m_head q)
          (alter (fun s => MkSlot st (tail s)) idx (m_slots q))
          (m_producer_claimed q).

Definition store_producer_claimed (b : bool) (q : SPMCQueue) : SPMCQueue :=
  MkQueue (m_buffer q) (m_head q) (m_slots q) b.

(** One iteration of the loop of [min_tail_snapshot] on the pair
    [(min_tail, any)]. *)
Definition min_tail_visit (acc : Z * bool) (slot : ConsumerSlot) : Z * bool :=
  let '(min_tail, any) := acc in
  if decide (state slot = Active) then
    let t := tail slot in
    (if t <? min_tail then t else min_tail, true)
  else (min_tail, any).

(** [min_tail_snapshot(head)] *)
Definition min_tail_snapshot (head : Z) (q : SPMCQueue) : Z :=
  let '(min_tail, any) := foldl min_tail_visit (head, false) (m_slots q) in
  if any then min_tail else head.

(** [push_impl(const T&)] and [push_impl(T&&)] *)
Definition push_impl (item : T) (q : SPMCQueue) : bool * SPMCQueue :=
  let head := m_head q in
  let min_tail := min_tail_snapshot head q in
  if U64.sub head min_tail >=? NumSlots then (false, q)
  else (true, store_head (U64.add head 1) (store_buffer (to_index head) item q)).

(** [pop_impl(idx)].  [None] stands for the undefined behaviour of
    [m_slots[idx]] with [idx] outside the array. *)
Definition pop_impl (idx : nat) (q : SPMCQueue) : option (option T * SPMCQueue) :=
  slot ← m_slots q !! idx;
  let head := m_head q in
  let tail := tail slot in
  if tail >=? head then Some (None, q)
  else
    let out := m_buffer q !!! to_index tail in
    Some (Some out, store_tail idx (U64.add tail 1) q).

(** [try_pop_impl(out, idx)] *)
Definition try_pop_impl (out : T) (idx : nat) (q : SPMCQueue)
  : option (bool * T * SPMCQueue) :=
  slot ← m_slots q !! idx;
  let head := m_head q in
  let tail := tail slot in
  if tail >=? head then Some (false, out, q)
  else
    let out' := m_buffer q !!! to_index tail in
    Some (true, out', store_tail idx (U64.add tail 1) q).

(** [peek(idx)] *)
Definition peek (idx : nat) (q : SPMCQueue) : option (option T) :=
  slot ← m_slots q !! idx;
  let head := m_head q in
  let tail := tail slot in
  if tail >=? head then Some None else Some (Some (m_buffer q !!! to_index tail)).

(** [peek(out, idx)] *)
Definition peek_out (out : T) (idx : nat) (q : SPMCQueue) : option (bool * T) :=
  slot ← m_slots q !! idx;
  let head := m_head q in
  let tail := tail slot in
  if tail >=? head then Some (false, out)
  else Some (true, m_buffer q !!! to_index tail).

(** [count_snapshot_impl(idx)], the consumer's view. *)
Definition count_snapshot_impl_idx (idx : nat) (q : SPMCQueue) : option Z :=
  slot ← m_slots q !! idx;
  let head := m_head q in
  let tail := tail slot in
  let diff := U64.sub head tail in
  Some (if diff >? NumSlots then NumSlots else diff).

(** [count_snapshot_impl()], the producer's view. *)
Definition count_snapshot_impl (q : SPMCQueue) : Z :=
  let head := m_head q in
  let min_tail := min_tail_snapshot head q in
  let diff := U64.sub head min_tail in
  if diff >? NumSlots then NumSlots else diff.

(** [make_producer()] *)
Definition make_producer (this : addr) (q : SPMCQueue) : option Producer * SPMCQueue :=
  if m_producer_claimed q then (None, q)
  else (Some (MkProducer (Some this)), store_producer_claimed true q).

(** The loop of [make_consumer()] over the remaining indices [idxs]: the
    compare-exchange on slot [i] succeeds exactly when its state is
    [Free].  Every index visited is below [MaxConsumers], the size of the
    array. *)
Fixpoint make_consumer_scan (this : addr) (head : Z) (idxs : list nat) (q : SPMCQueue)
  : option Consumer * SPMCQueue :=
  match idxs with
  | [] => (None, q)
  | i :: idxs' =>
      if decide (state (m_slots q !!! i) = Free) then
        let q1 := store_state i Initializing q in
        let q2 := store_tail i head q1 in
        let q3 := store_state i Active q2 in
        (Some (MkConsumer (Some this) i), q3)
      else make_consumer_scan this head idxs' q
  end.

(** [make_consumer()] *)
Definition make_consumer (this : addr) (q : SPMCQueue) : option Consumer * SPMCQueue :=
  let head := m_head q in
  make_consumer_scan this head (seq 0 MaxConsumers) q.

(** *** Handles on a store of queue objects *)

(** [~Consumer()].  [None] stands for undefined behaviour: a pointer to a
    queue that no longer exists or a slot index outside the array. *)
Definition Consumer_dtor (self : Consumer) (σ : gmap addr SPMCQueue)
  : option (gmap addr SPMCQueue) :=
  match consumer_m_queue self with
  | Some a =>
      q ← σ !! a;
      _ ← m_slots q !! consumer_m_slot_idx self;
      let q1 := store_tail (consumer_m_slot_idx self) 0 q in
      let q2 := store_state (consumer_m_slot_idx self) Free q1 in
      Some (<[a := q2]> σ)
  | None => Some σ
  end.

(** [Consumer() = default] *)
Definition Consumer_default : Consumer := MkConsumer None 0.

(** [Consumer(Consumer&& other)]: the new object and [other] afterwards. *)
Definition Consumer_move_ctor (other : Consumer) : Consumer * Consumer :=
  (MkConsumer (consumer_m_queue other) (consumer_m_slot_idx other),
   MkConsumer None (consumer_m_slot_idx other)).

(** [Consumer::operator=(Consumer&& other)] on two distinct objects
    ([this != &other]): [*this] and [other] afterwards, and the store. *)
Definition Consumer_move_assign (self other : Consumer) (σ : gmap addr SPMCQueue)
  : option (Consumer * Consumer * gmap addr SPMCQueue) :=
  σ' ← match consumer_m_queue self with
       | Some a =>
           q ← σ !! a;
           _ ← m_slots q !! consumer_m_slot_idx self;
           Some (<[a := store_state (consumer_m_slot_idx self) Free q]> σ)
       | None => Some σ
       end;
  Some (MkConsumer (consumer_m_queue other) (consumer_m_slot_idx other),
        MkConsumer None (consumer_m_slot_idx other),
        σ').

(** [Consumer::pop]: [None] also covers the failed assertion on a null
    [m_queue]. *)
Definition Consumer_pop (self : Consumer) (σ : gmap addr SPMCQueue)
  : option (option T * gmap addr SPMCQueue) :=
  a ← consumer_m_queue self;
  q ← σ !! a;
  '(r, q') ← pop_impl (consumer_m_slot_idx self) q;
  Some (r, <[a := q']> σ).

(** [Consumer::try_pop] *)
Definition Consumer_try_pop (self : Consumer) (out : T) (σ : gmap addr SPMCQueue)
  : option (bool * T * gmap addr SPMCQueue) :=
  a ← consumer_m_queue self;
  q ← σ !! a;
  '(ok, out', q') ← try_pop_impl out (consumer_m_slot_idx self) q;
  Some (ok, out', <[a := q']> σ).

(** [Consumer::count_snapshot] and [Producer::count_snapshot] *)
Definition Consumer_count_snapshot (self : Consumer) (σ : gmap addr SPMCQueue) : option Z :=
  a ← consumer_m_queue self;
  q ← σ !! a;
  count_snapshot_impl_idx (consumer_m_slot_idx self) q.

Definition Producer_count_snapshot (self : Producer) (σ : gmap addr SPMCQueue) : option Z :=
  a ← producer_m_queue self;
  q ← σ !! a;
  Some (count_snapshot_impl q).

(** [Producer::push] *)
Definition Producer_push (self : Producer) (item : T) (σ : gmap addr SPMCQueue)
  : option (bool * gmap addr SPMCQueue) :=
  a ← producer_m_queue self;
  q ← σ !! a;
  let '(ok, q') := push_impl item q in
  Some (ok, <[a := q']> σ).

(** *** Sequences of operations on one queue object

    The effect on one queue of the operations its handles offer.
    [DropConsumer idx] is the destructor of a consumer handle that points
    to the queue with [m_slot_idx = idx]; [AssignOverConsumer idx] is a
    move assignment onto such a handle; [DropProducer] is the destructor
    of (or a move assignment onto) the producer handle pointing to the
    queue.  A step is [None] on undefined behaviour. *)
Inductive op : Type :=
| Push (item : T)
| Pop (idx : nat)
| TryPop (idx : nat) (out : T)
| MakeConsumer (this : addr)
| DropConsumer (idx : nat)
| AssignOverConsumer (idx : nat)
| MakeProducer (this : addr)
| DropProducer.

(** What the caller observes of each operation. *)
Inductive event : Type :=
| EvPush (item : T) (ok : bool)
| EvPop (idx : nat) (r : option T)
| EvTryPop (idx : nat) (ok : bool) (out : T)
| EvMakeConsumer (r : option Consumer)
| EvMakeProducer (r : option Producer)
| EvDrop.

Definition step (o : op) (q : SPMCQueue) : option (event * SPMCQueue) :=
  match o with
  | Push item => let '(ok, q') := push_impl item q in Some (EvPush item ok, q')
  | Pop idx => '(r, q') ← pop_impl idx q; Some (EvPop idx r, q')
  | TryPop idx out =>
      '(ok, out', q') ← try_pop_impl out idx q; Some (EvTryPop idx ok out', q')
  | MakeConsumer this =>
      let '(r, q') := make_consumer this q in Some (EvMakeConsumer r, q')
  | DropConsumer idx =>
      _ ← m_slots q !! idx;
      Some (EvDrop, store_state idx Free (store_tail idx 0 q))
  | AssignOverConsumer idx =>
      _ ← m_slots q !! idx;
      Some (EvDrop, store_state idx Free q)
  | MakeProducer this =>
      let '(r, q') := make_producer this q in Some (EvMakeProducer r, q')
  | DropProducer => Some (EvDrop, store_producer_claimed false q)
  end.

Fixpoint run (ops : list op) (q : SPMCQueue) : option (list event * SPMCQueue) :=
  match ops with
  | [] => Some ([], q)
  | o :: ops' =>
      '(e, q') ← step o q;
      '(es, q'') ← run ops' q';
      Some (e :: es, q'')
  end.

(** The number of [push] calls. *)
Fixpoint push_count (ops : list op) : nat :=
  match ops with
  | [] => 0%nat
  | Push _ :: ops' => S (push_count ops')
  | _ :: ops' => push_count ops'
  end.

(** The values accepted by successful pushes, in order. *)
Fixpoint pushed (es : list event) : list T :=
  match es with
  | [] => []
  | EvPush item true :: es' => item :: pushed es'
  | _ :: es' => pushed es'
  end.

(** The values delivered to the consumer on slot [i], in order. *)
Fixpoint popped (i : nat) (es : list event) : list T :=
  match es with
  | [] => []
  | EvPop idx (Some v) :: es' =>
      if decide (idx = i) then v :: popped i es' else popped i es'
  | EvTryPop idx true v :: es' =>
      if decide (idx = i) then v :: popped i es' else popped i es'
  | _ :: es' => popped i es'
  end.

(** Does the operation act through the consumer handle on slot [i]? *)
Definition uses_slot (i : nat) (o : op) : bool :=
  match o with
  | Pop idx | TryPop idx _ | DropConsumer idx | AssignOverConsumer idx =>
      bool_decide (idx = i)
  | _ => false
  end.

(** Does the operation end the life of the consumer on slot [i]? *)
Definition detaches (i : nat) (o : op) : bool :=
  match o with
  | DropConsumer idx | AssignOverConsumer idx => bool_decide (idx = i)
  | _ => false
  end.

(** *** Queue objects and consumer handle objects together

    A world is a store of queue objects together with the consumer handle
    objects alive at the moment, each under a name.  The producer handle
    of this queue is the same code as the one of [SPSCQueue]; here a push
    is addressed to the queue directly. *)
Record World : Type := MkWorld {
  w_queues : gmap addr SPMCQueue;
  w_consumers : gmap hid Consumer
}.

(** The statements a program can execute.  [WMakeConsumer a h] is
    [auto h = queue_a.make_consumer()], [WDefaultConsumer h] is
    [Consumer h;], [WMoveConsumer h' h] is [Consumer h'(std::move(h))],
    [WAssignConsumer h' h] is [h' = std::move(h)], [WDestroyConsumer h]
    ends the lifetime of [h]. *)
Inductive wop : Type :=
| WMakeConsumer (a : addr) (h : hid)
| WDefaultConsumer (h : hid)
| WDestroyConsumer (h : hid)
| WMoveConsumer (h' h : hid)
| WAssignConsumer (h' h : hid)
| WPush (a : addr) (item : T)
| WPop (h : hid)
| WTryPop (h : hid) (out : T).

(** One statement.  [None]: the statement is not executable (a name that
    is not alive, a new name that is already in use, no queue at the
    address), runs into the assertion on a null [m_queue], or has
    undefined behaviour. *)
Definition wstep (o : wop) (w : World) : option World :=
  match o with
  | WMakeConsumer a h =>
      if decide (w_consumers w !! h = None) then
        q ← w_queues w !! a;
        match make_consumer a q with
        | (Some c, q') =>
            Some (MkWorld (<[a := q']> (w_queues w)) (<[h := c]> (w_consumers w)))
        | (None, q') =>
            Some (MkWorld (<[a := q']> (w_queues w)) (w_consumers w))
        end
      else None
  | WDefaultConsumer h =>
      if decide (w_consumers w !! h = None) then
        Some (MkWorld (w_queues w) (<[h := Consumer_default]> (w_consumers w)))
      else None
  | WDestroyConsumer h =>
      c ← w_consumers w !! h;
      σ' ← Consumer_dtor c (w_queues w);
      Some (MkWorld σ' (delete h (w_consumers w)))
  | WMoveConsumer h' h =>
      if decide (w_consumers w !! h' = None) then
        c ← w_consumers w !! h;
        let '(cnew, cold) := Consumer_move_ctor c in
        Some (MkWorld (w_queues w) (<[h' := cnew]> (<[h := cold]> (w_consumers w))))
      else None
  | WAssignConsumer h' h =>
      c' ← w_consumers w !! h';
      c ← w_consumers w !! h;
      if decide (h' = h) then Some w
      else
        '(c1, c2, σ') ← Consumer_move_assign c' c (w_queues w);
        Some (MkWorld σ' (<[h' := c1]> (<[h := c2]> (w_consumers w))))
  | WPush a item =>
      q ← w_queues w !! a;
      let '(_, q') := push_impl item q in
      Some (MkWorld (<[a := q']> (w_queues w)) (w_consumers w))
  | WPop h =>
      c ← w_consumers w !! h;
      '(_, σ') ← Consumer_pop c (w_queues w);
      Some (MkWorld σ' (w_consumers w))
  | WTryPop h out =>
      c ← w_consumers w !! h;
      '(_, _, σ') ← Consumer_try_pop c out (w_queues w);
      Some (MkWorld σ' (w_consumers w))
  end.

(** The worlds a program can bring about: it starts with freshly
    constructed queues and no handle. *)
Inductive reachable : World -> Prop :=
| reachable_init (σ : gmap addr SPMCQueue) :
    (forall a q, σ !! a = Some q -> q = init) ->
    reachable (MkWorld σ ∅)
| reachable_step (w w' : World) (o : wop) :
    reachable w -> wstep o w = Some w' -> reachable w'.

(** The queue and slot the consumer handle [h] points to. *)
Definition slot_of (w : World) (h : hid) : option (addr * nat) :=
  c ← w_consumers w !! h;
  a ← consumer_m_queue c;
  Some (a, consumer_m_slot_idx c).

(** Is slot [j] of a queue [Active]?  [None] outside the array. *)
Definition active (q : SPMCQueue) (j : nat) : option bool :=
  (fun s => bool_decide (state s = Active)) <$> m_slots q !! j.

(** The same for the queue at an address. *)
Definition active_at (w : World) (r : addr * nat) : option bool :=
  q ← w_queues w !! r.1; active q r.2.

(** A program: one statement after the other. *)
Fixpoint wrun (ops : list wop) (w : World) : option World :=
  match ops with
  | [] => Some w
  | o :: ops' => w' ← wstep o w; wrun ops' w'
  end.

(** *** Properties of the queue operations *)

(** The [static_assert]s of the class template, and the range of
    [std::size_t]. *)
Hypothesis NumSlots_pos : 0 < NumSlots.
Hypothesis NumSlots_pow2 : Z.land NumSlots (NumSlots - 1) = 0.
Hypothesis NumSlots_size_t : NumSlots < U64.modulus.

(** The arrays have their declared sizes. *)
Definition wf (q : SPMCQueue) : Prop :=
  length (m_buffer q) = Z.to_nat NumSlots /\ length (m_slots q) = MaxConsumers.

(** [records q hist]: [hist] lists every value accepted so far, the
    producer cursor counts them without having wrapped, the ring still
    stores the last [NumSlots] of them, and every [Active] consumer cursor
    lies at most [NumSlots] behind the producer cursor. *)
Definition records (q : SPMCQueue) (hist : list T) : Prop :=
  wf q /\
  m_head q = Z.of_nat (length hist) /\
  Z.of_nat (length hist) < U64.modulus /\
  (forall (c : nat) (v : T),
      hist !! c = Some v ->
      Z.of_nat (length hist) - NumSlots <= Z.of_nat c ->
      m_buffer q !! to_index (Z.of_nat c) = Some v) /\
  (forall (i : nat) (s : ConsumerSlot),
      m_slots q !! i = Some s -> state s = Active ->
      0 <= tail s /\ m_head q - NumSlots <= tail s <= m_head q).

Lemma spmc_to_index_mod i : to_index i = Z.to_nat (i mod NumSlots).
Proof. unfold to_index, mask. rewrite land_mask_mod by assumption. reflexivity. Qed.

Lemma spmc_to_index_lt i : (to_index i < Z.to_nat NumSlots)%nat.
Proof.
  rewrite spmc_to_index_mod.
  pose proof (Z.mod_pos_bound i NumSlots NumSlots_pos). lia.
Qed.

Lemma spmc_to_index_apart (c d : Z) :
  c < d < c + NumSlots -> to_index c <> to_index d.
Proof.
  intros Hcd Heq. rewrite !spmc_to_index_mod in Heq.
  apply Z2Nat.inj in Heq; try (apply Z.mod_pos_bound; assumption).
  replace d with (c + (d - c)) in Heq by lia.
  symmetry in Heq. revert Heq. apply mod_NumSlots_apart; [assumption|lia].
Qed.

Lemma NumSlots_succ_lt_modulus : NumSlots + 1 < U64.modulus.
Proof.
  destruct (NumSlots_is_pow2 NumSlots NumSlots_pos NumSlots_pow2 NumSlots_size_t)
    as (k & [Hk0 Hk] & Heq).
  assert (2 ^ k <= 2 ^ 63) by (apply Z.pow_le_mono_r; lia).
  unfold U64.modulus. lia.
Qed.

(** The loop of [min_tail_snapshot]: the running minimum never rises, is
    below every [Active] cursor seen, and is the start value or one of
    those cursors; the flag stays [false] only if no slot was [Active]. *)
Lemma min_tail_visit_spec (m0 : Z) (any0 : bool) (s : ConsumerSlot) :
  let r := min_tail_visit (m0, any0) s in
  r.1 <= m0 /\
  (state s = Active -> r.1 <= tail s /\ r.2 = true) /\
  (r.1 = m0 \/ (state s = Active /\ r.1 = tail s)) /\
  (state s <> Active -> r = (m0, any0)).
Proof.
  unfold min_tail_visit. destruct (decide (state s = Active)) as [Hact|Hact]; simpl.
  - destruct (Z.ltb_spec (tail s) m0); intuition lia.
  - intuition lia.
Qed.

Lemma min_tail_visit_foldl (slots : list ConsumerSlot) : forall (m0 : Z) (any0 : bool),
  let r := foldl min_tail_visit (m0, any0) slots in
  r.1 <= m0 /\
  (forall i s, slots !! i = Some s -> state s = Active -> r.1 <= tail s) /\
  (r.1 = m0 \/ exists i s, slots !! i = Some s /\ state s = Active /\ r.1 = tail s) /\
  (r.2 = false -> r.1 = m0 /\ any0 = false).
Proof.
  induction slots as [|s slots IH]; intros m0 any0; cbn [foldl]; cbv zeta.
  - cbn [fst snd]. repeat split; try lia; auto.
    intros i s Hi. rewrite lookup_nil in Hi. discriminate.
  - pose proof (min_tail_visit_spec m0 any0 s) as Hv. cbv zeta in Hv.
    destruct (min_tail_visit (m0, any0) s) as [m1 any1]. cbn [fst snd] in Hv.
    destruct Hv as (V1 & V2 & V3 & V4).
    destruct (IH m1 any1) as (H1 & H2 & H3 & H4).
    split; [lia|]. split; [|split].
    + intros [|i] s' Hi Hs'; simpl in Hi; [|eauto].
      injection Hi as <-. destruct (V2 Hs'). lia.
    + destruct H3 as [H3|(i & s' & Hi & Hs' & H3)].
      * destruct V3 as [V3|[V3 V3']]; [left; lia|].
        right. exists 0%nat, s. repeat split; auto. lia.
      * right. exists (S i), s'. auto.
    + intros Hr. destruct (H4 Hr) as [-> ->].
      destruct (decide (state s = Active)) as [Hact|Hact].
      * destruct (V2 Hact). discriminate.
      * specialize (V4 Hact). injection V4 as -> ->. auto.
Qed.

(** [min_tail_snapshot head] is the least of [head] and the cursors of the
    [Active] slots. *)
Lemma min_tail_snapshot_spec head q :
  let m := min_tail_snapshot head q in
  m <= head /\
  (forall i s, m_slots q !! i = Some s -> state s = Active -> m <= tail s) /\
  (m = head \/ exists i s, m_slots q !! i = Some s /\ state s = Active /\ m = tail s).
Proof.
  unfold min_tail_snapshot.
  pose proof (min_tail_visit_foldl (m_slots q) head false) as H. cbv zeta in H.
  destruct (foldl min_tail_visit (head, false) (m_slots q)) as [m any]. cbn [fst snd] in H.
  destruct H as (H1 & H2 & H3 & H4).
  destruct any; [auto|].
  destruct (H4 eq_refl) as [-> _]. auto.
Qed.

(** Only the slot table matters to [min_tail_snapshot]. *)
Lemma min_tail_snapshot_slots head q q' :
  m_slots q = m_slots q' -> min_tail_snapshot head q = min_tail_snapshot head q'.
Proof. unfold min_tail_snapshot. intros ->. reflexivity. Qed.

Lemma spmc_push_impl_full item q :
  U64.sub (m_head q) (min_tail_snapshot (m_head q) q) >= NumSlots ->
  push_impl item q = (false, q).
Proof.
  intros Hfull. unfold push_impl.
  destruct (Z.geb_spec (U64.sub (m_head q) (min_tail_snapshot (m_head q) q)) NumSlots);
    [reflexivity|lia].
Qed.

Lemma spmc_push_impl_room item q :
  U64.sub (m_head q) (min_tail_snapshot (m_head q) q) < NumSlots ->
  push_impl item q =
    (true, store_head (U64.add (m_head q) 1) (store_buffer (to_index (m_head q)) item q)).
Proof.
  intros Hroom. unfold push_impl.
  destruct (Z.geb_spec (U64.sub (m_head q) (min_tail_snapshot (m_head q) q)) NumSlots);
    [lia|reflexivity].
Qed.

(** [push_impl] reports "full" exactly when the wrapped distance from the
    least active cursor reaches [NumSlots]. *)
Lemma spmc_push_impl_full_iff item q :
  (push_impl item q).1 = false <->
  U64.sub (m_head q) (min_tail_snapshot (m_head q) q) >= NumSlots.
Proof.
  unfold push_impl.
  destruct (Z.geb_spec (U64.sub (m_head q) (min_tail_snapshot (m_head q) q)) NumSlots);
    simpl; split; intros; try lia; try reflexivity; discriminate.
Qed.

Lemma records_wf q hist : records q hist -> wf q.
Proof. intros [H _]. exact H. Qed.

Lemma records_init : records init [].
Proof.
  unfold records, wf, init; simpl. rewrite !length_replicate.
  repeat split; try reflexivity.
  - intros c v Hc. rewrite lookup_nil in Hc. discriminate.
  - apply lookup_replicate_1 in H as [-> _]. discriminate.
  - apply lookup_replicate_1 in H as [-> _]. discriminate.
  - apply lookup_replicate_1 in H as [-> _]. discriminate.
Qed.

(** Under [records] the distance from the least active cursor is exact. *)
Lemma records_min_tail q hist :
  records q hist ->
  let m := min_tail_snapshot (m_head q) q in
  0 <= m /\ m_head q - NumSlots <= m <= m_head q /\
  U64.sub (m_head q) m = m_head q - m.
Proof.
  intros (Hwf & Hhead & Hlt & Hbuf & Hslots). simpl.
  destruct (min_tail_snapshot_spec (m_head q) q) as (H1 & H2 & H3).
  assert (Hm : 0 <= min_tail_snapshot (m_head q) q /\
               m_head q - NumSlots <= min_tail_snapshot (m_head q) q).
  { destruct H3 as [->|(i & s & Hi & Hs & ->)].
    - lia.
    - destruct (Hslots i s Hi Hs). lia. }
  split; [lia|]. split; [lia|].
  apply U64.sub_small; lia.
Qed.

(** A push either reports "full", exactly when some [Active] consumer is
    [NumSlots] behind, and changes nothing, or records the item. *)
Lemma records_push item q hist :
  records q hist ->
  Z.of_nat (length hist) + 1 < U64.modulus ->
  (push_impl item q = (false, q) /\
   exists i s, m_slots q !! i = Some s /\ state s = Active /\ tail s = m_head q - NumSlots) \/
  (exists q', push_impl item q = (true, q') /\ m_slots q' = m_slots q /\
              m_head q' = m_head q + 1 /\ records q' (hist ++ [item])).
Proof.
  intros Hq Hnext. destruct (records_min_tail q hist Hq) as (Hm0 & Hm & Hsub).
  destruct (min_tail_snapshot_spec (m_head q) q) as (H1 & H2 & H3).
  destruct Hq as ([Hlb Hls] & Hhead & Hlt & Hbuf & Hslots).
  destruct (Z_lt_le_dec (m_head q - min_tail_snapshot (m_head q) q) NumSlots) as [Hroom|Hfull].
  - right. eexists. split; [apply spmc_push_impl_room; lia|].
    split; [reflexivity|].
    assert (Hadd : U64.add (m_head q) 1 = m_head q + 1).
    { apply U64.add_small. lia. }
    split; [exact Hadd|].
    unfold records, wf, store_head, store_buffer; simpl.
    rewrite length_insert, length_app, Hadd; simpl.
    split; [auto|]. split; [lia|]. split; [lia|]. split.
    + intros c v Hc Hwin.
      destruct (decide (c < length hist)%nat) as [Hin|Hout].
      * rewrite lookup_app_l in Hc by assumption.
        rewrite list_lookup_insert_ne; [apply Hbuf; [assumption|lia]|].
        intros Heq. symmetry in Heq. revert Heq.
        apply spmc_to_index_apart. lia.
      * rewrite lookup_app_r in Hc by lia.
        destruct (c - length hist)%nat as [|n] eqn:Hn; simpl in Hc;
          [|rewrite lookup_nil in Hc; discriminate].
        injection Hc as <-.
        assert (Z.of_nat c = m_head q) as -> by lia.
        apply list_lookup_insert_eq. rewrite Hlb. apply spmc_to_index_lt.
    + intros i s Hi Hs. destruct (Hslots i s Hi Hs). specialize (H2 i s Hi Hs). lia.
  - left. split; [apply spmc_push_impl_full; lia|].
    destruct H3 as [Heq|(i & s & Hi & Hs & Heq)]; [lia|].
    exists i, s. repeat split; try assumption. lia.
Qed.

(** What [pop_impl] does, case by case. *)
Lemma spmc_pop_impl_cases idx q r q' :
  pop_impl idx q = Some (r, q') ->
  exists s, m_slots q !! idx = Some s /\
    ((m_head q <= tail s /\ r = None /\ q' = q) \/
     (tail s < m_head q /\ r = Some (m_buffer q !!! to_index (tail s)) /\
      q' = store_tail idx (U64.add (tail s) 1) q)).
Proof.
  unfold pop_impl. destruct (m_slots q !! idx) as [s|]; simpl; [|discriminate].
  intros H. exists s. split; [reflexivity|].
  destruct (Z.geb_spec (tail s) (m_head q)); injection H as <- <-; [left|right]; auto with lia.
Qed.

(** [try_pop_impl] is [pop_impl] with the result written through [out]. *)
Lemma spmc_try_pop_impl_pop_impl out idx q :
  try_pop_impl out idx q =
    match pop_impl idx q with
    | Some (Some v, q') => Some (true, v, q')
    | Some (None, q') => Some (false, out, q')
    | None => None
    end.
Proof.
  unfold try_pop_impl, pop_impl. destruct (m_slots q !! idx) as [s|]; simpl; [|reflexivity].
  destruct (tail s >=? m_head q); reflexivity.
Qed.

Lemma records_store_tail idx s q hist :
  records q hist ->
  m_slots q !! idx = Some s -> tail s < m_head q ->
  records (store_tail idx (U64.add (tail s) 1) q) hist.
Proof.
  intros ([Hlb Hls] & Hhead & Hlt & Hbuf & Hslots) Hidx Htail.
  unfold records, wf, store_tail; simpl. rewrite length_alter.
  repeat split; try assumption.
  - destruct (decide (i = idx)) as [->|Hne].
    + rewrite list_lookup_alter_eq, Hidx in H. simpl in H. injection H as <-. simpl in *.
      destruct (Hslots idx s Hidx H0). rewrite U64.add_small by lia. lia.
    + rewrite list_lookup_alter_ne in H by auto. apply (Hslots i s0 H H0).
  - destruct (decide (i = idx)) as [->|Hne].
    + rewrite list_lookup_alter_eq, Hidx in H. simpl in H. injection H as <-. simpl in *.
      destruct (Hslots idx s Hidx H0). rewrite U64.add_small by lia. lia.
    + rewrite list_lookup_alter_ne in H by auto. apply (Hslots i s0 H H0).
  - destruct (decide (i = idx)) as [->|Hne].
    + rewrite list_lookup_alter_eq, Hidx in H. simpl in H. injection H as <-. simpl in *.
      destruct (Hslots idx s Hidx H0). rewrite U64.add_small by lia. lia.
    + rewrite list_lookup_alter_ne in H by auto. apply (Hslots i s0 H H0).
Qed.

(** A pop keeps the record; a value delivered to an [Active] consumer is
    the recorded value at that consumer's cursor. *)
Lemma records_pop idx q hist r q' :
  records q hist ->
  pop_impl idx q = Some (r, q') ->
  records q' hist /\
  forall s, m_slots q !! idx = Some s -> state s = Active ->
    (r = None /\ q' = q) \/
    (exists v, r = Some v /\ hist !! Z.to_nat (tail s) = Some v /\
               m_slots q' = <[idx := MkSlot Active (tail s + 1)]> (m_slots q)).
Proof.
  intros Hq Hpop.
  destruct (spmc_pop_impl_cases _ _ _ _ Hpop) as (s & Hs & [(Hge & -> & ->)|(Hlt & -> & ->)]).
  - split; [assumption|]. intros; left; auto.
  - split; [eapply records_store_tail; eassumption|].
    intros s' Hs' Hact. rewrite Hs in Hs'. injection Hs' as <-. right.
    destruct Hq as ([Hlb Hls] & Hhead & Hmod & Hbuf & Hslots).
    destruct (Hslots idx s Hs Hact) as [H0 H1].
    assert (Hin : (Z.to_nat (tail s) < length hist)%nat) by lia.
    destruct (lookup_lt_is_Some_2 hist _ Hin) as [v Hv].
    exists v. split; [|split; [assumption|]].
    + f_equal. apply list_lookup_total_correct.
      specialize (Hbuf _ v Hv). rewrite Z2Nat.id in Hbuf by lia. apply Hbuf. lia.
    + unfold store_tail; simpl. rewrite U64.add_small by lia.
      rewrite list_insert_alter.
      apply list_eq. intros j. destruct (decide (j = idx)) as [->|Hne].
      * rewrite !list_lookup_alter_eq, Hs. simpl. rewrite Hact. reflexivity.
      * rewrite !list_lookup_alter_ne by auto. reflexivity.
Qed.

(** *** Attaching and detaching consumers *)

(** The three stores of a successful [make_consumer] leave slot [i]
    [Active] with its cursor at [head]. *)
Lemma attach_slots (i : nat) (head : Z) (q : SPMCQueue) :
  (i < length (m_slots q))%nat ->
  m_slots (store_state i Active (store_tail i head (store_state i Initializing q))) =
  <[i := MkSlot Active head]> (m_slots q).
Proof.
  intros Hi. unfold store_state, store_tail; simpl.
  apply list_eq. intros j. destruct (decide (j = i)) as [->|Hne].
  - rewrite !list_lookup_alter_eq, list_lookup_insert_eq by assumption.
    destruct (lookup_lt_is_Some_2 _ _ Hi) as [s ->]. reflexivity.
  - rewrite !list_lookup_alter_ne, list_lookup_insert_ne by auto. reflexivity.
Qed.

(** The stores of [~Consumer()] leave slot [i] [Free] with cursor zero. *)
Lemma detach_slots (i : nat) (q : SPMCQueue) :
  (i < length (m_slots q))%nat ->
  m_slots (store_state i Free (store_tail i 0 q)) = <[i := MkSlot Free 0]> (m_slots q).
Proof.
  intros Hi. unfold store_state, store_tail; simpl.
  apply list_eq. intros j. destruct (decide (j = i)) as [->|Hne].
  - rewrite !list_lookup_alter_eq, list_lookup_insert_eq by assumption.
    destruct (lookup_lt_is_Some_2 _ _ Hi) as [s ->]. reflexivity.
  - rewrite !list_lookup_alter_ne, list_lookup_insert_ne by auto. reflexivity.
Qed.

(** The scan of [make_consumer] takes the first [Free] slot it visits. *)
Lemma make_consumer_scan_seq this head q : forall (n k : nat),
  match make_consumer_scan this head (seq k n) q with
  | (None, q') =>
      q' = q /\
      forall j, (k <= j < k + n)%nat -> state (m_slots q !!! j) <> Free
  | (Some c, q') =>
      consumer_m_queue c = Some this /\
      (k <= consumer_m_slot_idx c < k + n)%nat /\
      state (m_slots q !!! consumer_m_slot_idx c) = Free /\
      (forall j, (k <= j < consumer_m_slot_idx c)%nat -> state (m_slots q !!! j) <> Free) /\
      q' = store_state (consumer_m_slot_idx c) Active
             (store_tail (consumer_m_slot_idx c) head
                (store_state (consumer_m_slot_idx c) Initializing q))
  end.
Proof.
  induction n as [|n IH]; intros k; simpl.
  - split; [reflexivity|]. intros j Hj. lia.
  - destruct (decide (state (m_slots q !!! k) = Free)) as [Hfree|Hused]; simpl.
    + repeat split; try assumption; try lia.
    + specialize (IH (S k)).
      destruct (make_consumer_scan this head (seq (S k) n) q) as [[c|] q'].
      * destruct IH as (H1 & H2 & H3 & H4 & H5).
        repeat split; try assumption; try lia.
        intros j Hj. destruct (decide (j = k)) as [->|Hne]; [assumption|].
        apply H4. lia.
      * destruct IH as [H1 H2]. split; [assumption|].
        intros j Hj. destruct (decide (j = k)) as [->|Hne]; [assumption|].
        apply H2. lia.
Qed.

(** [make_consumer] on a well-formed queue: either every slot is taken and
    nothing changes, or the lowest [Free] slot becomes [Active] with its
    cursor at the producer cursor. *)
Lemma make_consumer_spec this q :
  wf q ->
  match make_consumer this q with
  | (None, q') =>
      q' = q /\
      forall j s, m_slots q !! j = Some s -> state s <> Free
  | (Some c, q') =>
      consumer_m_queue c = Some this /\
      (exists s, m_slots q !! consumer_m_slot_idx c = Some s /\ state s = Free) /\
      (forall j s, (j < consumer_m_slot_idx c)%nat -> m_slots q !! j = Some s -> state s <> Free) /\
      m_buffer q' = m_buffer q /\ m_head q' = m_head q /\
      m_producer_claimed q' = m_producer_claimed q /\
      m_slots q' = <[consumer_m_slot_idx c := MkSlot Active (m_head q)]> (m_slots q)
  end.
Proof.
  intros [Hlb Hls]. unfold make_consumer.
  pose proof (make_consumer_scan_seq this (m_head q) q MaxConsumers 0) as H.
  destruct (make_consumer_scan this (m_head q) (seq 0 MaxConsumers) q) as [[c|] q'].
  - destruct H as (H1 & H2 & H3 & H4 & ->).
    assert (Hin : (consumer_m_slot_idx c < length (m_slots q))%nat) by lia.
    split; [assumption|]. split; [|split].
    + destruct (lookup_lt_is_Some_2 _ _ Hin) as [s Hs]. exists s. split; [assumption|].
      rewrite (list_lookup_total_correct _ _ _ Hs) in H3. assumption.
    + intros j s Hj Hs. specialize (H4 j ltac:(lia)).
      rewrite (list_lookup_total_correct _ _ _ Hs) in H4. assumption.
    + rewrite attach_slots by assumption. repeat split; reflexivity.
  - destruct H as [-> H2]. split; [reflexivity|].
    intros j s Hs. pose proof (lookup_lt_Some _ _ _ Hs) as Hj.
    specialize (H2 j ltac:(lia)).
    rewrite (list_lookup_total_correct _ _ _ Hs) in H2. assumption.
Qed.

(** Changing the slot table keeps the record as long as every [Active]
    slot of the new table is an old one or sits within the window. *)
Lemma records_change_slots q q' hist :
  records q hist ->
  m_buffer q' = m_buffer q -> m_head q' = m_head q ->
  length (m_slots q') = length (m_slots q) ->
  (forall i s, m_slots q' !! i = Some s -> state s = Active ->
     m_slots q !! i = Some s \/ tail s = m_head q) ->
  records q' hist.
Proof.
  intros ([Hlb Hls] & Hhead & Hlt & Hbuf & Hslots) Hb Hh Hl Hs.
  unfold records, wf. rewrite Hb, Hh, Hl.
  split; [auto|]. split; [assumption|]. split; [assumption|]. split; [assumption|].
  intros i s Hi Hact. destruct (Hs i s Hi Hact) as [Hold| ->]; [eauto|]. lia.
Qed.

Lemma records_make_consumer this q hist :
  records q hist -> records (make_consumer this q).2 hist.
Proof.
  intros Hq. pose proof (make_consumer_spec this q (records_wf _ _ Hq)) as H.
  destruct (make_consumer this q) as [[c|] q']; simpl.
  - destruct H as (_ & _ & _ & Hb & Hh & _ & Hs).
    apply (records_change_slots q); try assumption.
    + rewrite Hs. apply length_insert.
    + intros i s Hi Hact. rewrite Hs in Hi.
      destruct (decide (i = consumer_m_slot_idx c)) as [->|Hne].
      * rewrite list_lookup_insert in Hi. case_decide.
        -- injection Hi as <-. right. reflexivity.
        -- left. assumption.
      * rewrite list_lookup_insert_ne in Hi by auto. left. assumption.
  - destruct H as [-> _]. assumption.
Qed.

Lemma records_store_state_Free idx q hist :
  records q hist -> records (store_state idx Free q) hist.
Proof.
  intros Hq. apply (records_change_slots q); try assumption; try reflexivity.
  - unfold store_state; simpl. apply length_alter.
  - intros i s Hi Hact. unfold store_state in Hi; simpl in Hi.
    destruct (decide (i = idx)) as [->|Hne].
    + rewrite list_lookup_alter_eq in Hi.
      destruct (m_slots q !! idx); simpl in Hi; [|discriminate].
      injection Hi as <-. discriminate.
    + rewrite list_lookup_alter_ne in Hi by auto. left. assumption.
Qed.

Lemma records_store_tail_any idx v q hist :
  records q hist ->
  (forall s, m_slots q !! idx = Some s -> state s <> Active \/ v = m_head q) ->
  records (store_tail idx v q) hist.
Proof.
  intros Hq Hv. apply (records_change_slots q); try assumption; try reflexivity.
  - unfold store_tail; simpl. apply length_alter.
  - intros i s Hi Hact. unfold store_tail in Hi; simpl in Hi.
    destruct (decide (i = idx)) as [->|Hne].
    + rewrite list_lookup_alter_eq in Hi.
      destruct (m_slots q !! idx) as [s0|] eqn:Hs0; simpl in Hi; [|discriminate].
      injection Hi as <-. simpl in *.
      destruct (Hv s0 eq_refl) as [Hn| ->]; [contradiction|]. right. reflexivity.
    + rewrite list_lookup_alter_ne in Hi by auto. left. assumption.
Qed.

Lemma records_detach idx q hist :
  records q hist -> records (store_state idx Free (store_tail idx 0 q)) hist.
Proof.
  intros Hq. apply (records_change_slots q); try assumption; try reflexivity.
  - unfold store_state, store_tail; simpl. rewrite !length_alter. reflexivity.
  - intros i s Hi Hact. unfold store_state, store_tail in Hi; simpl in Hi.
    destruct (decide (i = idx)) as [->|Hne].
    + rewrite !list_lookup_alter_eq in Hi.
      destruct (m_slots q !! idx); simpl in Hi; [|discriminate].
      injection Hi as <-. discriminate.
    + rewrite !list_lookup_alter_ne in Hi by auto. left. assumption.
Qed.

Lemma records_store_producer_claimed b q hist :
  records q hist -> records (store_producer_claimed b q) hist.
Proof. intros H. exact H. Qed.

(** *** Sequences of operations *)

Lemma run_cons o ops q es q' :
  run (o :: ops) q = Some (es, q') ->
  exists e q1 es1, step o q = Some (e, q1) /\ run ops q1 = Some (es1, q') /\ es = e :: es1.
Proof.
  simpl. destruct (step o q) as [[e q1]|]; simpl; [|discriminate].
  destruct (run ops q1) as [[es1 q2]|] eqn:Hr; simpl; [|discriminate].
  intros H. injection H as <- <-. exists e, q1, es1. auto.
Qed.

(** One operation keeps the record, extended by the value it pushed. *)
Lemma records_step o q hist e q' :
  records q hist ->
  Z.of_nat (length hist) + Z.of_nat (push_count [o]) < U64.modulus ->
  step o q = Some (e, q') ->
  records q' (hist ++ pushed [e]).
Proof.
  intros Hq Hcnt Hstep. destruct o; simpl in Hstep, Hcnt.
  - destruct (records_push item q hist Hq ltac:(lia)) as [[Hp _]|(q1 & Hp & _ & _ & Hq1)];
      rewrite Hp in Hstep; injection Hstep as <- <-; simpl.
    + rewrite app_nil_r. assumption.
    + assumption.
  - destruct (pop_impl idx q) as [[r q1]|] eqn:Hp; simpl in Hstep; [|discriminate].
    injection Hstep as <- <-. destruct (records_pop _ _ _ _ _ Hq Hp) as [Hq1 _].
    destruct r; simpl; rewrite app_nil_r; assumption.
  - rewrite spmc_try_pop_impl_pop_impl in Hstep.
    destruct (pop_impl idx q) as [[r q1]|] eqn:Hp; simpl in Hstep; [|discriminate].
    destruct (records_pop _ _ _ _ _ Hq Hp) as [Hq1 _].
    destruct r; simpl in Hstep; injection Hstep as <- <-; simpl;
      rewrite app_nil_r; assumption.
  - pose proof (records_make_consumer this q hist Hq) as Hq1.
    destruct (make_consumer this q) as [r q1]. injection Hstep as <- <-.
    simpl. rewrite app_nil_r. assumption.
  - destruct (m_slots q !! idx); simpl in Hstep; [|discriminate].
    injection Hstep as <- <-. simpl. rewrite app_nil_r. apply records_detach, Hq.
  - destruct (m_slots q !! idx); simpl in Hstep; [|discriminate].
    injection Hstep as <- <-. simpl. rewrite app_nil_r. apply records_store_state_Free, Hq.
  - unfold make_producer in Hstep. destruct (m_producer_claimed q);
      injection Hstep as <- <-; simpl; rewrite app_nil_r; assumption.
  - injection Hstep as <- <-. simpl. rewrite app_nil_r. assumption.
Qed.

Lemma pushed_cons e es : pushed (e :: es) = pushed [e] ++ pushed es.
Proof. destruct e as [item [|]| | | | |]; reflexivity. Qed.

Lemma length_pushed_step o q e q' :
  step o q = Some (e, q') -> (length (pushed [e]) <= push_count [o])%nat.
Proof.
  destruct o; simpl; intros H.
  - destruct (push_impl item q) as [[|] q1]; injection H as <- <-; simpl; lia.
  - destruct (pop_impl idx q) as [[r q1]|]; simpl in H; [|discriminate].
    injection H as <- <-. destruct r; simpl; lia.
  - destruct (try_pop_impl out idx q) as [[[ok o'] q1]|]; simpl in H; [|discriminate].
    injection H as <- <-. destruct ok; simpl; lia.
  - destruct (make_consumer this q). injection H as <- <-. simpl. lia.
  - destruct (m_slots q !! idx); simpl in H; [|discriminate]. injection H as <- <-. simpl. lia.
  - destruct (m_slots q !! idx); simpl in H; [|discriminate]. injection H as <- <-. simpl. lia.
  - destruct (make_producer this q). injection H as <- <-. simpl. lia.
  - injection H as <- <-. simpl. lia.
Qed.

Lemma push_count_cons o ops : push_count (o :: ops) = (push_count [o] + push_count ops)%nat.
Proof. destruct o; reflexivity. Qed.

Lemma push_count_app ops1 ops2 :
  push_count (ops1 ++ ops2) = (push_count ops1 + push_count ops2)%nat.
Proof.
  induction ops1 as [|o ops1 IH]; [reflexivity|].
  simpl app. rewrite (push_count_cons o (ops1 ++ ops2)), (push_count_cons o ops1), IH. lia.
Qed.

(** Any sequence of operations with fewer than [2^64] pushes in all keeps
    the record. *)
Lemma records_run ops : forall q hist es q',
  records q hist ->
  Z.of_nat (length hist) + Z.of_nat (push_count ops) < U64.modulus ->
  run ops q = Some (es, q') ->
  records q' (hist ++ pushed es).
Proof.
  induction ops as [|o ops IH]; intros q hist es q' Hq Hcnt Hrun.
  - injection Hrun as <- <-. simpl. rewrite app_nil_r. assumption.
  - destruct (run_cons _ _ _ _ _ Hrun) as (e & q1 & es1 & Hstep & Hrun1 & ->).
    rewrite push_count_cons in Hcnt.
    pose proof (length_pushed_step _ _ _ _ Hstep) as Hle.
    rewrite pushed_cons, app_assoc.
    apply (IH q1); [|rewrite length_app; lia|assumption].
    apply (records_step o q); [assumption|lia|assumption].
Qed.

(** *** Following one consumer *)

(** Slot [i] is [Active] with its cursor at [t]. *)
Definition attached (i : nat) (t : Z) (q : SPMCQueue) : Prop :=
  m_slots q !! i = Some (MkSlot Active t).

Lemma popped_cons i e es : popped i (e :: es) = popped i [e] ++ popped i es.
Proof.
  destruct e as [item ok|idx [v|]|idx [|] v| | |]; simpl; try reflexivity;
    destruct (decide (idx = i)); reflexivity.
Qed.

(** An operation that does not go through the handle on slot [i] leaves
    that slot alone and delivers nothing to it. *)
Lemma attached_step_other i t o q e q' :
  wf q -> attached i t q -> uses_slot i o = false ->
  step o q = Some (e, q') ->
  attached i t q' /\ popped i [e] = [].
Proof.
  unfold attached. intros Hwf Hi Huse Hstep. destruct o; simpl in Hstep, Huse.
  - unfold push_impl in Hstep.
    destruct (U64.sub (m_head q) (min_tail_snapshot (m_head q) q) >=? NumSlots);
      injection Hstep as <- <-; auto.
  - apply bool_decide_eq_false in Huse.
    destruct (pop_impl idx q) as [[r q1]|] eqn:Hp; simpl in Hstep; [|discriminate].
    injection Hstep as <- <-.
    destruct (spmc_pop_impl_cases _ _ _ _ Hp) as (s & Hs & [(_ & -> & ->)|(_ & -> & ->)]).
    + auto.
    + simpl. rewrite decide_False by assumption. split; [|reflexivity].
      rewrite list_lookup_alter_ne by assumption. assumption.
  - apply bool_decide_eq_false in Huse. rewrite spmc_try_pop_impl_pop_impl in Hstep.
    destruct (pop_impl idx q) as [[r q1]|] eqn:Hp; simpl in Hstep; [|discriminate].
    destruct (spmc_pop_impl_cases _ _ _ _ Hp) as (s & Hs & [(_ & -> & ->)|(_ & -> & ->)]);
      injection Hstep as <- <-.
    + auto.
    + simpl. rewrite decide_False by assumption. split; [|reflexivity].
      rewrite list_lookup_alter_ne by assumption. assumption.
  - pose proof (make_consumer_spec this q Hwf) as H.
    destruct (make_consumer this q) as [[c|] q1]; injection Hstep as <- <-.
    + destruct H as (_ & (s & Hs & Hfree) & _ & _ & _ & _ & Hsl).
      split; [|reflexivity]. rewrite Hsl.
      rewrite list_lookup_insert_ne; [assumption|].
      intros <-. rewrite Hi in Hs. injection Hs as <-. discriminate.
    + destruct H as [-> _]. auto.
  - apply bool_decide_eq_false in Huse.
    destruct (m_slots q !! idx); simpl in Hstep; [|discriminate].
    injection Hstep as <- <-. split; [|reflexivity]. simpl.
    rewrite !list_lookup_alter_ne by assumption. assumption.
  - apply bool_decide_eq_false in Huse.
    destruct (m_slots q !! idx); simpl in Hstep; [|discriminate].
    injection Hstep as <- <-. split; [|reflexivity]. simpl.
    rewrite !list_lookup_alter_ne by assumption. assumption.
  - unfold make_producer in Hstep.
    destruct (m_producer_claimed q); injection Hstep as <- <-; auto.
  - injection Hstep as <- <-. auto.
Qed.

(** A pop through the handle on the [Active] slot [i] either finds nothing
    or delivers the recorded value at the cursor and advances it by one. *)
Lemma attached_pop i t q hist r q' :
  records q hist -> attached i t q ->
  pop_impl i q = Some (r, q') ->
  0 <= t /\
  ((r = None /\ attached i t q') \/
   (exists v, r = Some v /\ hist !! Z.to_nat t = Some v /\ attached i (t + 1) q')).
Proof.
  unfold attached. intros Hq Hi Hp.
  destruct (records_pop _ _ _ _ _ Hq Hp) as [_ H].
  destruct Hq as (_ & _ & _ & _ & Hslots).
  destruct (Hslots i _ Hi eq_refl) as [Ht _]. simpl in Ht. split; [assumption|].
  destruct (H _ Hi eq_refl) as [[-> ->]|(v & -> & Hv & Hsl)]; simpl in *.
  - left. auto.
  - right. exists v. repeat split; try assumption.
    rewrite Hsl. apply list_lookup_insert_eq. eapply lookup_lt_Some, Hi.
Qed.

(** The consumer on slot [i], as long as it stays attached, is delivered
    the recorded values from its cursor onwards, one by one. *)
Lemma attached_run i ops : forall q hist t es q',
  records q hist -> attached i t q ->
  Forall (fun o => detaches i o = false) ops ->
  Z.of_nat (length hist) + Z.of_nat (push_count ops) < U64.modulus ->
  run ops q = Some (es, q') ->
  exists t', attached i t' q' /\ 0 <= t <= t' /\
    drop (Z.to_nat t) (hist ++ pushed es) =
    popped i es ++ drop (Z.to_nat t') (hist ++ pushed es).
Proof.
  induction ops as [|o ops IH]; intros q hist t es q' Hq Hi Hall Hcnt Hrun.
  - injection Hrun as <- <-. exists t. simpl.
    destruct Hq as (_ & _ & _ & _ & Hslots).
    destruct (Hslots i _ Hi eq_refl) as [Ht _]. simpl in Ht. auto with lia.
  - destruct (run_cons _ _ _ _ _ Hrun) as (e & q1 & es1 & Hstep & Hrun1 & ->).
    inversion Hall as [|? ? Ho Hops]; subst.
    rewrite push_count_cons in Hcnt.
    pose proof (length_pushed_step _ _ _ _ Hstep) as Hle.
    assert (Hq1 : records q1 (hist ++ pushed [e])).
    { apply (records_step o q); [assumption|lia|assumption]. }
    assert (Hcnt1 : Z.of_nat (length (hist ++ pushed [e])) + Z.of_nat (push_count ops)
                    < U64.modulus) by (rewrite length_app; lia).
    rewrite pushed_cons, popped_cons, app_assoc.
    destruct (uses_slot i o) eqn:Huse.
    + (* a pop or try_pop through the handle on slot [i] *)
      assert (Hpop : exists r, pop_impl i q = Some (r, q1) /\ pushed [e] = [] /\
                       popped i [e] = match r with Some v => [v] | None => [] end).
      { destruct o; simpl in Huse, Ho, Hstep; try discriminate;
          try (rewrite Huse in Ho; discriminate);
          apply bool_decide_eq_true in Huse; subst idx.
        - destruct (pop_impl i q) as [[r q2]|]; simpl in Hstep; [|discriminate].
          injection Hstep as <- <-. exists r. split; [reflexivity|].
          destruct r; simpl; rewrite ?decide_True by reflexivity; auto.
        - rewrite spmc_try_pop_impl_pop_impl in Hstep.
          destruct (pop_impl i q) as [[r q2]|]; simpl in Hstep; [|discriminate].
          destruct r; injection Hstep as <- <-; eexists; (split; [reflexivity|]);
            simpl; rewrite ?decide_True by reflexivity; auto. }
      destruct Hpop as (r & Hp & Hpe & Hpo). rewrite Hpe, Hpo in *.
      rewrite app_nil_r in *.
      destruct (attached_pop _ _ _ _ _ _ Hq Hi Hp) as [Ht [[-> Hi1]|(v & -> & Hv & Hi1)]].
      * destruct (IH q1 hist t es1 q' Hq1 Hi1 Hops Hcnt1 Hrun1) as (t' & Ht' & Hle' & Hd).
        exists t'. auto.
      * destruct (IH q1 hist (t + 1) es1 q' Hq1 Hi1 Hops Hcnt1 Hrun1) as (t' & Ht' & Hle' & Hd).
        exists t'. split; [assumption|]. split; [lia|].
        replace (Z.to_nat (t + 1)) with (S (Z.to_nat t)) in Hd by lia.
        rewrite (drop_S _ v (Z.to_nat t)); [|apply lookup_app_l_Some; assumption].
        simpl. f_equal. assumption.
    + destruct (attached_step_other i t o q e q1 (records_wf _ _ Hq) Hi Huse Hstep)
        as [Hi1 Hpe].
      rewrite Hpe. simpl.
      destruct (IH q1 _ t es1 q' Hq1 Hi1 Hops Hcnt1 Hrun1) as (t' & Ht' & Hle' & Hd).
      exists t'. auto.
Qed.

(** *** Backpressure from a consumer that never pops *)

(** While the consumer on slot [a] sits at cursor zero and fewer than
    [NumSlots] values were accepted, every push is accepted. *)
Lemma stalled_run a ops : forall q hist es q',
  records q hist -> attached a 0 q ->
  Forall (fun o => uses_slot a o = false) ops ->
  Z.of_nat (length hist) + Z.of_nat (push_count ops) <= NumSlots ->
  run ops q = Some (es, q') ->
  records q' (hist ++ pushed es) /\ attached a 0 q' /\
  length (pushed es) = push_count ops.
Proof.
  pose proof NumSlots_succ_lt_modulus as Hmod.
  induction ops as [|o ops IH]; intros q hist es q' Hq Ha Hall Hcnt Hrun.
  - injection Hrun as <- <-. simpl. rewrite app_nil_r. auto.
  - destruct (run_cons _ _ _ _ _ Hrun) as (e & q1 & es1 & Hstep & Hrun1 & ->).
    inversion Hall as [|? ? Ho Hops]; subst.
    rewrite push_count_cons in Hcnt. rewrite push_count_cons.
    pose proof (length_pushed_step _ _ _ _ Hstep) as Hle.
    assert (Hq1 : records q1 (hist ++ pushed [e])).
    { apply (records_step o q); [assumption|lia|assumption]. }
    destruct (attached_step_other a 0 o q e q1 (records_wf _ _ Hq) Ha Ho Hstep) as [Ha1 _].
    assert (Hlen : length (pushed [e]) = push_count [o]).
    { destruct o; simpl in Hstep |- *;
        try (destruct (pop_impl idx q) as [[[v|] q2]|]; simpl in Hstep; [| |discriminate];
             injection Hstep as <- <-; reflexivity);
        try (destruct (try_pop_impl out idx q) as [[[[|] v] q2]|]; simpl in Hstep;
             [| |discriminate]; injection Hstep as <- <-; reflexivity);
        try (destruct (make_consumer this q); injection Hstep as <- <-; reflexivity);
        try (destruct (make_producer this q); injection Hstep as <- <-; reflexivity);
        try (destruct (m_slots q !! idx); simpl in Hstep; [|discriminate];
             injection Hstep as <- <-; reflexivity);
        try (injection Hstep as <- <-; reflexivity).
      destruct (records_push item q hist Hq ltac:(lia))
        as [[_ (i & s & Hs & Hact & Ht)]|(q2 & Hp & _)].
      - exfalso. destruct Hq as (_ & Hhead & _ & _ & Hslots).
        destruct (Hslots i s Hs Hact). simpl in Hcnt. lia.
      - rewrite Hp in Hstep. injection Hstep as <- <-. reflexivity. }
    rewrite pushed_cons, app_assoc, length_app, Hlen.
    destruct (IH q1 _ es1 q' Hq1 Ha1 Hops ltac:(rewrite length_app; lia) Hrun1)
      as (H1 & H2 & H3).
    rewrite H3. auto.
Qed.

(** With the consumer on slot [a] at cursor zero and [NumSlots] values
    accepted, the next push reports "full" and changes nothing. *)
Lemma stalled_full a item q hist :
  records q hist -> attached a 0 q ->
  Z.of_nat (length hist) = NumSlots ->
  push_impl item q = (false, q).
Proof.
  pose proof NumSlots_succ_lt_modulus as Hmod.
  intros Hq Ha Hlen.
  destruct (records_push item q hist Hq ltac:(lia)) as [[Hp _]|(q' & _ & Hsl & Hh & Hq')];
    [assumption|exfalso].
  destruct Hq as (_ & Hhead & _). destruct Hq' as (_ & _ & _ & _ & Hslots').
  unfold attached in Ha. rewrite <- Hsl in Ha.
  destruct (Hslots' a _ Ha eq_refl) as [_ Hwin]. simpl in Hwin. lia.
Qed.

(** *** Handles and slot states agree in every reachable world *)

Lemma active_store_tail idx v q j : active (store_tail idx v q) j = active q j.
Proof.
  unfold active, store_tail; simpl. rewrite list_lookup_alter. case_decide; [|reflexivity].
  subst j. destruct (m_slots q !! idx); reflexivity.
Qed.

Lemma active_store_state idx st q j :
  active (store_state idx st q) j =
    if decide (idx = j) then (fun _ => bool_decide (st = Active)) <$> m_slots q !! idx
    else active q j.
Proof.
  unfold active, store_state; simpl. rewrite list_lookup_alter. case_decide; [|reflexivity].
  destruct (m_slots q !! idx); reflexivity.
Qed.

Lemma wf_store_tail idx v q : wf q -> wf (store_tail idx v q).
Proof. unfold wf, store_tail; simpl. rewrite length_alter. auto. Qed.

Lemma wf_store_state idx st q : wf q -> wf (store_state idx st q).
Proof. unfold wf, store_state; simpl. rewrite length_alter. auto. Qed.

Lemma wf_init : wf init.
Proof. unfold wf, init; simpl. rewrite !length_replicate. auto. Qed.

Lemma push_impl_active item q j :
  active (push_impl item q).2 j = active q j /\ (wf q -> wf (push_impl item q).2).
Proof.
  unfold push_impl.
  destruct (U64.sub (m_head q) (min_tail_snapshot (m_head q) q) >=? NumSlots); simpl;
    [auto|].
  split; [reflexivity|]. unfold wf; simpl. rewrite length_insert. auto.
Qed.

Lemma pop_impl_active idx q r q' j :
  pop_impl idx q = Some (r, q') -> active q' j = active q j /\ (wf q -> wf q').
Proof.
  intros Hp. destruct (spmc_pop_impl_cases _ _ _ _ Hp) as (s & _ & [(_ & _ & ->)|(_ & _ & ->)]).
  - auto.
  - split; [apply active_store_tail|apply wf_store_tail].
Qed.

(** Every consumer slot is held exclusively, and the arrays have their
    declared sizes. *)
Definition world_ok (w : World) : Prop :=
  exclusive (slot_of w) (active_at w) /\
  (forall a q, w_queues w !! a = Some q -> wf q).

Lemma active_at_insert σ cs a q' (r : addr * nat) :
  active_at (MkWorld (<[a := q']> σ) cs) r =
    if decide (a = r.1) then active q' r.2 else active_at (MkWorld σ cs) r.
Proof.
  unfold active_at; simpl. rewrite lookup_insert. case_decide; reflexivity.
Qed.

Lemma slot_of_insert σ cs h c h1 :
  slot_of (MkWorld σ (<[h := c]> cs)) h1 =
    if decide (h = h1) then (a ← consumer_m_queue c; Some (a, consumer_m_slot_idx c))
    else slot_of (MkWorld σ cs) h1.
Proof.
  unfold slot_of; simpl. rewrite lookup_insert. case_decide; reflexivity.
Qed.

Lemma spmc_world_ok_init σ :
  (forall a q, σ !! a = Some q -> q = init) -> world_ok (MkWorld σ ∅).
Proof.
  intros Hσ. split; [split; [|split]|].
  - intros h r. unfold slot_of; simpl. rewrite lookup_empty. discriminate.
  - intros h1 h2 r. unfold slot_of; simpl. rewrite lookup_empty. discriminate.
  - intros [a j]. unfold active_at; simpl.
    destruct (σ !! a) as [q|] eqn:Hq; simpl; [|discriminate].
    rewrite (Hσ a q Hq). unfold active, init; simpl.
    destruct (replicate MaxConsumers (MkSlot Free 0) !! j) as [s|] eqn:Hs; simpl;
      [|discriminate].
    apply lookup_replicate_1 in Hs as [-> _]. discriminate.
  - intros a q Hq. rewrite (Hσ a q Hq). apply wf_init.
Qed.

(** A queue is replaced by one with the same [Active] slots. *)
Lemma world_ok_update w a q q' :
  world_ok w -> w_queues w !! a = Some q -> wf q' ->
  (forall j, active q' j = active q j) ->
  world_ok (MkWorld (<[a := q']> (w_queues w)) (w_consumers w)).
Proof.
  intros [Hx Hwf] Hq Hwf' Hact. split.
  - apply (exclusive_ext _ _ _ _ Hx); [reflexivity|].
    intros [b j]. rewrite active_at_insert. simpl. case_decide; [|reflexivity].
    subst b. unfold active_at; simpl. rewrite Hq. simpl. apply Hact.
  - intros b qb. simpl. rewrite lookup_insert. case_decide; [|apply Hwf].
    intros Hb. injection Hb as <-. assumption.
Qed.

(** A new handle takes a slot that was not [Active]. *)
Lemma world_ok_acquire w a h q q' i :
  world_ok w -> w_consumers w !! h = None -> w_queues w !! a = Some q ->
  active q i = Some false -> wf q' ->
  (forall j, active q' j = if decide (i = j) then Some true else active q j) ->
  world_ok (MkWorld (<[a := q']> (w_queues w))
                    (<[h := MkConsumer (Some a) i]> (w_consumers w))).
Proof.
  intros [Hx Hwf] Hh Hq Hfree Hwf' Hact. split.
  - eapply exclusive_ext; [apply (exclusive_acquire _ _ h (a, i) Hx)| |].
    + unfold slot_of. rewrite Hh. reflexivity.
    + unfold active_at; simpl. rewrite Hq. simpl. exact Hfree.
    + intros h1. rewrite slot_of_insert, fn_lookup_insert_decide.
      case_decide; [reflexivity|]. destruct w; reflexivity.
    + intros [b j]. rewrite active_at_insert, fn_lookup_insert_decide. simpl.
      destruct (decide (a = b)) as [->|Hab].
      * rewrite Hact. destruct (decide (i = j)) as [->|Hij].
        -- rewrite decide_True by reflexivity. reflexivity.
        -- rewrite decide_False by congruence.
           unfold active_at; simpl. rewrite Hq. reflexivity.
      * rewrite decide_False by congruence. destruct w; reflexivity.
  - intros b qb. simpl. rewrite lookup_insert. case_decide; [|apply Hwf].
    intros Hb. injection Hb as <-. assumption.
Qed.

(** The handle [h] lets go of its slot, in place. *)
Lemma world_ok_release w a h c q q' i' :
  world_ok w -> w_consumers w !! h = Some c ->
  consumer_m_queue c = Some a -> w_queues w !! a = Some q ->
  wf q' ->
  (forall j, active q' j =
             if decide (consumer_m_slot_idx c = j) then Some false else active q j) ->
  world_ok (MkWorld (<[a := q']> (w_queues w))
                    (<[h := MkConsumer None i']> (w_consumers w))).
Proof.
  intros [Hx Hwf] Hh Hptr Hq Hwf' Hact.
  assert (Hown : slot_of w h = Some (a, consumer_m_slot_idx c)).
  { unfold slot_of. rewrite Hh. simpl. rewrite Hptr. reflexivity. }
  split.
  - eapply exclusive_ext; [apply (exclusive_release _ _ h _ Hx Hown)| |].
    + intros h1. rewrite slot_of_insert, fn_lookup_insert_decide.
      case_decide; [reflexivity|]. destruct w; reflexivity.
    + intros [b j]. rewrite active_at_insert, fn_lookup_insert_decide. simpl.
      destruct (decide (a = b)) as [->|Hab].
      * rewrite Hact. destruct (decide (consumer_m_slot_idx c = j)) as [->|Hij].
        -- rewrite decide_True by reflexivity. reflexivity.
        -- rewrite decide_False by congruence.
           unfold active_at; simpl. rewrite Hq. reflexivity.
      * rewrite decide_False by congruence. destruct w; reflexivity.
  - intros b qb. simpl. rewrite lookup_insert. case_decide; [|apply Hwf].
    intros Hb. injection Hb as <-. assumption.
Qed.

(** A handle that points to nothing is replaced by, or created as, another
    one that points to nothing. *)
Lemma world_ok_null w h i' :
  world_ok w -> slot_of w h = None ->
  world_ok (MkWorld (w_queues w) (<[h := MkConsumer None i']> (w_consumers w))).
Proof.
  intros [Hx Hwf] Hh. split; [|assumption].
  apply (exclusive_ext _ _ _ _ Hx); [|reflexivity].
  intros h1. rewrite slot_of_insert. case_decide.
  - subst h1. simpl. symmetry. exact Hh.
  - destruct w; reflexivity.
Qed.

(** A handle that points to nothing goes out of existence. *)
Lemma world_ok_delete w h :
  world_ok w -> slot_of w h = None ->
  world_ok (MkWorld (w_queues w) (delete h (w_consumers w))).
Proof.
  intros [Hx Hwf] Hh. split; [|assumption].
  apply (exclusive_ext _ _ _ _ Hx); [|reflexivity].
  intros h1. unfold slot_of; simpl. rewrite lookup_delete. case_decide; [|reflexivity].
  subst h1. simpl. symmetry. exact Hh.
Qed.

(** The pointer and slot index of [h] pass to [h'], which pointed to
    nothing. *)
Lemma world_ok_transfer w h h' c :
  world_ok w -> h <> h' -> slot_of w h' = None -> w_consumers w !! h = Some c ->
  world_ok (MkWorld (w_queues w)
                    (<[h' := MkConsumer (consumer_m_queue c) (consumer_m_slot_idx c)]>
                       (<[h := MkConsumer None (consumer_m_slot_idx c)]> (w_consumers w)))).
Proof.
  intros [Hx Hwf] Hne Hh' Hh. split; [|assumption].
  eapply exclusive_ext; [apply (exclusive_transfer _ _ h h' Hx Hne Hh')| |reflexivity].
  intros h1. rewrite !slot_of_insert, !fn_lookup_insert_decide.
  case_decide.
  - simpl. unfold slot_of. rewrite Hh. reflexivity.
  - case_decide; [reflexivity|]. destruct w; reflexivity.
Qed.

(** What the stores of [~Consumer()] and of the move assignment do to the
    [Active] marks of a queue. *)
Lemma active_detach i q j :
  is_Some (m_slots q !! i) ->
  active (store_state i Free (store_tail i 0 q)) j =
    if decide (i = j) then Some false else active q j.
Proof.
  intros [s Hs]. rewrite active_store_state. case_decide.
  - unfold store_tail; simpl. rewrite list_lookup_alter_eq, Hs. reflexivity.
  - apply active_store_tail.
Qed.

Lemma active_store_state_Free i q j :
  is_Some (m_slots q !! i) ->
  active (store_state i Free q) j = if decide (i = j) then Some false else active q j.
Proof.
  intros [s Hs]. rewrite active_store_state. case_decide; [|reflexivity].
  rewrite Hs. reflexivity.
Qed.

(** Every statement keeps the consumer slots exclusive. *)
Lemma spmc_world_ok_step o w w' : world_ok w -> wstep o w = Some w' -> world_ok w'.
Proof.
  intros Hw Hstep. pose proof Hw as [Hx Hwf]. destruct o; simpl in Hstep.
  - (* make_consumer *)
    case_decide as Hh; [|discriminate].
    destruct (w_queues w !! a) as [q|] eqn:Hq; simpl in Hstep; [|discriminate].
    pose proof (make_consumer_spec a q (Hwf a q Hq)) as Hspec.
    destruct (make_consumer a q) as [[c|] q']; injection Hstep as <-.
    + destruct Hspec as (Hptr & (s & Hs & Hfree) & _ & Hb & Hhd & _ & Hsl).
      destruct c as [ptr i]. simpl in *. subst ptr.
      pose proof (Hwf a q Hq) as [Hlb Hls].
      apply (world_ok_acquire w a h q q' i); try assumption.
      * unfold active. rewrite Hs. simpl. rewrite Hfree. reflexivity.
      * unfold wf. rewrite Hb, Hsl, length_insert. auto.
      * intros j. unfold active. rewrite Hsl, list_lookup_insert.
        destruct (decide (i = j)) as [->|Hij].
        -- rewrite decide_True; [reflexivity|].
           split; [reflexivity|]. eapply lookup_lt_Some, Hs.
        -- rewrite decide_False; [reflexivity|]. intros [? _]. contradiction.
    + destruct Hspec as [-> _]. rewrite insert_id by assumption. destruct w; assumption.
  - (* Consumer() *)
    case_decide as Hh; [|discriminate]. injection Hstep as <-.
    apply world_ok_null; [assumption|]. unfold slot_of. rewrite Hh. reflexivity.
  - (* ~Consumer *)
    destruct (w_consumers w !! h) as [c|] eqn:Hc; simpl in Hstep; [|discriminate].
    unfold Consumer_dtor in Hstep.
    destruct (consumer_m_queue c) as [a|] eqn:Hptr.
    + destruct (w_queues w !! a) as [q|] eqn:Hq; simpl in Hstep; [|discriminate].
      destruct (m_slots q !! consumer_m_slot_idx c) as [s|] eqn:Hs; simpl in Hstep;
        [|discriminate].
      injection Hstep as <-.
      pose proof (world_ok_release w a h c q _ 0%nat Hw Hc Hptr Hq
                    (wf_store_state _ Free _ (wf_store_tail _ 0 _ (Hwf a q Hq)))
                    (fun j => active_detach _ q j (mk_is_Some _ _ Hs))) as H1.
      apply (world_ok_delete _ h) in H1.
      * simpl in H1. rewrite delete_insert_eq in H1. exact H1.
      * rewrite slot_of_insert, decide_True by reflexivity. reflexivity.
    + simpl in Hstep. injection Hstep as <-.
      apply world_ok_delete; [assumption|].
      unfold slot_of. rewrite Hc. simpl. rewrite Hptr. reflexivity.
  - (* Consumer(Consumer&&) *)
    case_decide as Hh'; [|discriminate].
    destruct (w_consumers w !! h) as [c|] eqn:Hc; simpl in Hstep; [|discriminate].
    injection Hstep as <-.
    apply world_ok_transfer; try assumption.
    + intros ->. congruence.
    + unfold slot_of. rewrite Hh'. reflexivity.
  - (* Consumer::operator=(Consumer&&) *)
    destruct (w_consumers w !! h') as [c'|] eqn:Hc'; simpl in Hstep; [|discriminate].
    destruct (w_consumers w !! h) as [c|] eqn:Hc; simpl in Hstep; [|discriminate].
    case_decide as Hne; [injection Hstep as <-; assumption|].
    unfold Consumer_move_assign in Hstep.
    assert (Hrel : exists σ',
              world_ok (MkWorld σ' (<[h' := MkConsumer None 0]> (w_consumers w))) /\
              w' = MkWorld σ' (<[h' := MkConsumer (consumer_m_queue c) (consumer_m_slot_idx c)]>
                                 (<[h := MkConsumer None (consumer_m_slot_idx c)]>
                                    (w_consumers w)))).
    { destruct (consumer_m_queue c') as [a|] eqn:Hptr.
      - destruct (w_queues w !! a) as [q|] eqn:Hq; simpl in Hstep; [|discriminate].
        destruct (m_slots q !! consumer_m_slot_idx c') as [s|] eqn:Hs; simpl in Hstep;
          [|discriminate].
        injection Hstep as <-. eexists. split; [|reflexivity].
        apply (world_ok_release w a h' c' q); try assumption.
        + apply wf_store_state, (Hwf a q Hq).
        + intros j. apply active_store_state_Free. eauto.
      - simpl in Hstep. injection Hstep as <-. eexists. split; [|reflexivity].
        apply world_ok_null; [assumption|].
        unfold slot_of. rewrite Hc'. simpl. rewrite Hptr. reflexivity. }
    destruct Hrel as (σ' & H1 & ->).
    apply (world_ok_transfer _ h h' c) in H1; simpl; try congruence.
    + simpl in H1.
      replace (<[h':=MkConsumer (consumer_m_queue c) (consumer_m_slot_idx c)]>
                 (<[h:=MkConsumer None (consumer_m_slot_idx c)]> (w_consumers w)))
        with (<[h':=MkConsumer (consumer_m_queue c) (consumer_m_slot_idx c)]>
                (<[h:=MkConsumer None (consumer_m_slot_idx c)]>
                   (<[h':=MkConsumer None 0]> (w_consumers w))));
        [exact H1|].
      apply map_eq. intros i. rewrite !lookup_insert. repeat case_decide; congruence.
    + rewrite slot_of_insert, decide_True by reflexivity. reflexivity.
    + rewrite lookup_insert_ne by assumption. assumption.
  - (* push *)
    destruct (w_queues w !! a) as [q|] eqn:Hq; simpl in Hstep; [|discriminate].
    pose proof (fun j => proj1 (push_impl_active item q j)) as Hact.
    pose proof (proj2 (push_impl_active item q 0%nat) (Hwf a q Hq)) as Hwf'.
    destruct (push_impl item q) as [ok q']. simpl in *. injection Hstep as <-.
    apply (world_ok_update w a q); assumption.
  - (* pop *)
    destruct (w_consumers w !! h) as [c|]; simpl in Hstep; [|discriminate].
    unfold Consumer_pop in Hstep.
    destruct (consumer_m_queue c) as [a|]; simpl in Hstep; [|discriminate].
    destruct (w_queues w !! a) as [q|] eqn:Hq; simpl in Hstep; [|discriminate].
    destruct (pop_impl (consumer_m_slot_idx c) q) as [[r q']|] eqn:Hp; simpl in Hstep;
      [|discriminate].
    injection Hstep as <-.
    apply (world_ok_update w a q); try assumption.
    + apply (pop_impl_active _ _ _ _ 0%nat Hp), (Hwf a q Hq).
    + intros j. apply (pop_impl_active _ _ _ _ j Hp).
  - (* try_pop *)
    destruct (w_consumers w !! h) as [c|]; simpl in Hstep; [|discriminate].
    unfold Consumer_try_pop in Hstep.
    destruct (consumer_m_queue c) as [a|]; simpl in Hstep; [|discriminate].
    destruct (w_queues w !! a) as [q|] eqn:Hq; simpl in Hstep; [|discriminate].
    rewrite spmc_try_pop_impl_pop_impl in Hstep.
    destruct (pop_impl (consumer_m_slot_idx c) q) as [[r q']|] eqn:Hp; simpl in Hstep;
      [|discriminate].
    assert (w' = MkWorld (<[a := q']> (w_queues w)) (w_consumers w)) as ->.
    { destruct r; simpl in Hstep; injection Hstep as <-; reflexivity. }
    apply (world_ok_update w a q); try assumption.
    + apply (pop_impl_active _ _ _ _ 0%nat Hp), (Hwf a q Hq).
    + intros j. apply (pop_impl_active _ _ _ _ j Hp).
Qed.

Lemma spmc_reachable_world_ok w : reachable w -> world_ok w.
Proof.
  induction 1 as [σ Hσ|w w' o _ IH Hstep].
  - apply spmc_world_ok_init, Hσ.
  - eapply spmc_world_ok_step; eassumption.
Qed.

Lemma spmc_wrun_reachable ops : forall w w',
  reachable w -> wrun ops w = Some w' -> reachable w'.
Proof.
  induction ops as [|o ops IH]; intros w w' Hw Hrun; simpl in Hrun.
  - injection Hrun as <-. assumption.
  - destruct (wstep o w) as [w1|] eqn:Hstep; simpl in Hrun; [|discriminate].
    apply (IH w1); [|assumption]. eapply reachable_step; eassumption.
Qed.

(** *** Backpressure, late join and slot reuse *)

Lemma length_pushed_run ops : forall q es q',
  run ops q = Some (es, q') -> (length (pushed es) <= push_count ops)%nat.
Proof.
  induction ops as [|o ops IH]; intros q es q' Hrun.
  - injection Hrun as <- <-. simpl. lia.
  - destruct (run_cons _ _ _ _ _ Hrun) as (e & q1 & es1 & Hstep & Hrun1 & ->).
    rewrite pushed_cons, length_app, push_count_cons.
    pose proof (length_pushed_step _ _ _ _ Hstep). specialize (IH _ _ _ Hrun1). lia.
Qed.

(** With an [Active] consumer exactly [NumSlots] behind, push reports
    "full" and changes nothing. *)
Lemma records_push_full item q hist i s :
  records q hist ->
  m_slots q !! i = Some s -> state s = Active -> tail s = m_head q - NumSlots ->
  push_impl item q = (false, q).
Proof.
  intros Hq Hs Hact Ht.
  destruct (records_min_tail q hist Hq) as (_ & Hm & Hsub).
  destruct (min_tail_snapshot_spec (m_head q) q) as (_ & H2 & _).
  specialize (H2 i s Hs Hact).
  apply spmc_push_impl_full. lia.
Qed.

(** A consumer that never pops keeps its cursor, whatever the producer
    and the other consumers do, and the producer cursor never gets more
    than [NumSlots] ahead of it. *)
Lemma stalled_anywhere b ops : forall q hist u es q',
  records q hist -> attached b u q ->
  Forall (fun o => uses_slot b o = false) ops ->
  Z.of_nat (length hist) + Z.of_nat (push_count ops) < U64.modulus ->
  run ops q = Some (es, q') ->
  records q' (hist ++ pushed es) /\ attached b u q'.
Proof.
  induction ops as [|o ops IH]; intros q hist u es q' Hq Hb Hall Hcnt Hrun.
  - injection Hrun as <- <-. simpl. rewrite app_nil_r. auto.
  - destruct (run_cons _ _ _ _ _ Hrun) as (e & q1 & es1 & Hstep & Hrun1 & ->).
    inversion Hall as [|? ? Ho Hops]; subst.
    rewrite push_count_cons in Hcnt.
    pose proof (length_pushed_step _ _ _ _ Hstep) as Hle.
    assert (Hq1 : records q1 (hist ++ pushed [e])).
    { apply (records_step o q); [assumption|lia|assumption]. }
    destruct (attached_step_other b u o q e q1 (records_wf _ _ Hq) Hb Ho Hstep) as [Hb1 _].
    rewrite pushed_cons, app_assoc.
    apply (IH q1 _ u es1 q' Hq1 Hb1 Hops); [rewrite length_app; lia|assumption].
Qed.

(** [c] is the cursor of some [Active] slot of [q]. *)
Definition active_cursor (q : SPMCQueue) (c : Z) : Prop :=
  exists i s, m_slots q !! i = Some s /\ state s = Active /\ tail s = c.

(** In a state whose cursors are 64-bit values, [push_impl] reports "full"
    exactly when some [Active] slot lies [NumSlots] or more behind the
    producer cursor, which is when the producer cursor minus the least of
    the [Active] cursors is at least [NumSlots]. *)
Lemma push_impl_full_active item q :
  U64.in_range (m_head q) ->
  (forall c, active_cursor q c -> U64.in_range c) ->
  let m := min_tail_snapshot (m_head q) q in
  U64.sub (m_head q) m = m_head q - m /\
  ((push_impl item q).1 = false <-> m_head q - m >= NumSlots) /\
  ((push_impl item q).1 = false <->
     exists c, active_cursor q c /\ m_head q - c >= NumSlots).
Proof.
  intros Hh Hc. cbv zeta.
  destruct (min_tail_snapshot_spec (m_head q) q) as (H1 & H2 & H3).
  assert (Hm0 : 0 <= min_tail_snapshot (m_head q) q).
  { destruct H3 as [->|(i & s & Hi & Hs & ->)]; [apply Hh|].
    apply (Hc (tail s)). exists i, s. auto. }
  assert (Hsub : U64.sub (m_head q) (min_tail_snapshot (m_head q) q) =
                 m_head q - min_tail_snapshot (m_head q) q).
  { destruct Hh. apply U64.sub_small; lia. }
  split; [exact Hsub|]. rewrite spmc_push_impl_full_iff, Hsub.
  split; [reflexivity|]. split.
  - intros Hfull. destruct H3 as [Hm|(i & s & Hi & Hs & Hm)]; [lia|].
    exists (tail s). split; [exists i, s; auto|lia].
  - intros (c & (i & s & Hi & Hs & <-) & Hfull).
    specialize (H2 i s Hi Hs). lia.
Qed.

(** C2 (SPMC backpressure).  On a freshly constructed queue of capacity
    [NumSlots], let consumers attach (the operations [setup], none of them
    a push), one of them on slot [a].  Let then any operations [ops]
    follow that contain exactly [NumSlots] pushes and never go through the
    handle on slot [a]: other consumers may attach, pop as far as they
    like and detach.  Then all [NumSlots] pushes are accepted, and one
    more push, the [(NumSlots+1)]-th in total, reports "full" and leaves
    the queue unchanged.

    The reason is spelled out for every state [q1] whose cursors are
    64-bit values.  The value [m] that [min_tail_snapshot] computes is the
    least of the producer cursor and the [Active] cursors: it is at most
    either, and it is one of them; slots that are not [Active] play no
    part.  When some [Active] cursor is not ahead of the producer cursor,
    [m] is therefore the minimum cursor over the [Active] slots.  And
    [push_impl] reports "full" exactly when [m_head - m >= NumSlots],
    which is exactly when some [Active] slot lies [NumSlots] or more
    behind the producer cursor; it then leaves the queue unchanged, and
    otherwise it stores the item and advances the producer cursor.

    The same holds for a consumer that stops popping anywhere in a run:
    if slot [b] is [Active] with cursor [u] after any operations [pre] on
    a fresh queue, and the operations [post] never go through the handle
    on slot [b] (fewer than [2^64] pushes in all), then the slot keeps its
    cursor, the producer cursor grows by the number of accepted pushes and
    never gets more than [NumSlots] ahead of [u], and once it is
    [NumSlots] ahead every push reports "full". *)
Theorem spmc_backpressure (setup ops : list op) (a : nat) (t : Z)
    (es0 es : list event) (q0 q : SPMCQueue) (item : T) :
  run setup init = Some (es0, q0) ->
  push_count setup = 0%nat ->
  attached a t q0 ->
  Forall (fun o => uses_slot a o = false) ops ->
  Z.of_nat (push_count ops) = NumSlots ->
  run ops q0 = Some (es, q) ->
  length (pushed es) = push_count ops /\
  push_impl item q = (false, q) /\
  (forall (q1 : SPMCQueue) (item1 : T),
     U64.in_range (m_head q1) ->
     (forall c, active_cursor q1 c -> U64.in_range c) ->
     let m := min_tail_snapshot (m_head q1) q1 in
     m <= m_head q1 /\
     (forall c, active_cursor q1 c -> m <= c) /\
     (m = m_head q1 \/ active_cursor q1 m) /\
     ((exists c, active_cursor q1 c /\ c <= m_head q1) -> active_cursor q1 m) /\
     ((push_impl item1 q1).1 = false <-> m_head q1 - m >= NumSlots) /\
     ((push_impl item1 q1).1 = false <->
        exists c, active_cursor q1 c /\ m_head q1 - c >= NumSlots) /\
     ((push_impl item1 q1).1 = false -> push_impl item1 q1 = (false, q1)) /\
     ((push_impl item1 q1).1 = true ->
        push_impl item1 q1 =
          (true, store_head (U64.add (m_head q1) 1)
                   (store_buffer (to_index (m_head q1)) item1 q1)))) /\
  (forall (pre post : list op) (b : nat) (u : Z) (es1 es2 : list event)
          (q1 q2 : SPMCQueue) (item1 : T),
     run pre init = Some (es1, q1) ->
     attached b u q1 ->
     Forall (fun o => uses_slot b o = false) post ->
     run post q1 = Some (es2, q2) ->
     Z.of_nat (push_count pre) + Z.of_nat (push_count post) < U64.modulus ->
     attached b u q2 /\
     m_head q2 = m_head q1 + Z.of_nat (length (pushed es2)) /\
     m_head q2 - u <= NumSlots /\
     (m_head q2 - u = NumSlots -> push_impl item1 q2 = (false, q2))).
Proof.
  intros Hsetup Hnopush Ha Hops Hcount Hrun.
  pose proof (length_pushed_run _ _ _ _ Hsetup) as Hlen0.
  assert (Hnil : pushed es0 = []) by (destruct (pushed es0); [reflexivity|simpl in Hlen0; lia]).
  assert (Hq0 : records q0 []).
  { pose proof (records_run setup init [] es0 q0 records_init) as H.
    rewrite Hnil in H. apply H; [|assumption].
    rewrite Hnopush. simpl. reflexivity. }
  assert (Ha0 : attached a 0 q0).
  { pose proof Hq0 as (_ & Hhead & _ & _ & Hslots).
    destruct (Hslots a _ Ha eq_refl) as [Ht0 Ht1]. simpl in *.
    replace t with 0 in Ha by lia. exact Ha. }
  destruct (stalled_run a ops q0 [] es q Hq0 Ha0 Hops ltac:(simpl; lia) Hrun)
    as (Hq & Haq & Hlen).
  split; [exact Hlen|]. split; [|split].
  - apply (stalled_full a item q _ Hq Haq). simpl. lia.
  - intros q1 item1 Hh Hc. cbv zeta.
    destruct (min_tail_snapshot_spec (m_head q1) q1) as (H1 & H2 & H3).
    destruct (push_impl_full_active item1 q1 Hh Hc) as (Hsub & Hm & Hex).
    split; [exact H1|]. split; [|split; [|split; [|split; [exact Hm|split; [exact Hex|split]]]]].
    + intros c (i & s & Hi & Hs & <-). eauto.
    + destruct H3 as [H3|(i & s & Hi & Hs & H3)]; [left; exact H3|].
      right. exists i, s. auto.
    + intros (c & (i & s & Hi & Hs & <-) & Hle).
      destruct H3 as [H3|(i' & s' & Hi' & Hs' & H3)]; [|exists i', s'; auto].
      exists i, s. specialize (H2 i s Hi Hs). split; [exact Hi|]. split; [exact Hs|]. lia.
    + intros Hfalse. apply spmc_push_impl_full.
      apply (proj1 (spmc_push_impl_full_iff item1 q1)), Hfalse.
    + intros Htrue. apply spmc_push_impl_room.
      destruct (Z_lt_le_dec (U64.sub (m_head q1) (min_tail_snapshot (m_head q1) q1)) NumSlots)
        as [Hroom|Hfull]; [exact Hroom|].
      rewrite (spmc_push_impl_full item1 q1) in Htrue by lia. discriminate.
  - intros pre post b u es1 es2 q1 q2 item1 Hpre Hb Hpost Hrun2 Hbound.
    pose proof (length_pushed_run _ _ _ _ Hpre) as Hlen1.
    pose proof (length_pushed_run _ _ _ _ Hrun2) as Hlen2.
    assert (Hq1 : records q1 (pushed es1)).
    { apply (records_run pre init [] es1 q1 records_init); [simpl; lia|assumption]. }
    destruct (stalled_anywhere b post q1 (pushed es1) u es2 q2 Hq1 Hb Hpost ltac:(lia) Hrun2)
      as [Hq2 Hb2].
    split; [exact Hb2|].
    pose proof Hq1 as (_ & Hhead1 & _).
    pose proof Hq2 as (_ & Hhead2 & _ & _ & Hslots2).
    destruct (Hslots2 b _ Hb2 eq_refl) as [Hu0 Hu]. cbn [tail] in Hu0, Hu.
    rewrite length_app in Hhead2.
    split; [lia|]. split; [lia|].
    intros Hfull. apply (records_push_full item1 q2 _ b _ Hq2 Hb2 eq_refl).
    cbn [tail]. lia.
Qed.

(** C3 (late join).  Let K items be pushed on a fresh queue by the
    operations [pre], let [make_consumer] then return a handle, and let
    any operations [post] follow during which that handle is neither
    destroyed nor assigned over; fewer than [2^64] pushes are made in all,
    so the producer cursor has not wrapped.  Then the cursor of the new
    consumer's slot was set to the producer cursor at attach time, which
    is K; and the values this consumer is delivered are, in order, the
    first of the values pushed after it attached: none of the K earlier
    items reaches it, and its first successful pop returns the first item
    pushed after its attach point. *)
Theorem spmc_late_join (pre post : list op) (this : addr) (c : Consumer)
    (es1 es2 : list event) (q1 q2 q3 : SPMCQueue) :
  run pre init = Some (es1, q1) ->
  make_consumer this q1 = (Some c, q2) ->
  run post q2 = Some (es2, q3) ->
  Forall (fun o => detaches (consumer_m_slot_idx c) o = false) post ->
  Z.of_nat (push_count pre) + Z.of_nat (push_count post) < U64.modulus ->
  m_head q1 = Z.of_nat (length (pushed es1)) /\
  attached (consumer_m_slot_idx c) (m_head q1) q2 /\
  popped (consumer_m_slot_idx c) es2 `prefix_of` pushed es2 /\
  (forall v, head (popped (consumer_m_slot_idx c) es2) = Some v ->
             head (pushed es2) = Some v).
Proof.
  intros Hpre Hmake Hpost Hstay Hcount.
  assert (Hq1 : records q1 (pushed es1)).
  { apply (records_run pre init [] es1 q1 records_init); [simpl; lia|assumption]. }
  pose proof (records_make_consumer this q1 _ Hq1) as Hq2.
  pose proof (make_consumer_spec this q1 (records_wf _ _ Hq1)) as Hspec.
  rewrite Hmake in Hq2, Hspec. simpl in Hq2.
  destruct Hspec as (_ & (s & Hs & _) & _ & _ & _ & _ & Hsl).
  pose proof Hq1 as (_ & Hhead & _).
  assert (Hatt : attached (consumer_m_slot_idx c) (m_head q1) q2).
  { unfold attached. rewrite Hsl. apply list_lookup_insert_eq. eapply lookup_lt_Some, Hs. }
  pose proof (length_pushed_run _ _ _ _ Hpre) as Hlen.
  destruct (attached_run (consumer_m_slot_idx c) post q2 (pushed es1) (m_head q1) es2 q3
              Hq2 Hatt Hstay ltac:(lia) Hpost) as (t' & _ & _ & Hdrop).
  rewrite Hhead, Nat2Z.id, drop_app_length in Hdrop.
  assert (Hpre' : popped (consumer_m_slot_idx c) es2 `prefix_of` pushed es2).
  { eexists. exact Hdrop. }
  split; [exact Hhead|]. split; [exact Hatt|]. split; [exact Hpre'|].
  intros v Hv. destruct Hpre' as [k ->].
  destruct (popped (consumer_m_slot_idx c) es2); [discriminate|exact Hv].
Qed.

(** C8 (slot release and reuse).  Destroying a consumer handle that points
    to the queue at [a] with a slot index inside the table stores cursor
    zero and state [Free] in that slot and touches nothing else.  From
    then on [min_tail_snapshot] is the least of [head] and the cursors of
    the other [Active] slots: the freed slot is left out.  And in any
    later state of the queue in which the slot is still [Free] (the state
    right after the destructor is one), [make_consumer] succeeds, takes
    the lowest [Free] index, which is at most the freed index and is the
    freed index itself when no lower slot is [Free], and sets the new
    consumer's cursor to the producer cursor of that moment. *)
Theorem consumer_slot_release_reuse (c : Consumer) (a : addr) (q : SPMCQueue)
    (σ : gmap addr SPMCQueue) :
  consumer_m_queue c = Some a ->
  σ !! a = Some q ->
  wf q ->
  (consumer_m_slot_idx c < MaxConsumers)%nat ->
  exists q1,
    Consumer_dtor c σ = Some (<[a := q1]> σ) /\
    m_slots q1 = <[consumer_m_slot_idx c := MkSlot Free 0]> (m_slots q) /\
    m_head q1 = m_head q /\ m_buffer q1 = m_buffer q /\
    m_producer_claimed q1 = m_producer_claimed q /\
    wf q1 /\
    (forall head,
       let m := min_tail_snapshot head q1 in
       m <= head /\
       (forall j s, j <> consumer_m_slot_idx c ->
          m_slots q !! j = Some s -> state s = Active -> m <= tail s) /\
       (m = head \/
        exists j s, j <> consumer_m_slot_idx c /\
          m_slots q !! j = Some s /\ state s = Active /\ m = tail s)) /\
    (forall (this : addr) (q' : SPMCQueue),
       wf q' ->
       (exists s, m_slots q' !! consumer_m_slot_idx c = Some s /\ state s = Free) ->
       exists c' q2,
         make_consumer this q' = (Some c', q2) /\
         consumer_m_queue c' = Some this /\
         (consumer_m_slot_idx c' <= consumer_m_slot_idx c)%nat /\
         ((forall j s, (j < consumer_m_slot_idx c)%nat ->
             m_slots q' !! j = Some s -> state s <> Free) ->
          consumer_m_slot_idx c' = consumer_m_slot_idx c) /\
         m_slots q2 = <[consumer_m_slot_idx c' := MkSlot Active (m_head q')]> (m_slots q')) /\
    m_slots q1 !! consumer_m_slot_idx c = Some (MkSlot Free 0).
Proof.
  intros Hptr Hq Hwf Hidx. set (i := consumer_m_slot_idx c) in *.
  pose proof Hwf as [Hlb Hls].
  assert (Hin : (i < length (m_slots q))%nat) by lia.
  destruct (lookup_lt_is_Some_2 _ _ Hin) as [s0 Hs0].
  exists (store_state i Free (store_tail i 0 q)).
  assert (Hsl : m_slots (store_state i Free (store_tail i 0 q)) =
                <[i := MkSlot Free 0]> (m_slots q)) by (apply detach_slots; assumption).
  split; [|split; [exact Hsl|]].
  { unfold Consumer_dtor. rewrite Hptr. simpl. rewrite Hq. simpl.
    fold i. rewrite Hs0. reflexivity. }
  split; [reflexivity|]. split; [reflexivity|]. split; [reflexivity|].
  split; [apply wf_store_state, wf_store_tail, Hwf|]. split; [|split].
  - intros head.
    destruct (min_tail_snapshot_spec head (store_state i Free (store_tail i 0 q)))
      as (H1 & H2 & H3).
    rewrite Hsl in H2, H3. split; [exact H1|]. split.
    + intros j s Hj Hs Hact. apply (H2 j s); [|assumption].
      rewrite list_lookup_insert_ne by auto. assumption.
    + destruct H3 as [H3|(j & s & Hs & Hact & H3)]; [left; exact H3|right].
      destruct (decide (i = j)) as [<-|Hij].
      * rewrite list_lookup_insert_eq in Hs by assumption.
        injection Hs as <-. discriminate.
      * rewrite list_lookup_insert_ne in Hs by assumption.
        exists j, s. repeat split; auto.
  - intros this q' Hwf' (s & Hs & Hfree).
    pose proof (make_consumer_spec this q' Hwf') as Hspec.
    destruct (make_consumer this q') as [[c'|] q2].
    + destruct Hspec as (Hp' & (s' & Hs' & Hfree') & Hlow & _ & _ & _ & Hsl').
      exists c', q2. split; [reflexivity|]. split; [assumption|].
      assert (Hle : (consumer_m_slot_idx c' <= i)%nat).
      { destruct (le_lt_dec (consumer_m_slot_idx c') i) as [|Hlt]; [assumption|exfalso].
        exact (Hlow i s Hlt Hs Hfree). }
      split; [exact Hle|]. split; [|exact Hsl'].
      intros Hnone. destruct (decide (consumer_m_slot_idx c' = i)) as [|Hne]; [assumption|].
      exfalso. apply (Hnone (consumer_m_slot_idx c') s'); [lia|assumption|assumption].
    + exfalso. destruct Hspec as [_ Hnone]. exact (Hnone i s Hs Hfree).
  - rewrite Hsl. apply list_lookup_insert_eq. assumption.
Qed.

(** In every state reached from a fresh queue with fewer than [2^64]
    pushes, every [Active] consumer cursor is at most [NumSlots] behind
    the producer cursor; when one more item would put some [Active]
    consumer further behind, [push_impl] reports "full" and leaves the
    queue as it is. *)
Lemma spmc_capacity (ops : list op) (es : list event) (q : SPMCQueue) :
  run ops init = Some (es, q) ->
  Z.of_nat (push_count ops) < U64.modulus ->
  (forall i s, m_slots q !! i = Some s -> state s = Active ->
     0 <= U64.sub (m_head q) (tail s) <= NumSlots) /\
  (forall item i s,
     m_slots q !! i = Some s -> state s = Active ->
     U64.sub (U64.add (m_head q) 1) (tail s) > NumSlots ->
     push_impl item q = (false, q)).
Proof.
  intros Hrun Hcount.
  assert (Hq : records q (pushed es)).
  { apply (records_run ops init [] es q records_init); [simpl; lia|assumption]. }
  pose proof NumSlots_succ_lt_modulus as Hmod.
  pose proof Hq as (_ & Hhead & Hlt & _ & Hslots).
  split.
  - intros i s Hs Hact. destruct (Hslots i s Hs Hact) as [H0 H1].
    rewrite U64.sub_small by lia. lia.
  - intros item i s Hs Hact Hover. destruct (Hslots i s Hs Hact) as [H0 H1].
    apply (records_push_full item q _ i s Hq Hs Hact).
    unfold U64.sub, U64.add, U64.wrap in Hover.
    rewrite Zminus_mod_idemp_l in Hover.
    rewrite Z.mod_small in Hover by lia. lia.
Qed.


(** [try_pop_impl] and [pop_impl] agree on result and successor state, and
    are undefined for the same slot indices. *)
Lemma spmc_try_pop_equiv (out : T) (idx : nat) (q : SPMCQueue) :
  (forall v q', try_pop_impl out idx q = Some (true, v, q') <->
                pop_impl idx q = Some (Some v, q')) /\
  (forall out' q', try_pop_impl out idx q = Some (false, out', q') <->
                   pop_impl idx q = Some (None, q') /\ out' = out) /\
  (try_pop_impl out idx q = None <-> pop_impl idx q = None).
Proof.
  rewrite spmc_try_pop_impl_pop_impl.
  destruct (pop_impl idx q) as [[[v0|] q0]|]; repeat split; intros;
    try discriminate; try (destruct_and?; simplify_eq; auto; fail).
Qed.

(** *** Moving consumer handles *)

(** The destructor of a handle that points to nothing changes no queue. *)
Lemma spmc_Consumer_dtor_null c (σ : gmap addr SPMCQueue) :
  consumer_m_queue c = None -> Consumer_dtor c σ = Some σ.
Proof. unfold Consumer_dtor. intros ->. reflexivity. Qed.

(** Moving a consumer handle, by construction or by assignment between
    two distinct objects: the destination points to the queue and slot the
    source pointed to, the source points to nothing, the slot it held is
    still [Active], its destructor then changes no queue, and every slot
    remains exclusive. *)
Lemma spmc_consumer_move (w w' : World) (h h' : hid) :
  reachable w ->
  wstep (WMoveConsumer h' h) w = Some w' \/
    (h' <> h /\ wstep (WAssignConsumer h' h) w = Some w') ->
  slot_of w' h' = slot_of w h /\
  slot_of w' h = None /\
  (forall r, slot_of w h = Some r -> active_at w' r = Some true) /\
  (exists w'', wstep (WDestroyConsumer h) w' = Some w'' /\ w_queues w'' = w_queues w') /\
  world_ok w'.
Proof.
  intros Hreach Hmove.
  pose proof (spmc_reachable_world_ok w Hreach) as Hw.
  assert (Hw' : world_ok w').
  { destruct Hmove as [Hs|[_ Hs]]; eapply spmc_world_ok_step; eassumption. }
  assert (Hfacts : h' <> h /\ exists c σ',
            w_consumers w !! h = Some c /\
            w' = MkWorld σ'
                   (<[h' := MkConsumer (consumer_m_queue c) (consumer_m_slot_idx c)]>
                      (<[h := MkConsumer None (consumer_m_slot_idx c)]> (w_consumers w)))).
  { destruct Hmove as [Hs|[Hne Hs]]; simpl in Hs.
    - case_decide as Hh'; [|discriminate].
      destruct (w_consumers w !! h) as [c|] eqn:Hc; simpl in Hs; [|discriminate].
      injection Hs as <-. split; [intros ->; congruence|]. eauto.
    - destruct (w_consumers w !! h') as [c'|] eqn:Hc'; simpl in Hs; [|discriminate].
      destruct (w_consumers w !! h) as [c|] eqn:Hc; simpl in Hs; [|discriminate].
      rewrite decide_False in Hs by assumption.
      unfold Consumer_move_assign in Hs.
      destruct (match consumer_m_queue c' with
                | Some a =>
                    q ← w_queues w !! a;
                    _ ← m_slots q !! consumer_m_slot_idx c';
                    Some (<[a := store_state (consumer_m_slot_idx c') Free q]> (w_queues w))
                | None => Some (w_queues w)
                end) as [σ'|]; simpl in Hs; [|discriminate].
      injection Hs as <-. eauto. }
  destruct Hfacts as (Hne & c & σ' & Hc & ->).
  assert (Hdst : slot_of (MkWorld σ'
                   (<[h' := MkConsumer (consumer_m_queue c) (consumer_m_slot_idx c)]>
                      (<[h := MkConsumer None (consumer_m_slot_idx c)]> (w_consumers w)))) h'
                 = slot_of w h).
  { rewrite slot_of_insert, decide_True by reflexivity.
    unfold slot_of. rewrite Hc. reflexivity. }
  split; [exact Hdst|]. split; [|split; [|split; [|exact Hw']]].
  - rewrite slot_of_insert, decide_False by assumption.
    rewrite slot_of_insert, decide_True by reflexivity. reflexivity.
  - intros r Hr. destruct Hw' as [(K1 & _) _]. apply (K1 h'). rewrite Hdst. exact Hr.
  - eexists. split.
    + simpl. rewrite lookup_insert_ne, lookup_insert_eq by assumption. reflexivity.
    + reflexivity.
Qed.

(** *** Beyond [2^64] pushes

    [min_tail_snapshot] and [pop_impl] compare cursors as plain numbers.
    Once the producer cursor has wrapped around while a consumer cursor
    has not, the comparison [t < min_tail] no longer finds that consumer,
    and the producer runs past it.  The bound on the number of pushes in
    [records_run] and in the statements that rest on it cannot be dropped. *)

Lemma run_app ops1 ops2 q :
  run (ops1 ++ ops2) q =
    '(es1, q1) ← run ops1 q; '(es2, q2) ← run ops2 q1; Some (es1 ++ es2, q2).
Proof.
  revert q. induction ops1 as [|o ops1 IH]; intros q; simpl.
  - destruct (run ops2 q) as [[es2 q2]|]; reflexivity.
  - destruct (step o q) as [[e q']|]; simpl; [|reflexivity].
    rewrite IH. destruct (run ops1 q') as [[es1 q1]|]; simpl; [|reflexivity].
    destruct (run ops2 q1) as [[es2 q2]|]; reflexivity.
Qed.

(** While no [Active] cursor is below the producer cursor, as plain
    numbers, [push_impl] sees a distance of zero and accepts. *)
Lemma push_impl_unchecked item q :
  (forall i s, m_slots q !! i = Some s -> state s = Active -> m_head q <= tail s) ->
  push_impl item q =
    (true, store_head (U64.add (m_head q) 1) (store_buffer (to_index (m_head q)) item q)).
Proof.
  intros Hs. apply spmc_push_impl_room.
  destruct (min_tail_snapshot_spec (m_head q) q) as (H1 & _ & H3).
  assert (Hm : min_tail_snapshot (m_head q) q = m_head q).
  { destruct H3 as [H3|(i & s & Hi & Hact & H3)]; [exact H3|].
    specialize (Hs i s Hi Hact). lia. }
  rewrite Hm, U64.sub_diag. assumption.
Qed.

Lemma pushes_unchecked v n : forall q,
  wf q -> U64.in_range (m_head q) ->
  m_head q + Z.of_nat n <= U64.modulus ->
  (forall i s, m_slots q !! i = Some s -> state s = Active ->
     m_head q + Z.of_nat n - 1 <= tail s) ->
  exists q',
    run (replicate n (Push v)) q = Some (replicate n (EvPush v true), q') /\
    wf q' /\
    m_head q' = U64.wrap (m_head q + Z.of_nat n) /\
    m_slots q' = m_slots q.
Proof.
  induction n as [|n IH]; intros q Hwf Hr Hn Hs.
  - exists q. simpl. rewrite Z.add_0_r, U64.wrap_small by assumption. auto.
  - simpl. rewrite push_impl_unchecked by (intros i s Hi Ha; specialize (Hs i s Hi Ha); lia).
    simpl.
    set (q1 := store_head (U64.add (m_head q) 1) (store_buffer (to_index (m_head q)) v q)).
    assert (Hwf1 : wf q1).
    { destruct Hwf. unfold wf, q1; simpl. rewrite length_insert. auto. }
    destruct n as [|n].
    + exists q1. simpl. split; [reflexivity|]. split; [exact Hwf1|]. split; reflexivity.
    + assert (Hadd : m_head q1 = m_head q + 1).
      { unfold q1; simpl. apply U64.add_small. unfold U64.in_range in *. lia. }
      destruct (IH q1) as (q' & Hrun & Hwf' & Hh' & Hs'); try assumption.
      * rewrite Hadd. unfold U64.in_range in *. lia.
      * rewrite Hadd. lia.
      * intros i s Hi Ha. rewrite Hadd. specialize (Hs i s Hi Ha). lia.
      * exists q'. rewrite Hrun. simpl.
        split; [reflexivity|]. split; [exact Hwf'|]. split.
        -- rewrite Hh', Hadd. f_equal. lia.
        -- rewrite Hs'. reflexivity.
Qed.

(** X9 (SPMC cursors at [2^64]).  After [2^64 - 1] pushes (the number [n]) a
    consumer attaches, and [NumSlots + 1] more pushes are all accepted: the
    producer is then [NumSlots + 1] ahead of that [Active] consumer. *)
Remark spmc_overrun_after_wrap (v : T) (this : addr) (n : nat) :
  Z.of_nat n = U64.modulus - 1 ->
  (0 < MaxConsumers)%nat ->
  exists es q s,
    run (replicate n (Push v) ++
         MakeConsumer this :: replicate (Z.to_nat (NumSlots + 1)) (Push v)) init
      = Some (es, q) /\
    m_slots q !! 0%nat = Some s /\ state s = Active /\
    U64.sub (m_head q) (tail s) = NumSlots + 1.
Proof.
  intros Hn Hmax. pose proof NumSlots_succ_lt_modulus as Hmod.
  assert (Hm : 0 < U64.modulus) by apply U64.modulus_pos.
  assert (Hinit : m_head init = 0 /\ m_slots init = replicate MaxConsumers (MkSlot Free 0))
    by (split; reflexivity).
  destruct Hinit as [Hh0 Hs0].
  (* the first [2^64 - 1] pushes, nobody listening *)
  destruct (pushes_unchecked v n init wf_init) as (q1 & Hrun1 & Hwf1 & Hh1 & Hs1).
  { rewrite Hh0. unfold U64.in_range. lia. }
  { rewrite Hh0. lia. }
  { intros i s Hi Ha. rewrite Hs0 in Hi. apply lookup_replicate_1 in Hi as [-> _].
    discriminate. }
  rewrite Hh0, Z.add_0_l, Hn, U64.wrap_small in Hh1 by (unfold U64.in_range; lia).
  rewrite Hs0 in Hs1.
  (* the consumer attaches on slot 0 *)
  pose proof (make_consumer_spec this q1 Hwf1) as Hspec.
  destruct (make_consumer this q1) as [[c|] q2] eqn:Hmake.
  2:{ exfalso. destruct Hspec as [_ Hnone].
      apply (Hnone 0%nat (MkSlot Free 0)); [|reflexivity].
      rewrite Hs1. apply lookup_replicate_2. assumption. }
  destruct Hspec as (_ & _ & Hlow & Hb2 & Hh2 & _ & Hsl2).
  assert (Hc : consumer_m_slot_idx c = 0%nat).
  { destruct (consumer_m_slot_idx c) as [|k] eqn:Hk; [reflexivity|exfalso].
    apply (Hlow 0%nat (MkSlot Free 0)); [lia| |reflexivity].
    rewrite Hs1. apply lookup_replicate_2. assumption. }
  rewrite Hc, Hs1, Hh1 in Hsl2. rewrite Hh1 in Hh2.
  assert (Hwf2 : wf q2).
  { destruct Hwf1 as [Hlb Hls]. unfold wf.
    rewrite Hb2, Hsl2, length_insert, length_replicate. split; [exact Hlb|reflexivity]. }
  assert (Hact2 : forall i s, m_slots q2 !! i = Some s -> state s = Active ->
                    s = MkSlot Active (U64.modulus - 1)).
  { intros i s Hi Ha. rewrite Hsl2 in Hi.
    destruct (decide (i = 0%nat)) as [->|Hne].
    - rewrite list_lookup_insert_eq in Hi by (rewrite length_replicate; assumption).
      injection Hi as <-. reflexivity.
    - rewrite list_lookup_insert_ne in Hi by auto.
      apply lookup_replicate_1 in Hi as [-> _]. discriminate. }
  (* one push takes the producer cursor around to zero *)
  destruct (pushes_unchecked v 1 q2 Hwf2) as (q3 & Hrun3 & Hwf3 & Hh3 & Hs3).
  { rewrite Hh2. unfold U64.in_range. lia. }
  { rewrite Hh2. lia. }
  { intros i s Hi Ha. rewrite (Hact2 i s Hi Ha), Hh2. cbn [tail]. lia. }
  rewrite Hh2 in Hh3.
  replace (U64.modulus - 1 + Z.of_nat 1) with U64.modulus in Hh3 by lia.
  unfold U64.wrap in Hh3. rewrite Z.mod_same in Hh3 by lia.
  (* and [NumSlots] further pushes are accepted as well *)
  destruct (pushes_unchecked v (Z.to_nat NumSlots) q3 Hwf3) as (q4 & Hrun4 & Hwf4 & Hh4 & Hs4).
  { rewrite Hh3. unfold U64.in_range. lia. }
  { rewrite Hh3. lia. }
  { intros i s Hi Ha. rewrite Hs3 in Hi. rewrite (Hact2 i s Hi Ha), Hh3. cbn [tail]. lia. }
  rewrite Hh3, Z.add_0_l, Z2Nat.id, U64.wrap_small in Hh4 by (unfold U64.in_range; lia).
  exists (replicate n (EvPush v true) ++
          EvMakeConsumer (Some c) :: replicate (Z.to_nat (NumSlots + 1)) (EvPush v true)),
         q4, (MkSlot Active (U64.modulus - 1)).
  split; [|split; [|split; [reflexivity|]]].
  - replace (Z.to_nat (NumSlots + 1)) with (1 + Z.to_nat NumSlots)%nat by lia.
    rewrite !replicate_add, run_app, Hrun1.
    cbn -[make_consumer replicate app]. rewrite Hmake.
    cbn -[replicate app]. rewrite run_app, Hrun3.
    cbn -[replicate app]. rewrite Hrun4. reflexivity.
  - rewrite Hs4, Hs3, Hsl2.
    apply list_lookup_insert_eq. rewrite length_replicate. assumption.
  - rewrite Hh4. cbn [tail]. unfold U64.sub, U64.wrap.
    replace (NumSlots - (U64.modulus - 1)) with (NumSlots + 1 + (-1) * U64.modulus) by lia.
    rewrite Z.mod_add by lia. apply Z.mod_small. lia.
Qed.

(** *** Inside [make_consumer]

    [make_consumer] loads [m_head] first and scans the slots afterwards;
    the statements of this development take the whole call as one step.
    [make_consumer_scan] makes the loaded value explicit. *)

(** X10 (a push between load and scan).  When the producer pushes [NumSlots +
    1] values on a fresh queue between [make_consumer]'s load of [m_head]
    and its scan of the slots (no slot is [Active] yet, so nothing holds the
    producer back), the new slot becomes [Active] with the cursor loaded
    earlier, [NumSlots + 1] behind the producer. *)
Remark make_consumer_stale_head (v : T) (this : addr) :
  (0 < MaxConsumers)%nat ->
  exists es q1 c q2 s,
    run (replicate (Z.to_nat (NumSlots + 1)) (Push v)) init = Some (es, q1) /\
    make_consumer_scan this (m_head init) (seq 0 MaxConsumers) q1 = (Some c, q2) /\
    m_slots q2 !! consumer_m_slot_idx c = Some s /\ state s = Active /\
    U64.sub (m_head q2) (tail s) = NumSlots + 1.
Proof.
  intros Hmax. pose proof NumSlots_succ_lt_modulus as Hmod.
  assert (Hinit : m_head init = 0 /\ m_slots init = replicate MaxConsumers (MkSlot Free 0))
    by (split; reflexivity).
  destruct Hinit as [Hh0 Hs0].
  destruct (pushes_unchecked v (Z.to_nat (NumSlots + 1)) init wf_init)
    as (q1 & Hrun1 & Hwf1 & Hh1 & Hs1).
  { rewrite Hh0. unfold U64.in_range. lia. }
  { rewrite Hh0. lia. }
  { intros i s Hi Ha. rewrite Hs0 in Hi. apply lookup_replicate_1 in Hi as [-> _].
    discriminate. }
  rewrite Hh0, Z.add_0_l, Z2Nat.id, U64.wrap_small in Hh1 by (unfold U64.in_range; lia).
  rewrite Hs0 in Hs1.
  pose proof (make_consumer_scan_seq this 0 q1 MaxConsumers 0) as Hscan.
  destruct (make_consumer_scan this 0 (seq 0 MaxConsumers) q1) as [[c|] q2] eqn:Hmake.
  - destruct Hscan as (_ & Hidx & _ & _ & ->).
    exists (replicate (Z.to_nat (NumSlots + 1)) (EvPush v true)), q1, c.
    eexists. exists (MkSlot Active 0).
    split; [exact Hrun1|]. split; [rewrite Hh0; exact Hmake|].
    split; [|split; [reflexivity|]].
    + rewrite attach_slots by (rewrite Hs1, length_replicate; lia).
      apply list_lookup_insert_eq. rewrite Hs1, length_replicate. lia.
    + cbn [m_head store_state store_tail tail]. rewrite Hh1.
      rewrite U64.sub_small by lia. lia.
  - exfalso. destruct Hscan as [_ Hnone]. apply (Hnone 0%nat); [lia|].
    rewrite Hs1, lookup_total_replicate_2 by assumption. reflexivity.
Qed.

(** *** Pushing without consumers, and running out of consumer slots *)


Lemma run_unfold o ops q :
  run (o :: ops) q =
    '(e, q') ← step o q; '(es, q'') ← run ops q'; Some (e :: es, q'').
Proof. reflexivity. Qed.


(** The slot table after [k] consumers attached to a fresh queue. *)
Lemma attach_first_slots (this : addr) (k : nat) :
  (k <= MaxConsumers)%nat ->
  exists q,
    run (replicate k (MakeConsumer this)) init =
      Some (map (fun i => EvMakeConsumer (Some (MkConsumer (Some this) i))) (seq 0 k), q) /\
    wf q /\ m_head q = 0 /\
    m_slots q = replicate k (MkSlot Active 0) ++ replicate (MaxConsumers - k) (MkSlot Free 0).
Proof.
  induction k as [|k IH]; intros Hk.
  - exists init. simpl. split; [reflexivity|]. split; [apply wf_init|]. split; [reflexivity|].
    rewrite Nat.sub_0_r. reflexivity.
  - destruct (IH ltac:(lia)) as (q & Hrun & Hwf & Hh & Hsl).
    pose proof (make_consumer_spec this q Hwf) as Hspec.
    assert (Hfree : m_slots q !! k = Some (MkSlot Free 0)).
    { rewrite Hsl, lookup_app_r by (rewrite length_replicate; lia).
      rewrite length_replicate, Nat.sub_diag. apply lookup_replicate_2. lia. }
    destruct (make_consumer this q) as [[c|] q'] eqn:Hmake.
    + destruct Hspec as (Hptr & (s & Hs & Hsf) & Hlow & _ & Hh' & _ & Hsl').
      assert (Hidx : consumer_m_slot_idx c = k).
      { destruct (lt_eq_lt_dec (consumer_m_slot_idx c) k) as [[Hlt|Heq]|Hgt].
        - exfalso. rewrite Hsl, lookup_app_l in Hs by (rewrite length_replicate; lia).
          apply lookup_replicate_1 in Hs as [-> _]. discriminate.
        - exact Heq.
        - exfalso. exact (Hlow k _ Hgt Hfree eq_refl). }
      destruct c as [cq ci]. simpl in Hptr, Hidx, Hsl'. subst cq ci.
      exists q'. split; [|split; [|split]].
      * rewrite seq_S, map_app, replicate_S_end, run_app, Hrun.
        cbn [mbind option_bind]. rewrite run_unfold. cbn [step]. rewrite Hmake.
        reflexivity.
      * destruct Hwf as [Hb Hs']. split.
        -- unfold make_consumer in Hmake.
           pose proof (make_consumer_scan_seq this (m_head q) q MaxConsumers 0) as Hscan.
           rewrite Hmake in Hscan. destruct Hscan as (_ & _ & _ & _ & ->). exact Hb.
        -- rewrite Hsl', length_insert. exact Hs'.
      * rewrite Hh'. exact Hh.
      * rewrite Hsl', Hsl, Hh.
        rewrite insert_app_r_alt by (rewrite length_replicate; lia).
        rewrite length_replicate, Nat.sub_diag.
        replace (MaxConsumers - k)%nat with (S (MaxConsumers - S k)) by lia.
        rewrite (replicate_S_end k), <- app_assoc. reflexivity.
    + exfalso. destruct Hspec as [_ Hnone]. exact (Hnone k _ Hfree eq_refl).
Qed.

(** X12 (consumer slots run out).  [make_consumer] returns nothing exactly
    when no slot is [Free], and then leaves the queue as it is.  On a fresh
    queue the first [MaxConsumers] calls succeed and hand out the slot
    indices [0, 1, ..., MaxConsumers - 1] in this order; the call after them
    returns nothing. *)
Theorem spmc_consumer_slots_run_out (this : addr) :
  (forall q, wf q ->
     ((make_consumer this q).1 = None <->
      forall j s, m_slots q !! j = Some s -> state s <> Free) /\
     ((make_consumer this q).1 = None -> (make_consumer this q).2 = q)) /\
  exists q,
    run (replicate MaxConsumers (MakeConsumer this)) init =
      Some (map (fun i => EvMakeConsumer (Some (MkConsumer (Some this) i)))
                (seq 0 MaxConsumers), q) /\
    make_consumer this q = (None, q).
Proof.
  assert (Hgen : forall q, wf q ->
     ((make_consumer this q).1 = None <->
      forall j s, m_slots q !! j = Some s -> state s <> Free) /\
     ((make_consumer this q).1 = None -> (make_consumer this q).2 = q)).
  { intros q Hwf. pose proof (make_consumer_spec this q Hwf) as Hspec.
    destruct (make_consumer this q) as [[c|] q']; simpl.
    - destruct Hspec as (_ & (s & Hs & Hf) & _). split; [|discriminate].
      split; [discriminate|]. intros Hnone. destruct (Hnone _ s Hs Hf).
    - destruct Hspec as [-> Hnone]. split; [|reflexivity]. split; auto. }
  split; [exact Hgen|].
  destruct (attach_first_slots this MaxConsumers ltac:(lia)) as (q & Hrun & Hwf & _ & Hsl).
  exists q. split; [exact Hrun|].
  destruct (Hgen q Hwf) as [[_ Hnone] Hsame].
  assert (Hn : (make_consumer this q).1 = None).
  { apply Hnone. intros j s Hs. rewrite Hsl, Nat.sub_diag, app_nil_r in Hs.
    apply lookup_replicate_1 in Hs as [-> _]. discriminate. }
  specialize (Hsame Hn). destruct (make_consumer this q) as [r q']. simpl in *. congruence.
Qed.

(** *** What a consumer still has to receive *)

(** X13 (consumer backlog).  Let a consumer attach to a queue reached from a
    fresh one, and let any operations follow that neither destroy nor assign
    over its handle; fewer than [2^64] pushes are made in all.  Then the
    consumer's [count_snapshot_impl] is the number of values accepted since
    it attached that it has not received yet; [peek] reports the first of
    them, which is the value its next [pop] returns; and [pop] and [peek]
    report "empty" exactly when it has received every value accepted since
    it attached. *)
Theorem spmc_consumer_backlog (pre post : list op) (this : addr) (c : Consumer)
    (es1 es2 : list event) (q1 q2 q3 : SPMCQueue) (out : T) :
  run pre init = Some (es1, q1) ->
  make_consumer this q1 = (Some c, q2) ->
  run post q2 = Some (es2, q3) ->
  Forall (fun o => detaches (consumer_m_slot_idx c) o = false) post ->
  Z.of_nat (push_count pre) + Z.of_nat (push_count post) < U64.modulus ->
  let idx := consumer_m_slot_idx c in
  let next := pushed es2 !! length (popped idx es2) in
  count_snapshot_impl_idx idx q3 =
    Some (Z.of_nat (length (pushed es2)) - Z.of_nat (length (popped idx es2))) /\
  peek idx q3 = Some next /\
  peek_out out idx q3 =
    Some (match next with Some v => (true, v) | None => (false, out) end) /\
  (exists q4, pop_impl idx q3 = Some (next, q4)) /\
  (next = None <-> length (popped idx es2) = length (pushed es2)).
Proof.
  intros Hpre Hmake Hpost Hstay Hcount idx next.
  assert (Hq1 : records q1 (pushed es1)).
  { apply (records_run pre init [] es1 q1 records_init); [simpl; lia|assumption]. }
  pose proof (records_make_consumer this q1 _ Hq1) as Hq2.
  pose proof (make_consumer_spec this q1 (records_wf _ _ Hq1)) as Hspec.
  rewrite Hmake in Hq2, Hspec. simpl in Hq2.
  destruct Hspec as (_ & (s & Hs & _) & _ & _ & _ & _ & Hsl).
  pose proof Hq1 as (_ & Hhead & _).
  assert (Hatt : attached idx (m_head q1) q2).
  { unfold attached. rewrite Hsl. apply list_lookup_insert_eq. eapply lookup_lt_Some, Hs. }
  pose proof (length_pushed_run _ _ _ _ Hpre) as Hlen.
  destruct (attached_run idx post q2 (pushed es1) (m_head q1) es2 q3
              Hq2 Hatt Hstay ltac:(lia) Hpost) as (t' & Hatt' & Ht & Hdrop).
  rewrite Hhead, Nat2Z.id, drop_app_length in Hdrop.
  pose proof (length_pushed_run _ _ _ _ Hpost) as Hlen2.
  assert (Hq3 : records q3 (pushed es1 ++ pushed es2)).
  { apply (records_run post q2 _ es2 q3 Hq2); [lia|assumption]. }
  pose proof Hq3 as (_ & Hhead3 & Hlt3 & Hbuf3 & Hslots3).
  destruct (Hslots3 idx _ Hatt' eq_refl) as [Ht0 Ht1]. cbn [tail] in Ht0, Ht1.
  rewrite length_app, Nat2Z.inj_add in Hhead3.
  assert (Hpop : Z.of_nat (length (popped idx es2)) = t' - m_head q1).
  { apply (f_equal length) in Hdrop. rewrite length_app, length_drop, length_app in Hdrop.
    lia. }
  assert (Hnext : next = (pushed es1 ++ pushed es2) !! Z.to_nat t').
  { unfold next. rewrite lookup_app_r by lia. f_equal. lia. }
  assert (Hcases : (m_head q3 <= t' /\ next = None) \/
                   (t' < m_head q3 /\ exists v, next = Some v /\
                      m_buffer q3 !!! to_index t' = v)).
  { destruct (Z_lt_le_dec t' (m_head q3)) as [Hlt|Hge]; [right|left].
    - split; [exact Hlt|].
      destruct (lookup_lt_is_Some_2 (pushed es1 ++ pushed es2) (Z.to_nat t')) as [v Hv].
      { rewrite length_app. lia. }
      exists v. split; [rewrite Hnext; exact Hv|].
      apply list_lookup_total_correct.
      specialize (Hbuf3 (Z.to_nat t') v Hv). rewrite Z2Nat.id in Hbuf3 by lia.
      apply Hbuf3. rewrite length_app. lia.
    - split; [exact Hge|]. rewrite Hnext. apply lookup_ge_None_2.
      rewrite length_app. lia. }
  unfold attached in Hatt'.
  split; [|split; [|split; [|split]]].
  - unfold count_snapshot_impl_idx. rewrite Hatt'. cbn [mbind option_bind tail].
    rewrite U64.sub_small by lia.
    destruct (Z.gtb_spec (m_head q3 - t') NumSlots); [lia|]. f_equal. lia.
  - unfold peek. rewrite Hatt'. cbn [mbind option_bind tail].
    destruct Hcases as [[Hge ->]|(Hlt & v & -> & Hv)].
    + destruct (Z.geb_spec t' (m_head q3)); [reflexivity|lia].
    + destruct (Z.geb_spec t' (m_head q3)); [lia|]. rewrite Hv. reflexivity.
  - unfold peek_out. rewrite Hatt'. cbn [mbind option_bind tail].
    destruct Hcases as [[Hge ->]|(Hlt & v & -> & Hv)].
    + destruct (Z.geb_spec t' (m_head q3)); [reflexivity|lia].
    + destruct (Z.geb_spec t' (m_head q3)); [lia|]. rewrite Hv. reflexivity.
  - unfold pop_impl. rewrite Hatt'. cbn [mbind option_bind tail].
    destruct Hcases as [[Hge ->]|(Hlt & v & -> & Hv)].
    + destruct (Z.geb_spec t' (m_head q3)); [eauto|lia].
    + destruct (Z.geb_spec t' (m_head q3)); [lia|]. rewrite Hv. eauto.
  - destruct Hcases as [[Hge ->]|(Hlt & v & -> & Hv)].
    + split; [intros _; lia|reflexivity].
    + split; [discriminate|lia].
Qed.

(** X14 (broadcast).  The queue broadcasts.  Let two slots be [Active] with
    their cursors at the producer cursor (two consumers that have just
    attached, or have caught up), in a state reached from a fresh queue, and
    let any operations follow that detach neither; fewer than [2^64] pushes
    are made in all.  Then each of the two consumers is delivered, in order
    and without gaps, the first of the values accepted from then on, so the
    [k]-th value one of them receives is the [k]-th value the other
    receives. *)
Theorem spmc_broadcast_same_stream (pre post : list op) (i j : nat)
    (es1 es2 : list event) (q1 q2 : SPMCQueue) :
  run pre init = Some (es1, q1) ->
  attached i (m_head q1) q1 -> attached j (m_head q1) q1 ->
  run post q1 = Some (es2, q2) ->
  Forall (fun o => detaches i o = false) post ->
  Forall (fun o => detaches j o = false) post ->
  Z.of_nat (push_count pre) + Z.of_nat (push_count post) < U64.modulus ->
  popped i es2 `prefix_of` pushed es2 /\
  popped j es2 `prefix_of` pushed es2 /\
  (forall k v w, popped i es2 !! k = Some v -> popped j es2 !! k = Some w -> v = w).
Proof.
  intros Hpre Hi Hj Hpost Hsi Hsj Hcount.
  assert (Hq1 : records q1 (pushed es1)).
  { apply (records_run pre init [] es1 q1 records_init); [simpl; lia|assumption]. }
  pose proof Hq1 as (_ & Hhead & _).
  pose proof (length_pushed_run _ _ _ _ Hpre) as Hlen.
  assert (Hpref : forall s, attached s (m_head q1) q1 ->
                    Forall (fun o => detaches s o = false) post ->
                    popped s es2 `prefix_of` pushed es2).
  { intros s Hs Hstay.
    destruct (attached_run s post q1 (pushed es1) (m_head q1) es2 q2
                Hq1 Hs Hstay ltac:(lia) Hpost) as (t' & _ & _ & Hdrop).
    rewrite Hhead, Nat2Z.id, drop_app_length in Hdrop. eexists. exact Hdrop. }
  pose proof (Hpref i Hi Hsi) as Hpi. pose proof (Hpref j Hj Hsj) as Hpj.
  split; [exact Hpi|]. split; [exact Hpj|].
  intros k v w Hv Hw. destruct Hpi as [ri Hri]. destruct Hpj as [rj Hrj].
  assert (H1 : pushed es2 !! k = Some v) by (rewrite Hri; apply lookup_app_l_Some, Hv).
  assert (H2 : pushed es2 !! k = Some w) by (rewrite Hrj; apply lookup_app_l_Some, Hw).
  congruence.
Qed.

(** X15 (producer count).  In every state reached from a fresh queue with
    fewer than [2^64] pushes, the producer's [count_snapshot_impl] is the
    largest of the [Active] consumers' counts: no [Active] consumer has more
    values waiting than it reports, and unless it reports 0 some [Active]
    consumer has exactly that many. *)
Theorem spmc_producer_count_is_largest (ops : list op) (es : list event) (q : SPMCQueue) :
  run ops init = Some (es, q) ->
  Z.of_nat (push_count ops) < U64.modulus ->
  (forall i s n, m_slots q !! i = Some s -> state s = Active ->
     count_snapshot_impl_idx i q = Some n -> n <= count_snapshot_impl q) /\
  (count_snapshot_impl q = 0 \/
   exists i s, m_slots q !! i = Some s /\ state s = Active /\
     count_snapshot_impl_idx i q = Some (count_snapshot_impl q)).
Proof.
  intros Hrun Hcount.
  assert (Hq : records q (pushed es)).
  { apply (records_run ops init [] es q records_init); [simpl; lia|assumption]. }
  pose proof NumSlots_succ_lt_modulus as Hmod.
  pose proof Hq as (_ & Hhead & Hlt & _ & Hslots).
  destruct (records_min_tail q _ Hq) as (Hm0 & Hm1 & Hmsub).
  destruct (min_tail_snapshot_spec (m_head q) q) as (_ & Hmin & Hwho).
  assert (Hc : count_snapshot_impl q = m_head q - min_tail_snapshot (m_head q) q).
  { unfold count_snapshot_impl. rewrite Hmsub.
    destruct (Z.gtb_spec (m_head q - min_tail_snapshot (m_head q) q) NumSlots); [lia|reflexivity]. }
  assert (Hci : forall i s, m_slots q !! i = Some s -> state s = Active ->
                  count_snapshot_impl_idx i q = Some (m_head q - tail s)).
  { intros i s Hs Ha. destruct (Hslots i s Hs Ha) as [H0 H1].
    unfold count_snapshot_impl_idx. rewrite Hs. cbn [mbind option_bind].
    rewrite U64.sub_small by lia.
    destruct (Z.gtb_spec (m_head q - tail s) NumSlots); [lia|reflexivity]. }
  split.
  - intros i s n Hs Ha Hn. rewrite (Hci i s Hs Ha) in Hn. injection Hn as <-.
    specialize (Hmin i s Hs Ha). lia.
  - destruct Hwho as [Heq|(i & s & Hs & Ha & Heq)].
    + left. rewrite Hc, Heq. lia.
    + right. exists i, s. split; [exact Hs|]. split; [exact Ha|].
      rewrite (Hci i s Hs Ha), Hc, Heq. reflexivity.
Qed.

(** *** Slots that are not [Active] *)

Lemma min_tail_visit_foldl_alter (f : ConsumerSlot -> ConsumerSlot) (slots : list ConsumerSlot) :
  forall (i : nat) (acc : Z * bool),
  (forall s, slots !! i = Some s -> state s <> Active /\ state (f s) <> Active) ->
  foldl min_tail_visit acc (alter f i slots) = foldl min_tail_visit acc slots.
Proof.
  induction slots as [|s slots IH]; intros i [m0 any0] Hi; [reflexivity|].
  destruct i as [|i]; cbn [alter list_alter foldl].
  - destruct (Hi s eq_refl) as [H1 H2].
    destruct (min_tail_visit_spec m0 any0 s) as (_ & _ & _ & Hs).
    destruct (min_tail_visit_spec m0 any0 (f s)) as (_ & _ & _ & Hfs).
    rewrite (Hs H1), (Hfs H2). reflexivity.
  - apply IH. intros s' Hs'. apply Hi. exact Hs'.
Qed.

(** X16 (slots that are not [Active]).  The cursor of a slot that is not
    [Active] is never looked at by the producer.  Whatever value the cursor
    of a [Free] or [Initializing] slot holds (the stale one a move
    assignment leaves behind, or the one [make_consumer] has not written
    yet), [min_tail_snapshot], the outcome of [push_impl] and the producer's
    [count_snapshot_impl] are the same; and [make_consumer] never hands out
    a slot that is [Initializing]. *)
Theorem spmc_inactive_slot_ignored (i : nat) (v : Z) (q : SPMCQueue) (item : T) :
  wf q ->
  (forall s, m_slots q !! i = Some s -> state s <> Active) ->
  (forall head, min_tail_snapshot head (store_tail i v q) = min_tail_snapshot head q) /\
  (push_impl item (store_tail i v q)).1 = (push_impl item q).1 /\
  count_snapshot_impl (store_tail i v q) = count_snapshot_impl q /\
  (forall this c q' s,
     m_slots q !! i = Some s -> state s = Initializing ->
     make_consumer this q = (Some c, q') -> consumer_m_slot_idx c <> i).
Proof.
  intros Hwf Hna.
  assert (Hmin : forall head,
            min_tail_snapshot head (store_tail i v q) = min_tail_snapshot head q).
  { intros head. unfold min_tail_snapshot, store_tail. cbn [m_slots].
    rewrite min_tail_visit_foldl_alter; [reflexivity|].
    intros s Hs. split; [exact (Hna s Hs)|exact (Hna s Hs)]. }
  split; [exact Hmin|]. split; [|split].
  - unfold push_impl. cbn [m_head store_tail]. rewrite Hmin.
    destruct (U64.sub (m_head q) (min_tail_snapshot (m_head q) q) >=? NumSlots); reflexivity.
  - unfold count_snapshot_impl. cbn [m_head store_tail]. rewrite Hmin. reflexivity.
  - intros this c q' s Hs Hinit Hmake Heq.
    pose proof (make_consumer_spec this q Hwf) as Hspec. rewrite Hmake in Hspec.
    destruct Hspec as (_ & (s' & Hs' & Hfree) & _). rewrite Heq, Hs in Hs'.
    injection Hs' as <-. congruence.
Qed.

(** *** Letting the producer go on *)

(** X17 (backpressure is released).  In a state reached from a fresh queue
    with fewer than [2^64] pushes, let slot [i] be [Active] and let every
    other [Active] consumer have fewer than [NumSlots] values waiting.
    Then [push] is refused exactly when consumer [i] has [NumSlots] values
    waiting; in that case a [pop] by consumer [i] returns a value and the
    next [push] is accepted; and whatever consumer [i] has waiting, once
    its handle is destroyed the next [push] is accepted. *)
Theorem spmc_backpressure_released (ops : list op) (es : list event) (q : SPMCQueue)
    (i : nat) (s : ConsumerSlot) (item : T) :
  run ops init = Some (es, q) ->
  Z.of_nat (push_count ops) < U64.modulus ->
  m_slots q !! i = Some s -> state s = Active ->
  (forall j s', j <> i -> m_slots q !! j = Some s' -> state s' = Active ->
     m_head q - tail s' < NumSlots) ->
  ((push_impl item q).1 = false <-> m_head q - tail s = NumSlots) /\
  (m_head q - tail s = NumSlots ->
   exists v q1, pop_impl i q = Some (Some v, q1) /\ (push_impl item q1).1 = true) /\
  (exists q1, step (DropConsumer i) q = Some (EvDrop, q1) /\ (push_impl item q1).1 = true).
Proof.
  intros Hrun Hcount Hs Hact Hothers.
  assert (Hq : records q (pushed es)).
  { apply (records_run ops init [] es q records_init); [simpl; lia|assumption]. }
  pose proof NumSlots_succ_lt_modulus as Hmod.
  assert (Hroom : forall q1 hist,
            records q1 hist ->
            (forall j s', m_slots q1 !! j = Some s' -> state s' = Active ->
               m_head q1 - tail s' < NumSlots) ->
            (push_impl item q1).1 = true).
  { intros q1 hist Hq1 Hall.
    destruct (records_min_tail q1 hist Hq1) as (_ & _ & Hsub).
    destruct (min_tail_snapshot_spec (m_head q1) q1) as (_ & _ & Hwho).
    destruct ((push_impl item q1).1) eqn:Hp; [reflexivity|exfalso].
    apply spmc_push_impl_full_iff in Hp. rewrite Hsub in Hp.
    destruct Hwho as [Heq|(j & s' & Hj & Ha & Heq)].
    - rewrite Heq in Hp. lia.
    - specialize (Hall j s' Hj Ha). rewrite Heq in Hp. lia. }
  pose proof Hq as (Hwf & Hhead & Hltm & _ & Hslots).
  destruct (Hslots i s Hs Hact) as [Ht0 Ht1].
  split; [|split].
  - rewrite spmc_push_impl_full_iff.
    destruct (records_min_tail q _ Hq) as (_ & Hm & Hsub). rewrite Hsub.
    destruct (min_tail_snapshot_spec (m_head q) q) as (_ & Hmin & Hwho).
    split.
    + intros Hfull. destruct Hwho as [Heq|(j & s' & Hj & Ha & Heq)]; [lia|].
      destruct (decide (j = i)) as [->|Hne].
      * rewrite Hs in Hj. injection Hj as <-. lia.
      * specialize (Hothers j s' Hne Hj Ha). lia.
    + intros Hfull. specialize (Hmin i s Hs Hact). lia.
  - intros Hfull.
    assert (Hlt : tail s < m_head q) by lia.
    exists (m_buffer q !!! to_index (tail s)), (store_tail i (U64.add (tail s) 1) q).
    split.
    + unfold pop_impl. rewrite Hs. cbn [mbind option_bind].
      destruct (Z.geb_spec (tail s) (m_head q)); [lia|reflexivity].
    + apply (Hroom _ (pushed es)); [apply (records_store_tail i s q _ Hq Hs Hlt)|].
      intros j s' Hj Ha. unfold store_tail in Hj. cbn [m_slots m_head] in Hj |- *.
      rewrite list_lookup_alter in Hj. destruct (decide (i = j)) as [<-|Hne].
      * rewrite Hs in Hj. simpl in Hj. injection Hj as <-. cbn [tail m_head store_tail].
        rewrite U64.add_small by lia. lia.
      * apply (Hothers j s'); [congruence|exact Hj|exact Ha].
  - exists (store_state i Free (store_tail i 0 q)). split.
    + simpl. rewrite Hs. reflexivity.
    + apply (Hroom _ (pushed es)); [apply records_detach, Hq|].
      intros j s' Hj Ha.
      rewrite detach_slots in Hj by (eapply lookup_lt_Some, Hs).
      cbn [m_head store_state store_tail].
      rewrite list_lookup_insert in Hj. destruct (decide (i = j)) as [<-|Hne].
      * rewrite decide_True in Hj by (split; [reflexivity|eapply lookup_lt_Some, Hs]).
        injection Hj as <-. discriminate.
      * rewrite decide_False in Hj by (intros [? _]; congruence).
        apply (Hothers j s'); [congruence|exact Hj|exact Ha].
Qed.

(** *** Consumer handles and their slots *)

(** X18 (consumer slots and handles).  In every world a program can reach,
    consumer handles and [Active] slots correspond one to one.  No two live
    handles point to the same slot of the same queue; the slot a handle
    points to is [Active] and lies inside the slot table, so that [pop],
    [try_pop] and the destructor through that handle never index outside
    [m_slots]; and every [Active] slot has a handle pointing to it. *)
Theorem consumer_slots_exclusive (w : World) :
  reachable w ->
  (forall h1 h2 r, slot_of w h1 = Some r -> slot_of w h2 = Some r -> h1 = h2) /\
  (forall h a i, slot_of w h = Some (a, i) ->
     (i < MaxConsumers)%nat /\
     (exists q s, w_queues w !! a = Some q /\ m_slots q !! i = Some s /\ state s = Active) /\
     (forall out, is_Some (wstep (WPop h) w) /\ is_Some (wstep (WTryPop h out) w)) /\
     is_Some (wstep (WDestroyConsumer h) w)) /\
  (forall a q i s, w_queues w !! a = Some q -> m_slots q !! i = Some s -> state s = Active ->
     exists h, slot_of w h = Some (a, i)).
Proof.
  intros Hreach. destruct (spmc_reachable_world_ok w Hreach) as [(H1 & H2 & H3) Hwf].
  split; [exact H2|]. split.
  - intros h a i Hh. pose proof (H1 h (a, i) Hh) as Hact.
    unfold active_at in Hact. simpl in Hact.
    destruct (w_queues w !! a) as [q|] eqn:Hq; simpl in Hact; [|discriminate].
    unfold active in Hact.
    destruct (m_slots q !! i) as [s|] eqn:Hs; simpl in Hact; [|discriminate].
    injection Hact as Hact. apply bool_decide_eq_true in Hact.
    unfold slot_of in Hh.
    destruct (w_consumers w !! h) as [c|] eqn:Hc; simpl in Hh; [|discriminate].
    destruct c as [[a0|] i0]; simpl in Hh; [|discriminate]. injection Hh as -> ->.
    split; [|split; [|split]].
    + destruct (Hwf a q Hq) as [_ Hlen]. apply lookup_lt_Some in Hs. lia.
    + eauto.
    + intros out. split; simpl; rewrite Hc; simpl.
      * unfold Consumer_pop. simpl. rewrite Hq. simpl.
        unfold pop_impl. rewrite Hs. simpl.
        destruct (tail s >=? m_head q); simpl; eauto.
      * unfold Consumer_try_pop. simpl. rewrite Hq. simpl.
        unfold try_pop_impl. rewrite Hs. simpl.
        destruct (tail s >=? m_head q); simpl; eauto.
    + simpl. rewrite Hc. simpl. unfold Consumer_dtor. simpl. rewrite Hq. simpl.
      rewrite Hs. simpl. eauto.
  - intros a q i s Hq Hs Hact. apply (H3 (a, i)).
    unfold active_at. simpl. rewrite Hq. simpl. unfold active. rewrite Hs. simpl.
    rewrite bool_decide_eq_true_2 by assumption. reflexivity.
Qed.

(** *** The producer handle of the broadcast queue *)

(** [~Producer()], acting on the store of queue objects. *)
Definition Producer_dtor (self : Producer) (σ : gmap addr SPMCQueue) : gmap addr SPMCQueue :=
  match producer_m_queue self with
  | Some a => alter (store_producer_claimed false) a σ
  | None => σ
  end.

(** [Producer(Producer&& other)]: the new object and [other] afterwards. *)
Definition Producer_move_ctor (other : Producer) : Producer * Producer :=
  (MkProducer (producer_m_queue other), MkProducer None).

(** [Producer::operator=(Producer&& other)] on two distinct objects
    ([this != &other]): [*this] and [other] afterwards, and the store. *)
Definition Producer_move_assign (self other : Producer) (σ : gmap addr SPMCQueue)
  : Producer * Producer * gmap addr SPMCQueue :=
  let σ' :=
    match producer_m_queue self with
    | Some a => alter (store_producer_claimed false) a σ
    | None => σ
    end in
  (MkProducer (producer_m_queue other), MkProducer None, σ').

(** Queue objects and the producer handle objects alive at the moment. *)
Record PWorld : Type := MkPWorld {
  pw_queues : gmap addr SPMCQueue;
  pw_producers : gmap hid Producer
}.

(** The operations that go through consumer handles. *)
Definition consumer_side (o : op) : bool :=
  match o with
  | Pop _ | TryPop _ _ | MakeConsumer _ | DropConsumer _ | AssignOverConsumer _ => true
  | Push _ | MakeProducer _ | DropProducer => false
  end.

(** The statements a program can execute on producer handles;
    [PConsumers a o] is whatever consumer handles do to the queue at
    [a] meanwhile. *)
Inductive pwop : Type :=
| PMakeProducer (a : addr) (h : hid)
| PDestroyProducer (h : hid)
| PMoveProducer (h' h : hid)
| PAssignProducer (h' h : hid)
| PPush (h : hid) (item : T)
| PConsumers (a : addr) (o : op).

(** One statement; [None] as for [wstep]. *)
Definition pwstep (o : pwop) (w : PWorld) : option PWorld :=
  match o with
  | PMakeProducer a h =>
      if decide (pw_producers w !! h = None) then
        q ← pw_queues w !! a;
        match make_producer a q with
        | (Some p, q') =>
            Some (MkPWorld (<[a := q']> (pw_queues w)) (<[h := p]> (pw_producers w)))
        | (None, q') => Some (MkPWorld (<[a := q']> (pw_queues w)) (pw_producers w))
        end
      else None
  | PDestroyProducer h =>
      p ← pw_producers w !! h;
      Some (MkPWorld (Producer_dtor p (pw_queues w)) (delete h (pw_producers w)))
  | PMoveProducer h' h =>
      if decide (pw_producers w !! h' = None) then
        p ← pw_producers w !! h;
        let '(pnew, pold) := Producer_move_ctor p in
        Some (MkPWorld (pw_queues w) (<[h' := pnew]> (<[h := pold]> (pw_producers w))))
      else None
  | PAssignProducer h' h =>
      p' ← pw_producers w !! h';
      p ← pw_producers w !! h;
      if decide (h' = h) then Some w
      else
        let '(p1, p2, σ') := Producer_move_assign p' p (pw_queues w) in
        Some (MkPWorld σ' (<[h' := p1]> (<[h := p2]> (pw_producers w))))
  | PPush h item =>
      p ← pw_producers w !! h;
      '(_, σ') ← Producer_push p item (pw_queues w);
      Some (MkPWorld σ' (pw_producers w))
  | PConsumers a o =>
      if consumer_side o then
        q ← pw_queues w !! a;
        '(_, q') ← step o q;
        Some (MkPWorld (<[a := q']> (pw_queues w)) (pw_producers w))
      else None
  end.

(** The worlds a program can bring about from freshly constructed queues
    and no producer handle. *)
Inductive preachable : PWorld -> Prop :=
| preachable_init (σ : gmap addr SPMCQueue) :
    (forall a q, σ !! a = Some q -> q = init) ->
    preachable (MkPWorld σ ∅)
| preachable_step (w w' : PWorld) (o : pwop) :
    preachable w -> pwstep o w = Some w' -> preachable w'.

(** The queue whose producer side the handle [h] points to, and the claim
    flag of the queue at an address. *)
Definition pproducer_of (w : PWorld) (h : hid) : option addr :=
  pw_producers w !! h ≫= producer_m_queue.

Definition pclaimed_at (w : PWorld) (a : addr) : option bool :=
  m_producer_claimed <$> pw_queues w !! a.

Definition pworld_ok (w : PWorld) : Prop :=
  exclusive (pproducer_of w) (pclaimed_at w).

Ltac pworld_lookup :=
  unfold pproducer_of, pclaimed_at;
  cbn [pw_queues pw_producers];
  rewrite ?fn_lookup_insert_decide, ?lookup_insert, ?lookup_delete, ?lookup_alter;
  repeat case_decide; subst; simpl; try congruence; try reflexivity.

Lemma spmc_make_producer_cases this q :
  (m_producer_claimed q = true /\ make_producer this q = (None, q)) \/
  (m_producer_claimed q = false /\
   make_producer this q = (Some (MkProducer (Some this)), store_producer_claimed true q)).
Proof. unfold make_producer. destruct (m_producer_claimed q); auto. Qed.

(** Consumer-side operations and pushes leave the claim flag alone. *)
Lemma step_producer_claimed o q e q' :
  (consumer_side o = true \/ exists item, o = Push item) ->
  step o q = Some (e, q') -> m_producer_claimed q' = m_producer_claimed q.
Proof.
  intros Hside Hstep.
  destruct o as [item|idx|idx out|this|idx|idx|this|];
    try (destruct Hside as [Hside|[? Hside]]; discriminate); simpl in Hstep.
  - unfold push_impl in Hstep.
    destruct (U64.sub (m_head q) (min_tail_snapshot (m_head q) q) >=? NumSlots);
      injection Hstep as _ <-; reflexivity.
  - unfold pop_impl in Hstep.
    destruct (m_slots q !! idx) as [s|]; simpl in Hstep; [|discriminate].
    destruct (tail s >=? m_head q); injection Hstep as _ <-; reflexivity.
  - unfold try_pop_impl in Hstep.
    destruct (m_slots q !! idx) as [s|]; simpl in Hstep; [|discriminate].
    destruct (tail s >=? m_head q); injection Hstep as _ <-; reflexivity.
  - pose proof (make_consumer_scan_seq this (m_head q) q MaxConsumers 0) as Hscan.
    unfold make_consumer in Hstep.
    destruct (make_consumer_scan this (m_head q) (seq 0 MaxConsumers) q) as [[c|] q1];
      injection Hstep as _ <-.
    + destruct Hscan as (_ & _ & _ & _ & ->). reflexivity.
    + destruct Hscan as [-> _]. reflexivity.
  - destruct (m_slots q !! idx); simpl in Hstep; [|discriminate].
    injection Hstep as _ <-. reflexivity.
  - destruct (m_slots q !! idx); simpl in Hstep; [|discriminate].
    injection Hstep as _ <-. reflexivity.
Qed.

Lemma pworld_ok_queues w a q q' :
  pworld_ok w -> pw_queues w !! a = Some q ->
  m_producer_claimed q' = m_producer_claimed q ->
  pworld_ok (MkPWorld (<[a := q']> (pw_queues w)) (pw_producers w)).
Proof.
  intros Hw Hq Hf. apply (exclusive_ext _ _ _ _ Hw); [reflexivity|].
  intros b. pworld_lookup. rewrite Hq. simpl. congruence.
Qed.

Lemma pworld_ok_release w h p :
  pworld_ok w -> pw_producers w !! h = Some p ->
  pworld_ok (MkPWorld (Producer_dtor p (pw_queues w))
                      (<[h := MkProducer None]> (pw_producers w))).
Proof.
  intros Hp Hh. unfold Producer_dtor. destruct p as [[a|]]; simpl.
  - assert (Hown : pproducer_of w h = Some a) by (unfold pproducer_of; rewrite Hh; reflexivity).
    pose proof (proj1 Hp h a Hown) as Htaken. unfold pclaimed_at in Htaken.
    destruct (pw_queues w !! a) as [q|] eqn:Hq; simpl in Htaken; [|discriminate].
    eapply exclusive_ext; [apply (exclusive_release _ _ h a Hp Hown)| |].
    + intros h1. pworld_lookup.
    + intros b. pworld_lookup. rewrite Hq. reflexivity.
  - apply (exclusive_ext _ _ _ _ Hp); [|reflexivity]. intros h1. pworld_lookup.
    rewrite Hh. reflexivity.
Qed.

Lemma pworld_ok_delete w h :
  pworld_ok w -> pproducer_of w h = None ->
  pworld_ok (MkPWorld (pw_queues w) (delete h (pw_producers w))).
Proof.
  intros Hp Hh. apply (exclusive_ext _ _ _ _ Hp); [|reflexivity].
  intros h1. pworld_lookup. symmetry. exact Hh.
Qed.

Lemma pworld_ok_transfer w h h' p :
  pworld_ok w -> h <> h' -> pproducer_of w h' = None -> pw_producers w !! h = Some p ->
  pworld_ok (MkPWorld (pw_queues w)
               (<[h' := MkProducer (producer_m_queue p)]>
                  (<[h := MkProducer None]> (pw_producers w)))).
Proof.
  intros Hp Hne Hh' Hh.
  eapply exclusive_ext; [apply (exclusive_transfer _ _ h h' Hp Hne Hh')| |reflexivity].
  intros h1. unfold pproducer_of at 2. rewrite Hh. pworld_lookup.
Qed.

Lemma pworld_ok_step o w w' : pworld_ok w -> pwstep o w = Some w' -> pworld_ok w'.
Proof.
  intros Hw Hstep. destruct o as [a h|h|h' h|h' h|h item|a o]; simpl in Hstep.
  - case_decide as Hh; [|discriminate].
    destruct (pw_queues w !! a) as [q|] eqn:Hq; simpl in Hstep; [|discriminate].
    destruct (spmc_make_producer_cases a q) as [[Hf Hm]|[Hf Hm]]; rewrite Hm in Hstep;
      injection Hstep as <-.
    + rewrite insert_id by assumption. destruct w; assumption.
    + eapply exclusive_ext; [apply (exclusive_acquire _ _ h a Hw)| |].
      * unfold pproducer_of. rewrite Hh. reflexivity.
      * unfold pclaimed_at. rewrite Hq. simpl. rewrite Hf. reflexivity.
      * intros h1. pworld_lookup.
      * intros b. pworld_lookup.
  - destruct (pw_producers w !! h) as [p|] eqn:Hp; simpl in Hstep; [|discriminate].
    injection Hstep as <-.
    pose proof (pworld_ok_release w h p Hw Hp) as H1.
    apply (pworld_ok_delete _ h) in H1.
    + simpl in H1. rewrite delete_insert_eq in H1. exact H1.
    + unfold pproducer_of; simpl. rewrite lookup_insert_eq. reflexivity.
  - case_decide as Hh'; [|discriminate].
    destruct (pw_producers w !! h) as [p|] eqn:Hp; simpl in Hstep; [|discriminate].
    injection Hstep as <-.
    apply pworld_ok_transfer; try assumption.
    + intros ->. congruence.
    + unfold pproducer_of. rewrite Hh'. reflexivity.
  - destruct (pw_producers w !! h') as [p'|] eqn:Hp'; simpl in Hstep; [|discriminate].
    destruct (pw_producers w !! h) as [p|] eqn:Hp; simpl in Hstep; [|discriminate].
    case_decide as Hne; [injection Hstep as <-; assumption|].
    injection Hstep as <-.
    pose proof (pworld_ok_release w h' p' Hw Hp') as H1.
    apply (pworld_ok_transfer _ h h' p) in H1; simpl; try congruence.
    + simpl in H1.
      replace (<[h':=MkProducer (producer_m_queue p)]> (<[h:=MkProducer None]> (pw_producers w)))
        with (<[h':=MkProducer (producer_m_queue p)]>
                (<[h:=MkProducer None]> (<[h':=MkProducer None]> (pw_producers w))));
        [exact H1|].
      apply map_eq. intros i. rewrite !lookup_insert. repeat case_decide; congruence.
    + unfold pproducer_of; simpl. rewrite lookup_insert_eq. reflexivity.
    + rewrite lookup_insert_ne by assumption. assumption.
  - destruct (pw_producers w !! h) as [p|]; simpl in Hstep; [|discriminate].
    unfold Producer_push in Hstep.
    destruct (producer_m_queue p) as [a|]; simpl in Hstep; [|discriminate].
    destruct (pw_queues w !! a) as [q|] eqn:Hq; simpl in Hstep; [|discriminate].
    destruct (push_impl item q) as [ok q'] eqn:Hpush. simpl in Hstep. injection Hstep as <-.
    apply (pworld_ok_queues w a q q' Hw Hq).
    apply (step_producer_claimed (Push item) q (EvPush item ok) q'); [right; eauto|].
    simpl. rewrite Hpush. reflexivity.
  - destruct (consumer_side o) eqn:Hside; [|discriminate].
    destruct (pw_queues w !! a) as [q|] eqn:Hq; simpl in Hstep; [|discriminate].
    destruct (step o q) as [[e q']|] eqn:Hs; simpl in Hstep; [|discriminate].
    injection Hstep as <-.
    apply (pworld_ok_queues w a q q' Hw Hq).
    apply (step_producer_claimed o q e q'); [left; exact Hside|exact Hs].
Qed.

Lemma preachable_pworld_ok w : preachable w -> pworld_ok w.
Proof.
  induction 1 as [σ Hσ|w w' o _ IH Hstep].
  - split; [|split].
    + intros h a. unfold pproducer_of; simpl. rewrite lookup_empty. discriminate.
    + intros h1 h2 a. unfold pproducer_of; simpl. rewrite lookup_empty. discriminate.
    + intros a. unfold pclaimed_at; simpl.
      destruct (σ !! a) as [q|] eqn:Hq; simpl; [|discriminate].
      rewrite (Hσ a q Hq). discriminate.
  - eapply pworld_ok_step; eassumption.
Qed.

(** X19 (SPMC producer-claim exclusivity).  The producer role of the
    broadcast queue is exclusive.  In every world a program can reach
    (producer handles made, moved, assigned and destroyed, values pushed,
    consumers doing whatever they do) and for every queue in it: at most one
    producer handle points to the queue; [make_producer] returns a handle
    and sets the claim flag when none does, and returns nothing, changing
    nothing, while one does; and once that handle is destroyed
    [make_producer] succeeds again. *)
Theorem spmc_producer_claim_exclusive (w : PWorld) (a : addr) (q : SPMCQueue) :
  preachable w ->
  pw_queues w !! a = Some q ->
  (forall h1 h2, pproducer_of w h1 = Some a -> pproducer_of w h2 = Some a -> h1 = h2) /\
  ((forall h, pproducer_of w h <> Some a) ->
   make_producer a q = (Some (MkProducer (Some a)), store_producer_claimed true q)) /\
  ((exists h, pproducer_of w h = Some a) -> make_producer a q = (None, q)) /\
  (forall h, pproducer_of w h = Some a ->
     exists w' q',
       pwstep (PDestroyProducer h) w = Some w' /\
       pw_queues w' !! a = Some q' /\
       (forall h0, pproducer_of w' h0 <> Some a) /\
       make_producer a q' = (Some (MkProducer (Some a)), store_producer_claimed true q')).
Proof.
  intros Hreach Hq.
  pose proof (preachable_pworld_ok w Hreach) as Hw.
  pose proof Hw as (H1 & H2 & H3).
  assert (Hflag : pclaimed_at w a = Some (m_producer_claimed q)).
  { unfold pclaimed_at. rewrite Hq. reflexivity. }
  split; [exact (fun h1 h2 => H2 h1 h2 a)|]. split; [|split].
  - intros Hnone. destruct (spmc_make_producer_cases a q) as [[Hf _]|[_ Hm]]; [exfalso|exact Hm].
    rewrite Hf in Hflag. destruct (H3 a Hflag) as [h Hh]. exact (Hnone h Hh).
  - intros [h Hh]. destruct (spmc_make_producer_cases a q) as [[_ Hm]|[Hf _]]; [exact Hm|exfalso].
    specialize (H1 h a Hh). rewrite Hflag, Hf in H1. discriminate.
  - intros h Hh. unfold pproducer_of in Hh.
    destruct (pw_producers w !! h) as [p|] eqn:Hp; simpl in Hh; [|discriminate].
    eexists. exists (store_producer_claimed false q).
    split; [simpl; rewrite Hp; reflexivity|].
    assert (Hq' : Producer_dtor p (pw_queues w) !! a = Some (store_producer_claimed false q)).
    { unfold Producer_dtor. rewrite Hh, lookup_alter_eq, Hq. reflexivity. }
    split; [exact Hq'|].
    assert (Hstep : pwstep (PDestroyProducer h) w =
                    Some (MkPWorld (Producer_dtor p (pw_queues w))
                                   (delete h (pw_producers w)))).
    { simpl. rewrite Hp. reflexivity. }
    pose proof (pworld_ok_step _ _ _ Hw Hstep) as (K1 & _).
    split; [|reflexivity].
    intros h0 Hh0. specialize (K1 h0 a Hh0).
    unfold pclaimed_at in K1. simpl in K1. rewrite Hq' in K1. discriminate.
Qed.

(** X20 (SPMC producer move).  Moving the producer handle of the broadcast
    queue keeps the claim.  In every reachable world, after
    move-constructing [h'] from [h], or move-assigning [h] to a distinct
    handle [h'], the destination points to the queue the source pointed to
    and the source to nothing; that queue's claim flag is still set;
    destroying the moved-from handle changes no queue; and pushing through
    the moved-from handle trips the assertion, while the destination pushes
    to the same queue. *)
Theorem spmc_producer_move (w w' : PWorld) (h h' : hid) :
  preachable w ->
  pwstep (PMoveProducer h' h) w = Some w' \/
    (h' <> h /\ pwstep (PAssignProducer h' h) w = Some w') ->
  pproducer_of w' h' = pproducer_of w h /\
  pproducer_of w' h = None /\
  (forall a, pproducer_of w h = Some a -> pclaimed_at w' a = Some true) /\
  (exists w'', pwstep (PDestroyProducer h) w' = Some w'' /\ pw_queues w'' = pw_queues w') /\
  (forall item, pwstep (PPush h item) w' = None) /\
  (forall item a, pproducer_of w h = Some a -> is_Some (pwstep (PPush h' item) w')).
Proof.
  intros Hreach Hmove.
  pose proof (preachable_pworld_ok w Hreach) as Hw.
  assert (Hw' : pworld_ok w').
  { destruct Hmove as [Hs|[_ Hs]]; eapply pworld_ok_step; eassumption. }
  assert (Hfacts : h' <> h /\ exists p σ',
            pw_producers w !! h = Some p /\
            w' = MkPWorld σ' (<[h' := MkProducer (producer_m_queue p)]>
                                (<[h := MkProducer None]> (pw_producers w)))).
  { destruct Hmove as [Hs|[Hne Hs]]; simpl in Hs.
    - case_decide as Hh'; [|discriminate].
      destruct (pw_producers w !! h) as [p|] eqn:Hp; simpl in Hs; [|discriminate].
      injection Hs as <-. split; [intros ->; congruence|]. eauto.
    - destruct (pw_producers w !! h') as [p'|] eqn:Hp'; simpl in Hs; [|discriminate].
      destruct (pw_producers w !! h) as [p|] eqn:Hp; simpl in Hs; [|discriminate].
      rewrite decide_False in Hs by assumption. injection Hs as <-. eauto. }
  destruct Hfacts as (Hne & p & σ' & Hp & ->).
  assert (Hdst : pproducer_of (MkPWorld σ'
                    (<[h' := MkProducer (producer_m_queue p)]>
                       (<[h := MkProducer None]> (pw_producers w)))) h'
                 = pproducer_of w h).
  { unfold pproducer_of; simpl. rewrite lookup_insert_eq, Hp. reflexivity. }
  assert (Hsrc : (<[h' := MkProducer (producer_m_queue p)]>
                    (<[h := MkProducer None]> (pw_producers w))) !! h
                 = Some (MkProducer None)).
  { rewrite lookup_insert_ne, lookup_insert_eq by assumption. reflexivity. }
  split; [exact Hdst|]. split; [|split; [|split; [|split]]].
  - unfold pproducer_of; simpl. rewrite Hsrc. reflexivity.
  - intros a Ha. destruct Hw' as (K1 & _). apply (K1 h'). rewrite Hdst. exact Ha.
  - eexists. split; [simpl; rewrite Hsrc; reflexivity|reflexivity].
  - intros item. simpl. rewrite Hsrc. reflexivity.
  - intros item a Ha. destruct Hw' as (K1 & _).
    pose proof (K1 h' a ltac:(rewrite Hdst; exact Ha)) as Hcl.
    unfold pclaimed_at in Hcl. simpl in Hcl.
    destruct (σ' !! a) as [q|] eqn:Hq; simpl in Hcl; [|discriminate].
    unfold pproducer_of in Ha. rewrite Hp in Ha. simpl in Ha.
    simpl. rewrite lookup_insert_eq. simpl. unfold Producer_push. simpl.
    rewrite Ha. simpl. rewrite Hq. simpl. destruct (push_impl item q). simpl. eauto.
Qed.

End queue.

End SPMC.

(** ** Properties shared by the two queues *)

Section both.

Context {T : Type} `{!Inhabited T}.
Variable NumSlots : Z.
Variable MaxConsumers : nat.

(** The [static_assert]s of the class templates, and the range of
    [std::size_t]. *)
Hypothesis NumSlots_pos : 0 < NumSlots.
Hypothesis NumSlots_pow2 : Z.land NumSlots (NumSlots - 1) = 0.
Hypothesis NumSlots_size_t : NumSlots < U64.modulus.

(** C5 (capacity invariant).  SPSC: after any sequence of operations on a
    fresh queue, [head - tail] (computed modulo [2^64], as the code does)
    lies in [0 .. NumSlots], and whenever advancing [head] by one would
    take it above [NumSlots], [push_impl] returns [false] and leaves the
    queue unchanged.  SPMC: after any sequence of operations on a fresh
    queue that has no undefined behaviour and makes fewer than [2^64]
    pushes (the producer cursor has not wrapped), the same holds with
    respect to the cursor of every [Active] slot. *)
Theorem capacity_invariant :
  (forall (ops : list SPSC.op),
     let q := (SPSC.run NumSlots ops (SPSC.init NumSlots)).2 in
     0 <= U64.sub (SPSC.m_head q) (SPSC.m_tail q) <= NumSlots /\
     forall item : T,
       U64.sub (U64.add (SPSC.m_head q) 1) (SPSC.m_tail q) > NumSlots ->
       SPSC.push_impl NumSlots item q = (false, q)) /\
  (forall (ops : list SPMC.op) (es : list SPMC.event) (q : SPMC.SPMCQueue),
     SPMC.run NumSlots MaxConsumers ops (SPMC.init NumSlots MaxConsumers) = Some (es, q) ->
     Z.of_nat (SPMC.push_count ops) < U64.modulus ->
     (forall i s, SPMC.m_slots q !! i = Some s -> SPMC.state s = SPMC.Active ->
        0 <= U64.sub (SPMC.m_head q) (SPMC.tail s) <= NumSlots) /\
     (forall (item : T) i s,
        SPMC.m_slots q !! i = Some s -> SPMC.state s = SPMC.Active ->
        U64.sub (U64.add (SPMC.m_head q) 1) (SPMC.tail s) > NumSlots ->
        SPMC.push_impl NumSlots item q = (false, q))).
Proof.
  split.
  - intros ops. apply SPSC.spsc_capacity; assumption.
  - intros ops es q Hrun Hcount. eapply SPMC.spmc_capacity; eassumption.
Qed.


(** C9 ([try_pop] is [pop]).  In every state of either queue (and for
    every slot index of the SPMC queue), [try_pop_impl] returns [true]
    with [v] written to [out] and successor state [q'] exactly when
    [pop_impl] returns [v] with successor state [q']; it returns [false],
    leaving [out] as it was, with successor state [q'] exactly when
    [pop_impl] returns "empty" with successor state [q']; and the SPMC
    variants index outside the slot table for the same indices. *)
Theorem try_pop_is_pop :
  (forall (out : T) (q : SPSC.SPSCQueue),
     (forall v q', SPSC.try_pop_impl NumSlots out q = (true, v, q') <->
                   SPSC.pop_impl NumSlots q = (Some v, q')) /\
     (forall out' q', SPSC.try_pop_impl NumSlots out q = (false, out', q') <->
                      SPSC.pop_impl NumSlots q = (None, q') /\ out' = out)) /\
  (forall (out : T) (idx : nat) (q : SPMC.SPMCQueue),
     (forall v q', SPMC.try_pop_impl NumSlots out idx q = Some (true, v, q') <->
                   SPMC.pop_impl NumSlots idx q = Some (Some v, q')) /\
     (forall out' q', SPMC.try_pop_impl NumSlots out idx q = Some (false, out', q') <->
                      SPMC.pop_impl NumSlots idx q = Some (None, q') /\ out' = out) /\
     (SPMC.try_pop_impl NumSlots out idx q = None <-> SPMC.pop_impl NumSlots idx q = None)).
Proof.
  split.
  - intros out q. apply SPSC.spsc_try_pop_equiv.
  - intros out idx q. apply SPMC.spmc_try_pop_equiv.
Qed.

(** C10 (a move transfers ownership without release).  In every reachable
    world, for a producer or consumer handle of the SPSC queue and for a
    consumer handle of the SPMC queue: after move-constructing [h'] from
    [h], or move-assigning [h] to a distinct handle [h'], the destination
    points to what the source pointed to and the source points to
    nothing; the role that was moved is still claimed (the claim flag is
    set, the slot is [Active]); destroying the moved-from handle is
    possible and leaves every queue untouched; and it remains true that
    every claimed role is held by exactly one handle, so no role is
    released twice.  A move assignment of a handle to itself changes
    nothing. *)
Theorem move_keeps_claim :
  (forall (w w' : @SPSC.World T) (h h' : nat),
     SPSC.reachable NumSlots w ->
     SPSC.wstep NumSlots (SPSC.WMoveProducer h' h) w = Some w' \/
       (h' <> h /\ SPSC.wstep NumSlots (SPSC.WAssignProducer h' h) w = Some w') ->
     SPSC.producer_of w' h' = SPSC.producer_of w h /\
     SPSC.producer_of w' h = None /\
     (forall a, SPSC.producer_of w h = Some a ->
                SPSC.producer_claimed_at w' a = Some true) /\
     (exists w'', SPSC.wstep NumSlots (SPSC.WDestroyProducer h) w' = Some w'' /\
                  SPSC.w_queues w'' = SPSC.w_queues w') /\
     SPSC.world_ok w') /\
  (forall (w w' : @SPSC.World T) (h h' : nat),
     SPSC.reachable NumSlots w ->
     SPSC.wstep NumSlots (SPSC.WMoveConsumer h' h) w = Some w' \/
       (h' <> h /\ SPSC.wstep NumSlots (SPSC.WAssignConsumer h' h) w = Some w') ->
     SPSC.consumer_of w' h' = SPSC.consumer_of w h /\
     SPSC.consumer_of w' h = None /\
     (forall a, SPSC.consumer_of w h = Some a ->
                SPSC.consumer_claimed_at w' a = Some true) /\
     (exists w'', SPSC.wstep NumSlots (SPSC.WDestroyConsumer h) w' = Some w'' /\
                  SPSC.w_queues w'' = SPSC.w_queues w') /\
     SPSC.world_ok w') /\
  (forall (w w' : @SPMC.World T) (h h' : nat),
     SPMC.reachable NumSlots MaxConsumers w ->
     SPMC.wstep NumSlots MaxConsumers (SPMC.WMoveConsumer h' h) w = Some w' \/
       (h' <> h /\
        SPMC.wstep NumSlots MaxConsumers (SPMC.WAssignConsumer h' h) w = Some w') ->
     SPMC.slot_of w' h' = SPMC.slot_of w h /\
     SPMC.slot_of w' h = None /\
     (forall r, SPMC.slot_of w h = Some r -> SPMC.active_at w' r = Some true) /\
     (exists w'', SPMC.wstep NumSlots MaxConsumers (SPMC.WDestroyConsumer h) w' = Some w'' /\
                  SPMC.w_queues w'' = SPMC.w_queues w') /\
     SPMC.world_ok NumSlots MaxConsumers w') /\
  (forall (w : @SPSC.World T) (h : nat),
     (is_Some (SPSC.w_producers w !! h) ->
      SPSC.wstep NumSlots (SPSC.WAssignProducer h h) w = Some w) /\
     (is_Some (SPSC.w_consumers w !! h) ->
      SPSC.wstep NumSlots (SPSC.WAssignConsumer h h) w = Some w)) /\
  (forall (w : @SPMC.World T) (h : nat),
     is_Some (SPMC.w_consumers w !! h) ->
     SPMC.wstep NumSlots MaxConsumers (SPMC.WAssignConsumer h h) w = Some w).
Proof.
  split; [|split; [|split; [|split]]].
  - intros w w' h h'. apply SPSC.spsc_producer_move.
  - intros w w' h h'. apply SPSC.spsc_consumer_move.
  - intros w w' h h' Hreach Hmove. eapply SPMC.spmc_consumer_move; eassumption.
  - intros w h. split; intros [x Hx]; simpl; rewrite Hx; simpl;
      rewrite decide_True by reflexivity; reflexivity.
  - intros w h [x Hx]. simpl. rewrite Hx. simpl.
    rewrite decide_True by reflexivity. reflexivity.
Qed.

End both.

(** ** Scenarios on concrete queues *)

(** The scenarios take [Z] for the element type, standing for [int]; the
    value-initialised element [T{}] that fills a fresh ring is then zero. *)
#[global] Instance Z_value_initialised : Inhabited Z := populate 0.

(** C4 (SPSC fill and drain).  On a fresh SPSC queue of capacity 4 holding
    integers: the pushes of 1, 2, 3 and 4 each return [true]; a push of 5
    then returns [false] and leaves the queue unchanged, [head - tail]
    being 4; the following pop returns 1; and a push of 5 after that pop
    returns [true]. *)
Theorem spsc_fill_drain_scenario :
  let q4 := (SPSC.run 4 [SPSC.Push 1; SPSC.Push 2; SPSC.Push 3; SPSC.Push 4]
                      (SPSC.init 4)).2 in
  (SPSC.run 4 [SPSC.Push 1; SPSC.Push 2; SPSC.Push 3; SPSC.Push 4;
               SPSC.Push 5; SPSC.Pop; SPSC.Push 5] (SPSC.init 4)).1 =
    [SPSC.EvPush 1 true; SPSC.EvPush 2 true; SPSC.EvPush 3 true; SPSC.EvPush 4 true;
     SPSC.EvPush 5 false; SPSC.EvPop (Some 1); SPSC.EvPush 5 true] /\
  U64.sub (SPSC.m_head q4) (SPSC.m_tail q4) = 4 /\
  SPSC.push_impl 4 5 q4 = (false, q4) /\
  (SPSC.pop_impl 4 q4).1 = Some 1 /\
  (SPSC.push_impl 4 5 (SPSC.pop_impl 4 q4).2).1 = true.
Proof. vm_compute. repeat split; reflexivity. Qed.

(** Three values through a queue of capacity 4, pushes and pops
    interleaved. *)
Lemma spsc_fifo_order_witness :
  let q := (SPSC.run 4 [SPSC.Push 1; SPSC.Pop; SPSC.Pop] (SPSC.init 4)).2 in
  SPSC.m_head q = SPSC.m_tail q /\
  SPSC.popped
    (SPSC.run 4 [SPSC.Push 7; SPSC.Push 8; SPSC.Pop; SPSC.Push 9; SPSC.TryPop 0; SPSC.Pop]
              q).1 = [7; 8; 9].
Proof.
  split; [reflexivity|].
  apply (SPSC.spsc_fifo_order (T:=Z) 4 ltac:(lia) ltac:(reflexivity) ltac:(reflexivity)
           [SPSC.Push 1; SPSC.Pop; SPSC.Pop]
           [SPSC.Push 7; SPSC.Push 8; SPSC.Pop; SPSC.Push 9; SPSC.TryPop 0; SPSC.Pop]).
  - reflexivity.
  - vm_compute. repeat constructor.
  - reflexivity.
Defined.

(** A queue of capacity 2 with two consumers; the one on slot 0 never
    pops, the one on slot 1 pops everything. *)
Definition stalled_setup : list (@SPMC.op Z) := [SPMC.MakeConsumer 0; SPMC.MakeConsumer 0].

Definition stalled_ops : list (@SPMC.op Z) :=
  [SPMC.Push 10; SPMC.Pop 1; SPMC.Push 20; SPMC.Pop 1].

Definition stalled_q0 : @SPMC.SPMCQueue Z :=
  default (SPMC.init 2 2) (snd <$> SPMC.run 2 2 stalled_setup (SPMC.init 2 2)).

Definition stalled_q : @SPMC.SPMCQueue Z :=
  default (SPMC.init 2 2) (snd <$> SPMC.run 2 2 stalled_ops stalled_q0).

(** The same queue, where the consumer on slot 1 attaches after one value
    was delivered and then stops, while the one on slot 0 keeps popping. *)
Definition idle_pre : list (@SPMC.op Z) :=
  [SPMC.MakeConsumer 0; SPMC.Push 10; SPMC.Pop 0; SPMC.MakeConsumer 0].

Definition idle_post : list (@SPMC.op Z) :=
  [SPMC.Push 20; SPMC.Pop 0; SPMC.Push 30; SPMC.Pop 0].

Definition idle_q1 : @SPMC.SPMCQueue Z :=
  default (SPMC.init 2 2) (snd <$> SPMC.run 2 2 idle_pre (SPMC.init 2 2)).

Definition idle_q2 : @SPMC.SPMCQueue Z :=
  default (SPMC.init 2 2) (snd <$> SPMC.run 2 2 idle_post idle_q1).

Lemma spmc_backpressure_witness :
  SPMC.attached 0 0 stalled_q0 /\
  SPMC.m_head stalled_q = 2 /\
  SPMC.push_impl 2 30 stalled_q = (false, stalled_q) /\
  SPMC.min_tail_snapshot 2 stalled_q = 0 /\
  SPMC.active_cursor stalled_q (SPMC.min_tail_snapshot 2 stalled_q) /\
  SPMC.attached 1 1 idle_q1 /\
  SPMC.m_head idle_q2 = 3 /\
  SPMC.push_impl 2 40 idle_q2 = (false, idle_q2).
Proof.
  assert (Hrange : forall c, SPMC.active_cursor stalled_q c -> U64.in_range c).
  { intros c (i & s & Hi & _ & <-).
    change (SPMC.m_slots stalled_q)
      with [SPMC.MkSlot SPMC.Active 0; SPMC.MkSlot SPMC.Active 2] in Hi.
    destruct i as [|[|i]]; try discriminate Hi;
      injection Hi as <-; vm_compute; (split; [discriminate|reflexivity]). }
  pose proof (SPMC.spmc_backpressure (T:=Z) 2 2 ltac:(lia) ltac:(reflexivity)
                ltac:(reflexivity) stalled_setup stalled_ops 0 0 _ _ stalled_q0 stalled_q 30
                ltac:(vm_compute; reflexivity) ltac:(reflexivity) ltac:(reflexivity)
                ltac:(vm_compute; repeat constructor) ltac:(reflexivity)
                ltac:(vm_compute; reflexivity)) as (_ & Hfull & Hwhy & Hidle).
  split; [reflexivity|]. split; [reflexivity|]. split; [exact Hfull|].
  split; [reflexivity|]. split.
  - destruct (Hwhy stalled_q 30 ltac:(vm_compute; split; [discriminate|reflexivity]) Hrange)
      as (_ & _ & _ & Hmin & _).
    apply Hmin. exists 0. split; [|vm_compute; discriminate].
    exists 0%nat, (SPMC.MkSlot SPMC.Active 0). repeat split; reflexivity.
  - split; [reflexivity|]. split; [reflexivity|].
    destruct (Hidle idle_pre idle_post 1%nat 1 _ _ idle_q1 idle_q2 40
                ltac:(vm_compute; reflexivity) ltac:(reflexivity)
                ltac:(vm_compute; repeat constructor) ltac:(vm_compute; reflexivity)
                ltac:(vm_compute; reflexivity)) as (_ & _ & _ & Hstop).
    apply Hstop. reflexivity.
Defined.

(** A queue of capacity 4: one consumer from the start, two pushes, then a
    second consumer attaches (slot 1) and two more values are pushed. *)
Definition late_pre : list (@SPMC.op Z) := [SPMC.MakeConsumer 0; SPMC.Push 1; SPMC.Push 2].

Definition late_post : list (@SPMC.op Z) :=
  [SPMC.Push 3; SPMC.Pop 1; SPMC.Pop 0; SPMC.Push 4; SPMC.TryPop 1 0; SPMC.Pop 1].

Definition late_q1 : @SPMC.SPMCQueue Z :=
  default (SPMC.init 4 2) (snd <$> SPMC.run 4 2 late_pre (SPMC.init 4 2)).

Lemma spmc_late_join_witness :
  (SPMC.make_consumer 2 0 late_q1).1 = Some (SPMC.MkConsumer (Some 0%nat) 1) /\
  SPMC.attached 1 2 (SPMC.make_consumer 2 0 late_q1).2 /\
  (SPMC.popped 1 <$> (fst <$> SPMC.run 4 2 late_post (SPMC.make_consumer 2 0 late_q1).2))
    = Some [3; 4].
Proof.
  split; [reflexivity|].
  assert (H := SPMC.spmc_late_join (T:=Z) 4 2 ltac:(lia) ltac:(reflexivity) ltac:(reflexivity)
                 late_pre late_post 0 (SPMC.MkConsumer (Some 0%nat) 1)).
  specialize (H _ _ late_q1 _ _ ltac:(vm_compute; reflexivity)
                ltac:(vm_compute; reflexivity) ltac:(vm_compute; reflexivity)
                ltac:(vm_compute; repeat constructor) ltac:(vm_compute; reflexivity)).
  split; [exact (proj1 (proj2 H))|]. reflexivity.
Defined.

(** The SPSC queue of capacity 4 after four pushes, a pop and a fifth
    push is full again; so is the SPMC queue [stalled_q] for the consumer
    on slot 0. *)
Lemma capacity_invariant_witness :
  let q := (SPSC.run 4 [SPSC.Push 1; SPSC.Push 2; SPSC.Push 3; SPSC.Push 4;
                        SPSC.Pop; SPSC.Push 5] (SPSC.init 4)).2 in
  (0 <= U64.sub (SPSC.m_head q) (SPSC.m_tail q) <= 4 /\
   SPSC.push_impl 4 6 q = (false, q)) /\
  (0 <= U64.sub (SPMC.m_head stalled_q) 0 <= 2 /\
   SPMC.push_impl 2 30 stalled_q = (false, stalled_q)).
Proof.
  split.
  - pose proof (proj1 (capacity_invariant (T:=Z) 4 2 ltac:(lia) ltac:(reflexivity)
                         ltac:(reflexivity))
                  [SPSC.Push 1; SPSC.Push 2; SPSC.Push 3; SPSC.Push 4; SPSC.Pop; SPSC.Push 5])
      as [H1 H2].
    split; [exact H1|]. apply H2. vm_compute. reflexivity.
  - destruct (proj2 (capacity_invariant (T:=Z) 2 2 ltac:(lia) ltac:(reflexivity)
                       ltac:(reflexivity))
                (stalled_setup ++ stalled_ops) _ stalled_q
                ltac:(vm_compute; reflexivity) ltac:(vm_compute; reflexivity))
      as [H1 H2].
    split.
    + apply (H1 0%nat (SPMC.MkSlot SPMC.Active 0)); reflexivity.
    + apply (H2 30 0%nat (SPMC.MkSlot SPMC.Active 0)); [reflexivity|reflexivity|].
      vm_compute. reflexivity.
Defined.


(** One SPSC queue at address 0 whose producer role is held by handle 7. *)
Definition claimed_w0 : @SPSC.World Z := SPSC.MkWorld {[0%nat := SPSC.init 4]} ∅ ∅.

Definition claimed_w1 : @SPSC.World Z :=
  default claimed_w0 (SPSC.wstep 4 (SPSC.WMakeProducer 0 7) claimed_w0).

Lemma claimed_w1_reachable : SPSC.reachable 4 claimed_w1.
Proof.
  apply (SPSC.reachable_step 4 claimed_w0 claimed_w1 (SPSC.WMakeProducer 0 7)).
  - apply SPSC.reachable_init. intros a q Hq.
    apply lookup_singleton_Some in Hq as [_ <-]. reflexivity.
  - vm_compute. reflexivity.
Defined.

Lemma producer_claim_exclusive_witness :
  SPSC.producer_of claimed_w1 7 = Some 0%nat /\
  SPSC.make_producer 0 (SPSC.store_producer_claimed true (SPSC.init (T:=Z) 4)) =
    (None, SPSC.store_producer_claimed true (SPSC.init 4)) /\
  exists w' q',
    SPSC.wstep 4 (SPSC.WDestroyProducer 7) claimed_w1 = Some w' /\
    SPSC.w_queues w' !! 0%nat = Some q' /\
    (forall h0, SPSC.producer_of w' h0 <> Some 0%nat) /\
    SPSC.make_producer 0 q' =
      (Some (SPSC.MkProducer (Some 0%nat)), SPSC.store_producer_claimed true q').
Proof.
  pose proof (SPSC.producer_claim_exclusive (T:=Z) 4 claimed_w1 0
                (SPSC.store_producer_claimed true (SPSC.init (T:=Z) 4))
                claimed_w1_reachable eq_refl) as (_ & _ & H3 & H4).
  split; [vm_compute; reflexivity|]. split.
  - apply H3. exists 7%nat. vm_compute. reflexivity.
  - apply (H4 7%nat). vm_compute. reflexivity.
Defined.

(** The SPMC queue of the late-join scenario at address 5, with consumers
    on slots 0 and 1; the one on slot 0 is destroyed. *)
Lemma consumer_slot_release_reuse_witness :
  let q := (SPMC.make_consumer 2 0 late_q1).2 in
  let σ : gmap nat (@SPMC.SPMCQueue Z) := {[5%nat := q]} in
  exists q1,
    SPMC.Consumer_dtor (SPMC.MkConsumer (Some 5%nat) 0) σ = Some (<[5%nat := q1]> σ) /\
    SPMC.m_slots q = [SPMC.MkSlot SPMC.Active 0; SPMC.MkSlot SPMC.Active 2] /\
    SPMC.m_slots q1 = [SPMC.MkSlot SPMC.Free 0; SPMC.MkSlot SPMC.Active 2] /\
    SPMC.min_tail_snapshot 2 q1 = 2 /\
    exists c' q2,
      SPMC.make_consumer 2 9 q1 = (Some c', q2) /\
      SPMC.consumer_m_slot_idx c' = 0%nat /\
      SPMC.m_slots q2 = [SPMC.MkSlot SPMC.Active 2; SPMC.MkSlot SPMC.Active 2].
Proof.
  intros q σ.
  destruct (SPMC.consumer_slot_release_reuse (T:=Z) 4 2 ltac:(lia)
              (SPMC.MkConsumer (Some 5%nat) 0) 5 q σ eq_refl eq_refl
              ltac:(split; reflexivity) ltac:(simpl; lia))
    as (q1 & Hd & Hsl & Hh & _ & _ & Hwf1 & _ & Hre & Hfree).
  exists q1. split; [exact Hd|]. split; [reflexivity|].
  split; [rewrite Hsl; reflexivity|].
  split; [unfold SPMC.min_tail_snapshot; rewrite Hsl; reflexivity|].
  destruct (Hre 9%nat q1 Hwf1 (ex_intro _ _ (conj Hfree eq_refl)))
    as (c' & q2 & Hm & _ & Hle & _ & Hsl2).
  simpl in Hle. assert (Hc' : SPMC.consumer_m_slot_idx c' = 0%nat) by lia.
  exists c', q2. split; [exact Hm|]. split; [exact Hc'|].
  rewrite Hsl2, Hc', Hsl, Hh. reflexivity.
Defined.

(** Moves in three small worlds: a producer handle of an SPSC queue is
    move-constructed; a consumer handle of an SPSC queue is move-assigned
    to the consumer handle of another queue; a consumer handle of an SPMC
    queue is move-assigned to the handle on another slot. *)
Definition moved_w1 : @SPSC.World Z :=
  default claimed_w0 (SPSC.wrun 4 [SPSC.WMakeProducer 0 7] claimed_w0).

Definition moved_w2 : @SPSC.World Z :=
  default moved_w1 (SPSC.wstep 4 (SPSC.WMoveProducer 8 7) moved_w1).

Definition assigned_w0 : @SPSC.World Z :=
  SPSC.MkWorld {[0%nat := SPSC.init 4; 1%nat := SPSC.init 4]} ∅ ∅.

Definition assigned_w1 : @SPSC.World Z :=
  default assigned_w0
    (SPSC.wrun 4 [SPSC.WMakeConsumer 0 3; SPSC.WMakeConsumer 1 4] assigned_w0).

Definition assigned_w2 : @SPSC.World Z :=
  default assigned_w1 (SPSC.wstep 4 (SPSC.WAssignConsumer 4 3) assigned_w1).

Definition slots_w0 : @SPMC.World Z := SPMC.MkWorld {[0%nat := SPMC.init 4 2]} ∅.

Definition slots_w1 : @SPMC.World Z :=
  default slots_w0
    (SPMC.wrun 4 2 [SPMC.WMakeConsumer 0 3; SPMC.WPush 0 11; SPMC.WMakeConsumer 0 4] slots_w0).

Definition slots_w2 : @SPMC.World Z :=
  default slots_w1 (SPMC.wstep 4 2 (SPMC.WAssignConsumer 4 3) slots_w1).

Lemma move_keeps_claim_witness :
  (SPSC.producer_of moved_w1 7 = Some 0%nat /\
   SPSC.producer_of moved_w2 8 = Some 0%nat /\
   SPSC.producer_of moved_w2 7 = None /\
   SPSC.producer_claimed_at moved_w2 0%nat = Some true) /\
  (SPSC.consumer_of assigned_w1 3 = Some 0%nat /\
   SPSC.consumer_of assigned_w2 4 = Some 0%nat /\
   SPSC.consumer_of assigned_w2 3 = None /\
   SPSC.consumer_claimed_at assigned_w2 0%nat = Some true) /\
  (SPMC.slot_of slots_w1 3 = Some (0%nat, 0%nat) /\
   SPMC.slot_of slots_w2 4 = Some (0%nat, 0%nat) /\
   SPMC.slot_of slots_w2 3 = None /\
   SPMC.active_at slots_w2 (0%nat, 0%nat) = Some true).
Proof.
  destruct (move_keeps_claim (T:=Z) 4 2 ltac:(lia)) as (H1 & H2 & H3 & _).
  assert (Hne : 4%nat <> 3%nat) by lia.
  split; [|split].
  - assert (Hr : SPSC.reachable 4 moved_w1).
    { apply (SPSC.spsc_wrun_reachable (T:=Z) 4 [SPSC.WMakeProducer 0 7] claimed_w0);
        [|vm_compute; reflexivity].
      apply SPSC.reachable_init. intros a q Hq.
      apply lookup_singleton_Some in Hq as [_ <-]. reflexivity. }
    destruct (H1 moved_w1 moved_w2 7%nat 8%nat Hr (or_introl eq_refl)) as (K1 & K2 & K3 & _).
    split; [reflexivity|]. split; [rewrite K1; reflexivity|]. split; [exact K2|].
    apply K3. reflexivity.
  - assert (Hr : SPSC.reachable 4 assigned_w1).
    { apply (SPSC.spsc_wrun_reachable (T:=Z) 4
               [SPSC.WMakeConsumer 0 3; SPSC.WMakeConsumer 1 4] assigned_w0);
        [|vm_compute; reflexivity].
      apply SPSC.reachable_init. intros a q Hq.
      apply lookup_insert_Some in Hq as [[_ <-]|[_ Hq]]; [reflexivity|].
      apply lookup_singleton_Some in Hq as [_ <-]. reflexivity. }
    destruct (H2 assigned_w1 assigned_w2 3%nat 4%nat Hr
                (or_intror (conj Hne eq_refl))) as (K1 & K2 & K3 & _).
    split; [reflexivity|]. split; [rewrite K1; reflexivity|]. split; [exact K2|].
    apply K3. reflexivity.
  - assert (Hr : SPMC.reachable 4 2 slots_w1).
    { apply (SPMC.spmc_wrun_reachable (T:=Z) 4 2
               [SPMC.WMakeConsumer 0 3; SPMC.WPush 0 11; SPMC.WMakeConsumer 0 4] slots_w0);
        [|vm_compute; reflexivity].
      apply SPMC.reachable_init. intros a q Hq.
      apply lookup_singleton_Some in Hq as [_ <-]. reflexivity. }
    destruct (H3 slots_w1 slots_w2 3%nat 4%nat Hr
                (or_intror (conj Hne eq_refl))) as (K1 & K2 & K3 & _).
    split; [reflexivity|]. split; [rewrite K1; reflexivity|]. split; [exact K2|].
    apply K3. reflexivity.
Defined.
(** ** Further scenarios on concrete queues *)

(** Three values pushed and one delivered, with the producer handle
    dropped and taken again in between: two values are waiting. *)
Lemma spsc_delivered_prefix_and_count_witness :
  exists rest : list Z,
    [1; 2; 3] = [1] ++ rest /\
    SPSC.count_snapshot_impl 4
      (SPSC.run 4 [SPSC.Push 1; SPSC.Push 2; SPSC.Pop; SPSC.DropProducer;
                   SPSC.MakeProducer 0; SPSC.Push 3] (SPSC.init 4)).2
      = Z.of_nat (length rest).
Proof.
  exact (SPSC.spsc_delivered_prefix_and_count (T:=Z) 4 ltac:(lia) ltac:(reflexivity)
           ltac:(reflexivity)
           [SPSC.Push 1; SPSC.Push 2; SPSC.Pop; SPSC.DropProducer; SPSC.MakeProducer 0;
            SPSC.Push 3]).
Defined.

(** After 7 and 8 were pushed and 7 was popped, [peek] shows 8. *)
Lemma spsc_peek_oldest_witness :
  let q := (SPSC.run 4 [SPSC.Push 7; SPSC.Push 8; SPSC.Pop] (SPSC.init 4)).2 in
  SPSC.peek 4 q = Some 8 /\ SPSC.peek_out 4 0 q = (true, 8) /\ (SPSC.pop_impl 4 q).1 = Some 8.
Proof.
  exact (SPSC.spsc_peek_oldest (T:=Z) 4 ltac:(lia) ltac:(reflexivity) ltac:(reflexivity)
           [SPSC.Push 7; SPSC.Push 8; SPSC.Pop] 0 ltac:(reflexivity)).
Defined.

(** Four values waiting in a queue of capacity 4: the push is refused.
    None waiting: the pop reports "empty". *)
Lemma spsc_refusals_exact_witness :
  (SPSC.push_impl 4 5
     (SPSC.run 4 [SPSC.Push 1; SPSC.Push 2; SPSC.Push 3; SPSC.Push 4] (SPSC.init 4)).2).1
    = false /\
  (SPSC.pop_impl 4 (SPSC.run 4 [SPSC.Push 1; SPSC.Pop] (SPSC.init (T:=Z) 4)).2).1 = None.
Proof.
  split.
  - apply (proj1 (SPSC.spsc_refusals_exact (T:=Z) 4 ltac:(lia) ltac:(reflexivity)
                    ltac:(reflexivity)
                    [SPSC.Push 1; SPSC.Push 2; SPSC.Push 3; SPSC.Push 4] 5
                    ltac:(reflexivity))).
    reflexivity.
  - apply (proj2 (SPSC.spsc_refusals_exact (T:=Z) 4 ltac:(lia) ltac:(reflexivity)
                    ltac:(reflexivity) [SPSC.Push 1; SPSC.Pop] 0 ltac:(reflexivity))).
    reflexivity.
Defined.

(** A burst of three values through an emptied queue of capacity 4. *)
Lemma spsc_burst_round_trip_witness :
  (SPSC.run 4 ([SPSC.Push 4; SPSC.Push 5; SPSC.Push 6] ++ [SPSC.Pop; SPSC.Pop; SPSC.Pop])
            (SPSC.run 4 [SPSC.Push 1; SPSC.Pop] (SPSC.init 4)).2).1 =
    [SPSC.EvPush 4 true; SPSC.EvPush 5 true; SPSC.EvPush 6 true;
     SPSC.EvPop (Some 4); SPSC.EvPop (Some 5); SPSC.EvPop (Some 6)].
Proof.
  exact (SPSC.spsc_burst_round_trip (T:=Z) 4 ltac:(lia) ltac:(reflexivity) ltac:(reflexivity)
           [SPSC.Push 1; SPSC.Pop] [4; 5; 6] ltac:(reflexivity) ltac:(simpl; lia)
           ltac:(reflexivity)).
Defined.

(** The queue of capacity 4 once [2^64 - 1] values have gone through it
    and four more were pushed. *)
Lemma spsc_stuck_after_wrap_witness :
  let r := SPSC.run 4 (concat (replicate (Z.to_nat (U64.modulus - 1))
                                 [SPSC.Push 1; SPSC.Pop]) ++
                       replicate (Z.to_nat 4) (SPSC.Push 1)) (SPSC.init 4) in
  Forall (fun e => SPSC.succeeded e = true) r.1 /\
  SPSC.count_snapshot_impl 4 r.2 = 4 /\
  SPSC.push_impl 4 1 r.2 = (false, r.2) /\
  SPSC.pop_impl 4 r.2 = (None, r.2) /\
  SPSC.try_pop_impl 4 0 r.2 = (false, 0, r.2) /\
  SPSC.peek 4 r.2 = None.
Proof.
  exact (SPSC.spsc_stuck_after_wrap (T:=Z) 4 ltac:(lia) ltac:(reflexivity) ltac:(reflexivity)
           1 0 (Z.to_nat (U64.modulus - 1)) (Z2Nat.id (U64.modulus - 1) ltac:(discriminate))).
Defined.

(** One SPSC queue at address 0 whose consumer role is held by handle 7,
    while nobody holds the producer role. *)
Definition consumed_w1 : @SPSC.World Z :=
  default claimed_w0 (SPSC.wstep 4 (SPSC.WMakeConsumer 0 7) claimed_w0).

Lemma consumed_w1_reachable : SPSC.reachable 4 consumed_w1.
Proof.
  apply (SPSC.reachable_step 4 claimed_w0 consumed_w1 (SPSC.WMakeConsumer 0 7)).
  - apply SPSC.reachable_init. intros a q Hq.
    apply lookup_singleton_Some in Hq as [_ <-]. reflexivity.
  - vm_compute. reflexivity.
Defined.

Lemma consumer_claim_exclusive_witness :
  SPSC.consumer_of consumed_w1 7 = Some 0%nat /\
  SPSC.make_consumer 0 (SPSC.store_consumer_claimed true (SPSC.init (T:=Z) 4)) =
    (None, SPSC.store_consumer_claimed true (SPSC.init 4)) /\
  exists w' q',
    SPSC.wstep 4 (SPSC.WDestroyConsumer 7) consumed_w1 = Some w' /\
    SPSC.w_queues w' !! 0%nat = Some q' /\
    (forall h0, SPSC.consumer_of w' h0 <> Some 0%nat) /\
    SPSC.make_consumer 0 q' =
      (Some (SPSC.MkConsumer (Some 0%nat)), SPSC.store_consumer_claimed true q').
Proof.
  pose proof (SPSC.consumer_claim_exclusive (T:=Z) 4 consumed_w1 0
                (SPSC.store_consumer_claimed true (SPSC.init (T:=Z) 4))
                consumed_w1_reachable eq_refl) as (_ & _ & H3 & H4).
  split; [vm_compute; reflexivity|]. split.
  - apply H3. exists 7%nat. vm_compute. reflexivity.
  - apply (H4 7%nat). vm_compute. reflexivity.
Defined.

(** Two SPSC queues; handle 3 produces for queue 0 and handle 4 for queue
    1.  Assigning 3 to 4 releases the producer role of queue 1. *)
Definition released_w1 : @SPSC.World Z :=
  default assigned_w0
    (SPSC.wrun 4 [SPSC.WMakeProducer 0 3; SPSC.WMakeProducer 1 4] assigned_w0).

Definition released_w2 : @SPSC.World Z :=
  default released_w1 (SPSC.wstep 4 (SPSC.WAssignProducer 4 3) released_w1).

Lemma released_w1_reachable : SPSC.reachable 4 released_w1.
Proof.
  apply (SPSC.spsc_wrun_reachable (T:=Z) 4
           [SPSC.WMakeProducer 0 3; SPSC.WMakeProducer 1 4] assigned_w0);
    [|vm_compute; reflexivity].
  apply SPSC.reachable_init. intros a q Hq.
  apply lookup_insert_Some in Hq as [[_ <-]|[_ Hq]]; [reflexivity|].
  apply lookup_singleton_Some in Hq as [_ <-]. reflexivity.
Defined.

Lemma assign_releases_destination_witness :
  SPSC.producer_of released_w1 4 = Some 1%nat /\
  SPSC.producer_claimed_at released_w1 1%nat = Some true /\
  SPSC.producer_claimed_at released_w2 1%nat = Some false /\
  (forall h0, SPSC.producer_of released_w2 h0 <> Some 1%nat).
Proof.
  assert (Hne : 4%nat <> 3%nat) by lia.
  destruct (proj1 (SPSC.assign_releases_destination (T:=Z) 4 released_w1 released_w2
                     3%nat 4%nat 1%nat released_w1_reachable Hne) eq_refl eq_refl)
    as (H1 & H2 & _).
  split; [reflexivity|]. split; [reflexivity|]. split; [exact H1|exact H2].
Defined.


(** A table of three consumer slots is handed out in order and then runs
    out. *)
Lemma spmc_consumer_slots_run_out_witness :
  exists q : @SPMC.SPMCQueue Z,
    SPMC.run 4 3 (replicate 3 (SPMC.MakeConsumer 0)) (SPMC.init 4 3) =
      Some ([SPMC.EvMakeConsumer (Some (SPMC.MkConsumer (Some 0%nat) 0));
             SPMC.EvMakeConsumer (Some (SPMC.MkConsumer (Some 0%nat) 1));
             SPMC.EvMakeConsumer (Some (SPMC.MkConsumer (Some 0%nat) 2))], q) /\
    SPMC.make_consumer 3 0 q = (None, q).
Proof.
  exact (proj2 (SPMC.spmc_consumer_slots_run_out (T:=Z) 4 3 ltac:(lia) 0%nat)).
Defined.

(** The late-join scenario: the consumer on slot 1 attached after two
    pushes, two more values were accepted and it has popped both. *)
Definition late_q2 : @SPMC.SPMCQueue Z := (SPMC.make_consumer 2 0 late_q1).2.

Definition late_q3 : @SPMC.SPMCQueue Z :=
  default late_q2 (snd <$> SPMC.run 4 2 late_post late_q2).

Definition late_es2 : list (@SPMC.event Z) :=
  default [] (fst <$> SPMC.run 4 2 late_post late_q2).

Lemma spmc_consumer_backlog_witness :
  SPMC.pushed late_es2 = [3; 4] /\ SPMC.popped 1 late_es2 = [3; 4] /\
  SPMC.count_snapshot_impl_idx 4 1 late_q3 = Some 0 /\
  SPMC.peek 4 1 late_q3 = Some None /\
  SPMC.peek_out 4 9 1 late_q3 = Some (false, 9).
Proof.
  pose proof (SPMC.spmc_consumer_backlog (T:=Z) 4 2 ltac:(lia) ltac:(reflexivity)
                ltac:(reflexivity) late_pre late_post 0 (SPMC.MkConsumer (Some 0%nat) 1)
                _ late_es2 late_q1 late_q2 late_q3 9
                ltac:(vm_compute; reflexivity) ltac:(vm_compute; reflexivity)
                ltac:(vm_compute; reflexivity) ltac:(vm_compute; repeat constructor)
                ltac:(vm_compute; reflexivity)) as (H1 & H2 & H3 & _).
  split; [reflexivity|]. split; [reflexivity|].
  split; [exact H1|]. split; [exact H2|exact H3].
Defined.

(** A queue of capacity 4 with two consumers attached before anything was
    pushed; slot 0 has popped two of the three values, slot 1 one. *)
Definition stream_pre : list (@SPMC.op Z) := [SPMC.MakeConsumer 0; SPMC.MakeConsumer 0].

Definition stream_post : list (@SPMC.op Z) :=
  [SPMC.Push 5; SPMC.Push 6; SPMC.Pop 0; SPMC.Pop 1; SPMC.Push 7; SPMC.TryPop 0 0].

Definition stream_q1 : @SPMC.SPMCQueue Z :=
  default (SPMC.init 4 2) (snd <$> SPMC.run 4 2 stream_pre (SPMC.init 4 2)).

Definition stream_es2 : list (@SPMC.event Z) :=
  default [] (fst <$> SPMC.run 4 2 stream_post stream_q1).

Definition stream_q2 : @SPMC.SPMCQueue Z :=
  default stream_q1 (snd <$> SPMC.run 4 2 stream_post stream_q1).

Lemma spmc_broadcast_same_stream_witness :
  SPMC.popped 0 stream_es2 = [5; 6] /\ SPMC.popped 1 stream_es2 = [5] /\
  SPMC.popped 0 stream_es2 `prefix_of` SPMC.pushed stream_es2 /\
  SPMC.popped 1 stream_es2 `prefix_of` SPMC.pushed stream_es2.
Proof.
  pose proof (SPMC.spmc_broadcast_same_stream (T:=Z) 4 2 ltac:(lia) ltac:(reflexivity)
                ltac:(reflexivity) stream_pre stream_post 0 1 _ stream_es2
                stream_q1 stream_q2
                ltac:(vm_compute; reflexivity) ltac:(reflexivity) ltac:(reflexivity)
                ltac:(vm_compute; reflexivity) ltac:(vm_compute; repeat constructor)
                ltac:(vm_compute; repeat constructor) ltac:(vm_compute; reflexivity))
    as (H1 & H2 & _).
  split; [reflexivity|]. split; [reflexivity|]. split; [exact H1|exact H2].
Defined.

(** In that state slot 1 has two values waiting and slot 0 one: the
    producer's count is 2. *)
Lemma spmc_producer_count_is_largest_witness :
  SPMC.count_snapshot_impl 4 stream_q2 = 2 /\
  SPMC.count_snapshot_impl_idx 4 0 stream_q2 = Some 1 /\
  (forall n, SPMC.count_snapshot_impl_idx 4 0 stream_q2 = Some n ->
             n <= SPMC.count_snapshot_impl 4 stream_q2).
Proof.
  pose proof (SPMC.spmc_producer_count_is_largest (T:=Z) 4 2 ltac:(lia) ltac:(reflexivity)
                ltac:(reflexivity) (stream_pre ++ stream_post) _ stream_q2
                ltac:(vm_compute; reflexivity) ltac:(vm_compute; reflexivity)) as [H1 _].
  split; [reflexivity|]. split; [reflexivity|].
  intros n. apply (H1 0%nat (SPMC.MkSlot SPMC.Active 2)); reflexivity.
Defined.

(** The world [slots_w1]: handles 3 and 4 on slots 0 and 1 of the queue
    at address 0. *)
Lemma slots_w1_reachable : SPMC.reachable 4 2 slots_w1.
Proof.
  apply (SPMC.spmc_wrun_reachable (T:=Z) 4 2
           [SPMC.WMakeConsumer 0 3; SPMC.WPush 0 11; SPMC.WMakeConsumer 0 4] slots_w0);
    [|vm_compute; reflexivity].
  apply SPMC.reachable_init. intros a q Hq.
  apply lookup_singleton_Some in Hq as [_ <-]. reflexivity.
Defined.

Lemma consumer_slots_exclusive_witness :
  SPMC.slot_of slots_w1 3 = Some (0%nat, 0%nat) /\
  SPMC.slot_of slots_w1 4 = Some (0%nat, 1%nat) /\
  is_Some (SPMC.wstep 4 2 (SPMC.WPop 4) slots_w1) /\
  is_Some (SPMC.wstep 4 2 (SPMC.WDestroyConsumer 4) slots_w1).
Proof.
  destruct (SPMC.consumer_slots_exclusive (T:=Z) 4 2 ltac:(lia) slots_w1 slots_w1_reachable)
    as (_ & H2 & _).
  destruct (H2 4%nat 0%nat 1%nat eq_refl) as (_ & _ & H3 & H4).
  split; [reflexivity|]. split; [reflexivity|]. split; [exact (proj1 (H3 0))|exact H4].
Defined.

(** One SPMC queue at address 0 whose producer role is held by handle 7,
    then moved to handle 8. *)
Definition pclaimed_w0 : @SPMC.PWorld Z := SPMC.MkPWorld {[0%nat := SPMC.init 4 2]} ∅.

Definition pclaimed_w1 : @SPMC.PWorld Z :=
  default pclaimed_w0 (SPMC.pwstep 4 2 (SPMC.PMakeProducer 0 7) pclaimed_w0).

Definition pclaimed_w2 : @SPMC.PWorld Z :=
  default pclaimed_w1 (SPMC.pwstep 4 2 (SPMC.PMoveProducer 8 7) pclaimed_w1).

Lemma pclaimed_w1_reachable : SPMC.preachable 4 2 pclaimed_w1.
Proof.
  apply (SPMC.preachable_step 4 2 pclaimed_w0 pclaimed_w1 (SPMC.PMakeProducer 0 7)).
  - apply SPMC.preachable_init. intros a q Hq.
    apply lookup_singleton_Some in Hq as [_ <-]. reflexivity.
  - vm_compute. reflexivity.
Defined.

Lemma spmc_producer_claim_exclusive_witness :
  SPMC.pproducer_of pclaimed_w1 7 = Some 0%nat /\
  SPMC.make_producer 0 (SPMC.store_producer_claimed true (SPMC.init (T:=Z) 4 2)) =
    (None, SPMC.store_producer_claimed true (SPMC.init 4 2)) /\
  exists w' q',
    SPMC.pwstep 4 2 (SPMC.PDestroyProducer 7) pclaimed_w1 = Some w' /\
    SPMC.pw_queues w' !! 0%nat = Some q' /\
    (forall h0, SPMC.pproducer_of w' h0 <> Some 0%nat) /\
    SPMC.make_producer 0 q' =
      (Some (SPMC.MkProducer (Some 0%nat)), SPMC.store_producer_claimed true q').
Proof.
  pose proof (SPMC.spmc_producer_claim_exclusive (T:=Z) 4 2 pclaimed_w1 0
                (SPMC.store_producer_claimed true (SPMC.init (T:=Z) 4 2))
                pclaimed_w1_reachable eq_refl) as (_ & _ & H3 & H4).
  split; [vm_compute; reflexivity|]. split.
  - apply H3. exists 7%nat. vm_compute. reflexivity.
  - apply (H4 7%nat). vm_compute. reflexivity.
Defined.

Lemma spmc_producer_move_witness :
  SPMC.pproducer_of pclaimed_w2 8 = Some 0%nat /\
  SPMC.pproducer_of pclaimed_w2 7 = None /\
  SPMC.pclaimed_at pclaimed_w2 0%nat = Some true /\
  SPMC.pwstep 4 2 (SPMC.PPush 7 1) pclaimed_w2 = None /\
  is_Some (SPMC.pwstep 4 2 (SPMC.PPush 8 1) pclaimed_w2).
Proof.
  destruct (SPMC.spmc_producer_move (T:=Z) 4 2 pclaimed_w1 pclaimed_w2 7%nat 8%nat
              pclaimed_w1_reachable (or_introl eq_refl)) as (K1 & K2 & K3 & _ & K5 & K6).
  split; [rewrite K1; reflexivity|]. split; [exact K2|].
  split; [apply K3; reflexivity|]. split; [apply K5|].
  apply (K6 1 0%nat). reflexivity.
Defined.

(** The queue of capacity 4 on which a consumer attaches after
    [2^64 - 1] pushes. *)
Lemma spmc_overrun_after_wrap_witness :
  exists es q s,
    SPMC.run 4 2 (replicate (Z.to_nat (U64.modulus - 1)) (SPMC.Push 1) ++
                  SPMC.MakeConsumer 0 :: replicate (Z.to_nat (4 + 1)) (SPMC.Push 1))
             (SPMC.init 4 2) = Some (es, q) /\
    SPMC.m_slots q !! 0%nat = Some s /\ SPMC.state s = SPMC.Active /\
    U64.sub (SPMC.m_head q) (SPMC.tail s) = 4 + 1.
Proof.
  exact (SPMC.spmc_overrun_after_wrap (T:=Z) 4 2 ltac:(lia) ltac:(reflexivity)
           ltac:(reflexivity) 1 0%nat (Z.to_nat (U64.modulus - 1))
           (Z2Nat.id (U64.modulus - 1) ltac:(discriminate)) ltac:(lia)).
Defined.

(** Five pushes between the load of [m_head] and the scan of the slots,
    on a queue of capacity 4. *)
Lemma make_consumer_stale_head_witness :
  exists es q1 c q2 s,
    SPMC.run 4 2 (replicate (Z.to_nat (4 + 1)) (SPMC.Push 1)) (SPMC.init 4 2) = Some (es, q1) /\
    SPMC.make_consumer_scan 0 (SPMC.m_head (SPMC.init (T:=Z) 4 2)) (seq 0 2) q1 = (Some c, q2) /\
    SPMC.m_slots q2 !! SPMC.consumer_m_slot_idx c = Some s /\ SPMC.state s = SPMC.Active /\
    U64.sub (SPMC.m_head q2) (SPMC.tail s) = 4 + 1.
Proof.
  exact (SPMC.make_consumer_stale_head (T:=Z) 4 2 ltac:(lia) ltac:(reflexivity)
           ltac:(reflexivity) 1 0%nat ltac:(lia)).
Defined.

(** A fresh SPSC queue at address 0: handle 1 is constructed directly,
    handle 2 comes from [make_producer]. *)
Lemma producer_ctor_bypasses_claim_witness :
  exists w2,
    SPSC.wstep 4 (SPSC.WMakeProducer 0 2)
      (SPSC.MkWorld (SPSC.w_queues claimed_w0)
                    (<[1%nat := SPSC.Producer_ctor 0]> (SPSC.w_producers claimed_w0))
                    (SPSC.w_consumers claimed_w0)) = Some w2 /\
    SPSC.producer_of w2 1 = Some 0%nat /\ SPSC.producer_of w2 2 = Some 0%nat.
Proof.
  assert (Hne : 1%nat <> 2%nat) by lia.
  assert (Hr : SPSC.reachable 4 claimed_w0).
  { apply SPSC.reachable_init. intros a q Hq.
    apply lookup_singleton_Some in Hq as [_ <-]. reflexivity. }
  destruct (SPSC.producer_ctor_bypasses_claim (T:=Z) 4 claimed_w0 0 (SPSC.init 4) 1 2
              Hr eq_refl Hne eq_refl eq_refl) as (_ & _ & H3 & _).
  apply H3. intros h Hh. unfold SPSC.producer_of in Hh. simpl in Hh.
  rewrite lookup_empty in Hh. discriminate.
Defined.

(** A slot table with one [Initializing] and one [Free] slot whose cursor
    is stale: the producer sees neither. *)
Lemma spmc_inactive_slot_ignored_witness :
  let q : @SPMC.SPMCQueue Z :=
    SPMC.MkQueue [0; 0] 5 [SPMC.MkSlot SPMC.Initializing 0; SPMC.MkSlot SPMC.Free 3] false in
  (SPMC.push_impl 2 1 (SPMC.store_tail 1 0 q)).1 = (SPMC.push_impl 2 1 q).1 /\
  SPMC.count_snapshot_impl 2 (SPMC.store_tail 1 0 q) = SPMC.count_snapshot_impl 2 q /\
  (forall this c q', SPMC.make_consumer 2 this q = (Some c, q') ->
                     SPMC.consumer_m_slot_idx c <> 0%nat).
Proof.
  intros q. split; [|split].
  - refine (proj1 (proj2 (SPMC.spmc_inactive_slot_ignored (T:=Z) 2 2 ltac:(lia) 1 0 q 1
                            ltac:(split; reflexivity) _))).
    intros s Hs. injection Hs as <-. discriminate.
  - refine (proj1 (proj2 (proj2 (SPMC.spmc_inactive_slot_ignored (T:=Z) 2 2 ltac:(lia) 1 0 q 1
                                   ltac:(split; reflexivity) _)))).
    intros s Hs. injection Hs as <-. discriminate.
  - intros this c q'.
    refine (proj2 (proj2 (proj2 (SPMC.spmc_inactive_slot_ignored (T:=Z) 2 2 ltac:(lia) 0 0 q 1
                                   ltac:(split; reflexivity) _))) this c q'
                  (SPMC.MkSlot SPMC.Initializing 0) eq_refl eq_refl).
    intros s Hs. injection Hs as <-. discriminate.
Defined.

(** The queue [stalled_q] is full because of the consumer on slot 0, which
    has popped nothing; the consumer on slot 1 has popped everything. *)
Lemma spmc_backpressure_released_witness :
  (SPMC.push_impl 2 30 stalled_q).1 = false /\
  (exists v q1, SPMC.pop_impl 2 0 stalled_q = Some (Some v, q1) /\
                (SPMC.push_impl 2 30 q1).1 = true) /\
  (exists q1, SPMC.step 2 2 (SPMC.DropConsumer 0) stalled_q = Some (SPMC.EvDrop, q1) /\
              (SPMC.push_impl 2 30 q1).1 = true).
Proof.
  destruct (SPMC.spmc_backpressure_released (T:=Z) 2 2 ltac:(lia) ltac:(reflexivity)
              ltac:(reflexivity) (stalled_setup ++ stalled_ops) _ stalled_q 0
              (SPMC.MkSlot SPMC.Active 0) 30
              ltac:(vm_compute; reflexivity) ltac:(vm_compute; reflexivity)
              eq_refl eq_refl) as (H1 & H2 & H3).
  - intros j s' Hj Hs' Ha. destruct j as [|[|j]]; [congruence| |discriminate Hs'].
    injection Hs' as <-. reflexivity.
  - split; [apply H1; reflexivity|]. split; [apply H2; reflexivity|exact H3].
Defined.

(** ** The event subscription system (src/evt/event.h)

    [Event<Args...>] keeps the subscribed callbacks in a vector, each
    under an id drawn from a 64-bit counter; a [Subscription] remembers
    the event and the id and unsubscribes in its destructor.  Every
    member function of [Event] runs under the event's mutex and is one
    step here.  A callback is a value of the type [C] of callable
    targets, or [None] for an empty [std::function]; what a callback does
    when it is invoked is not part of the embedding: [emit] is described
    by the calls it makes, in order, on the snapshot it takes under the
    mutex. *)

Module EVT.

Section event.

Context {Args C : Type}.

(** [struct Handle] *)
Record Handle : Type := MkHandle { id : Z; callback : option C }.

(** The data members of [Event]. *)
Record Event : Type := MkEvent { m_handles : list Handle; m_next_id : Z }.

(** [Event() = default] *)
Definition init : Event := {| m_handles := []; m_next_id := 0 |}.

(** [Event::unsubscribe(id)]: [std::remove_if] followed by [erase]. *)
Definition unsubscribe (i : Z) (e : Event) : Event :=
  MkEvent (filter (fun h => id h <> i) (m_handles e)) (m_next_id e).

(** [class Subscription]: [Event* m_event] and [std::uint64_t m_id]. *)
Record Subscription : Type := MkSubscription { m_event : option addr; m_id : Z }.

(** [Subscription() = default] *)
Definition Subscription_default : Subscription := MkSubscription None 0.

(** [Event::subscribe(f)] on the event object at address [this];
    [m_next_id.fetch_add(1)] returns the old value. *)
Definition subscribe (this : addr) (f : option C) (e : Event) : Subscription * Event :=
  let i := m_next_id e in
  (MkSubscription (Some this) i,
   MkEvent (m_handles e ++ [MkHandle i f]) (U64.add i 1)).

(** [Event::emit(args...)]: the calls made, in order. *)
Definition emit (args : Args) (e : Event) : list (C * Args) :=
  let snapshot := m_handles e in
  omap (fun handle => match callback handle with
                      | Some f => Some (f, args)
                      | None => None
                      end) snapshot.

(** [Event::subscriber_count()] *)
Definition subscriber_count (e : Event) : nat := length (m_handles e).

(** [Subscription::unsubscribe()], acting on the store of event objects:
    the subscription afterwards and the store.  [None]: the event pointed
    to no longer exists. *)
Definition Subscription_unsubscribe (self : Subscription) (σ : gmap addr Event)
  : option (Subscription * gmap addr Event) :=
  match m_event self with
  | Some a =>
      e ← σ !! a;
      Some (MkSubscription None 0, <[a := unsubscribe (m_id self) e]> σ)
  | None => Some (self, σ)
  end.

(** [Subscription::operator bool] *)
Definition Subscription_bool (self : Subscription) : bool :=
  bool_decide (m_event self <> None).

(** [Subscription(Subscription&& other)]: the new object and [other]
    afterwards. *)
Definition Subscription_move_ctor (other : Subscription) : Subscription * Subscription :=
  (MkSubscription (m_event other) (m_id other), MkSubscription None 0).

(** [Subscription::operator=(Subscription&& other)] on two distinct
    objects: [*this] and [other] afterwards, and the store. *)
Definition Subscription_move_assign (self other : Subscription) (σ : gmap addr Event)
  : option (Subscription * Subscription * gmap addr Event) :=
  '(_, σ') ← Subscription_unsubscribe self σ;
  Some (MkSubscription (m_event other) (m_id other), MkSubscription None 0, σ').

(** *** Event objects and subscription objects together *)

Record World : Type := MkWorld {
  w_events : gmap addr Event;
  w_subs : gmap hid Subscription
}.

(** The statements a program can execute.  [WSubscribe a h f] is
    [auto h = event_a.subscribe(f)], [WDefault h] is [Subscription h;],
    [WUnsubscribe h] is [h.unsubscribe()], [WDestroy h] ends the lifetime
    of [h], [WMove h' h] is [Subscription h'(std::move(h))] and
    [WAssign h' h] is [h' = std::move(h)]. *)
Inductive wop : Type :=
| WSubscribe (a : addr) (h : hid) (f : option C)
| WDefault (h : hid)
| WUnsubscribe (h : hid)
| WDestroy (h : hid)
| WMove (h' h : hid)
| WAssign (h' h : hid).

(** One statement.  [None]: the statement is not executable (a name that
    is not alive, a new name that is already in use, no event at the
    address). *)
Definition wstep (o : wop) (w : World) : option World :=
  match o with
  | WSubscribe a h f =>
      if decide (w_subs w !! h = None) then
        e ← w_events w !! a;
        let '(s, e') := subscribe a f e in
        Some (MkWorld (<[a := e']> (w_events w)) (<[h := s]> (w_subs w)))
      else None
  | WDefault h =>
      if decide (w_subs w !! h = None) then
        Some (MkWorld (w_events w) (<[h := Subscription_default]> (w_subs w)))
      else None
  | WUnsubscribe h =>
      s ← w_subs w !! h;
      '(s', σ') ← Subscription_unsubscribe s (w_events w);
      Some (MkWorld σ' (<[h := s']> (w_subs w)))
  | WDestroy h =>
      s ← w_subs w !! h;
      '(_, σ') ← Subscription_unsubscribe s (w_events w);
      Some (MkWorld σ' (delete h (w_subs w)))
  | WMove h' h =>
      if decide (w_subs w !! h' = None) then
        s ← w_subs w !! h;
        let '(snew, sold) := Subscription_move_ctor s in
        Some (MkWorld (w_events w) (<[h' := snew]> (<[h := sold]> (w_subs w))))
      else None
  | WAssign h' h =>
      s' ← w_subs w !! h';
      s ← w_subs w !! h;
      if decide (h' = h) then Some w
      else
        '(s1, s2, σ') ← Subscription_move_assign s' s (w_events w);
        Some (MkWorld σ' (<[h' := s1]> (<[h := s2]> (w_subs w))))
  end.

(** A program: one statement after the other. *)
Fixpoint wrun (ops : list wop) (w : World) : option World :=
  match ops with
  | [] => Some w
  | o :: ops' => w' ← wstep o w; wrun ops' w'
  end.

(** The number of [subscribe] calls. *)
Fixpoint subscribe_count (ops : list wop) : nat :=
  match ops with
  | [] => 0%nat
  | WSubscribe _ _ _ :: ops' => S (subscribe_count ops')
  | _ :: ops' => subscribe_count ops'
  end.

(** A world of freshly constructed events and no subscription object. *)
Definition fresh (w : World) : Prop :=
  w_subs w = ∅ /\ forall a e, w_events w !! a = Some e -> e = init.

(** The event and id the subscription object [h] points to. *)
Definition sub_of (w : World) (h : hid) : option (addr * Z) :=
  s ← w_subs w !! h;
  a ← m_event s;
  Some (a, m_id s).

(** Is there a callback under this id in the event at this address? *)
Definition listed (e : Event) (i : Z) : bool :=
  bool_decide (i ∈ id <$> m_handles e).

Definition listed_at (w : World) (r : addr * Z) : option bool :=
  (fun e => listed e r.2) <$> w_events w !! r.1.

(** Subscribing the callbacks [fs] one after the other. *)
Definition subscribe_all (this : addr) (fs : list (option C)) (e : Event) : Event :=
  foldl (fun e f => (subscribe this f e).2) e fs.

(** *** Ids and subscriptions agree *)

Lemma listed_unsubscribe (i j : Z) (e : Event) :
  listed (unsubscribe i e) j = if decide (i = j) then false else listed e j.
Proof.
  unfold listed, unsubscribe; cbn [m_handles]. case_decide as Hij.
  - subst j. apply bool_decide_eq_false_2. intros Hin.
    apply list_elem_of_fmap in Hin as (h & Hh & Hin).
    apply list_elem_of_filter in Hin as [Hne _]. congruence.
  - apply bool_decide_ext. rewrite !list_elem_of_fmap. split.
    + intros (h & Hh & Hin). apply list_elem_of_filter in Hin as [_ Hin]. eauto.
    + intros (h & Hh & Hin). exists h. split; [exact Hh|].
      apply list_elem_of_filter. split; [congruence|exact Hin].
Qed.

Lemma listed_subscribe (this : addr) (f : option C) (e : Event) (j : Z) :
  listed (subscribe this f e).2 j =
    if decide (m_next_id e = j) then true else listed e j.
Proof.
  unfold listed, subscribe; cbn [m_handles snd]. rewrite fmap_app. cbn [fmap list_fmap id].
  case_decide as Hj.
  - subst j. apply bool_decide_eq_true_2. apply elem_of_app. right. apply list_elem_of_singleton.
    reflexivity.
  - apply bool_decide_ext. rewrite elem_of_app, list_elem_of_singleton. intuition congruence.
Qed.

(** The ids in use are below the counter, which has not wrapped, and no
    id is in use twice. *)
Definition ids_ok (n : Z) (e : Event) : Prop :=
  0 <= m_next_id e <= n /\
  Forall (fun h => 0 <= id h < m_next_id e) (m_handles e) /\
  NoDup (id <$> m_handles e).

Lemma ids_ok_init : ids_ok 0 init.
Proof. unfold ids_ok, init; simpl. split; [lia|]. split; constructor. Qed.

Lemma ids_ok_mono (n n' : Z) (e : Event) : n <= n' -> ids_ok n e -> ids_ok n' e.
Proof. intros Hn (H1 & H2 & H3). split; [lia|]. auto. Qed.

Lemma ids_ok_unsubscribe (n i : Z) (e : Event) : ids_ok n e -> ids_ok n (unsubscribe i e).
Proof.
  intros (H1 & H2 & H3). unfold ids_ok, unsubscribe; cbn [m_handles m_next_id].
  split; [exact H1|]. split.
  - apply Forall_forall. intros h Hin. apply list_elem_of_filter in Hin as [_ Hin].
    rewrite Forall_forall in H2. apply H2, Hin.
  - eapply sublist_NoDup; [exact H3|apply fmap_sublist, sublist_filter].
Qed.

Lemma ids_ok_subscribe (n : Z) (this : addr) (f : option C) (e : Event) :
  ids_ok n e -> n + 1 < U64.modulus ->
  ids_ok (n + 1) (subscribe this f e).2 /\ listed e (m_next_id e) = false.
Proof.
  intros (H1 & H2 & H3) Hn.
  assert (Hfresh : m_next_id e ∉ id <$> m_handles e).
  { intros Hin. apply list_elem_of_fmap in Hin as (h & Hh & Hin).
    rewrite Forall_forall in H2. specialize (H2 h Hin). lia. }
  split; [|apply bool_decide_eq_false_2, Hfresh].
  unfold ids_ok, subscribe; cbn [m_handles m_next_id snd].
  rewrite U64.add_small by lia. split; [lia|]. split.
  - apply Forall_app. split.
    + eapply Forall_impl; [exact H2|]. intros h Hh. simpl in Hh. lia.
    + constructor; [simpl; lia|constructor].
  - rewrite fmap_app. apply NoDup_app. split; [exact H3|]. split.
    + intros x Hx Hx'. apply list_elem_of_singleton in Hx'. subst x. exact (Hfresh Hx).
    + apply NoDup_singleton.
Qed.

(** Every subscription object that points to an event has its callback
    listed there under its id, exactly one subscription object per listed
    id; and the ids are in order. *)
Definition world_ok (n : Z) (w : World) : Prop :=
  (forall a e, w_events w !! a = Some e -> ids_ok n e) /\
  exclusive (sub_of w) (listed_at w).

Lemma evt_world_ok_mono (n n' : Z) (w : World) : n <= n' -> world_ok n w -> world_ok n' w.
Proof.
  intros Hn [H1 H2]. split; [|exact H2].
  intros a e He. eapply ids_ok_mono; [exact Hn|]. eapply H1, He.
Qed.

Lemma evt_world_ok_fresh (w : World) : fresh w -> world_ok 0 w.
Proof.
  intros [Hs He]. split; [|split; [|split]].
  - intros a e Ha. rewrite (He a e Ha). apply ids_ok_init.
  - intros h r. unfold sub_of. rewrite Hs, lookup_empty. discriminate.
  - intros h1 h2 r. unfold sub_of. rewrite Hs, lookup_empty. discriminate.
  - intros [a i]. unfold listed_at; simpl.
    destruct (w_events w !! a) as [e|] eqn:Ha; simpl; [|discriminate].
    rewrite (He a e Ha). discriminate.
Qed.

Lemma sub_of_insert σ ss h s h1 :
  sub_of (MkWorld σ (<[h := s]> ss)) h1 =
    if decide (h = h1) then (a ← m_event s; Some (a, m_id s))
    else sub_of (MkWorld σ ss) h1.
Proof. unfold sub_of; simpl. rewrite lookup_insert. case_decide; reflexivity. Qed.

Lemma listed_at_insert σ ss a e' (r : addr * Z) :
  listed_at (MkWorld (<[a := e']> σ) ss) r =
    if decide (a = r.1) then Some (listed e' r.2) else listed_at (MkWorld σ ss) r.
Proof. unfold listed_at; simpl. rewrite lookup_insert. case_decide; reflexivity. Qed.

(** [unsubscribe()] through the subscription object [h], in place. *)
Lemma evt_world_ok_release n w h s s' σ' :
  world_ok n w -> w_subs w !! h = Some s ->
  Subscription_unsubscribe s (w_events w) = Some (s', σ') ->
  world_ok n (MkWorld σ' (<[h := s']> (w_subs w))) /\ m_event s' = None.
Proof.
  intros [Hids Hx] Hh Hun. unfold Subscription_unsubscribe in Hun.
  destruct s as [[a|] i]; cbn [m_event m_id] in Hun.
  - assert (Hown : sub_of w h = Some (a, i)) by (unfold sub_of; rewrite Hh; reflexivity).
    destruct (w_events w !! a) as [e|] eqn:He; simpl in Hun; [|discriminate].
    injection Hun as <- <-. split; [|reflexivity]. split.
    + intros b eb. simpl. rewrite lookup_insert. case_decide; [|apply Hids].
      intros Hb. injection Hb as <-. apply ids_ok_unsubscribe. eapply Hids, He.
    + eapply exclusive_ext; [apply (exclusive_release _ _ h (a, i) Hx Hown)| |].
      * intros h1. rewrite sub_of_insert, fn_lookup_insert_decide.
        case_decide; [reflexivity|]. destruct w; reflexivity.
      * intros [b j]. rewrite listed_at_insert, fn_lookup_insert_decide. cbn [fst snd].
        destruct (decide (a = b)) as [->|Hab].
        -- rewrite listed_unsubscribe. destruct (decide (i = j)) as [->|Hij].
           ++ rewrite decide_True by reflexivity. reflexivity.
           ++ rewrite decide_False by congruence.
              unfold listed_at; simpl. rewrite He. reflexivity.
        -- rewrite decide_False by congruence. destruct w; reflexivity.
  - injection Hun as <- <-. split; [|reflexivity]. split; [exact Hids|].
    apply (exclusive_ext _ _ _ _ Hx); [|destruct w; reflexivity].
    intros h1. rewrite sub_of_insert. case_decide; [|destruct w; reflexivity].
    subst h1. unfold sub_of. rewrite Hh. reflexivity.
Qed.

(** A subscription object that points to nothing goes out of existence. *)
Lemma evt_world_ok_delete n w h :
  world_ok n w -> sub_of w h = None ->
  world_ok n (MkWorld (w_events w) (delete h (w_subs w))).
Proof.
  intros [Hids Hx] Hh. split; [exact Hids|].
  apply (exclusive_ext _ _ _ _ Hx); [|reflexivity].
  intros h1. unfold sub_of; simpl. rewrite lookup_delete. case_decide; [|reflexivity].
  subst h1. symmetry. exact Hh.
Qed.

(** The pointer of [h] passes to [h'], which pointed to nothing. *)
Lemma evt_world_ok_transfer n w h h' s :
  world_ok n w -> h <> h' -> sub_of w h' = None -> w_subs w !! h = Some s ->
  world_ok n (MkWorld (w_events w)
                (<[h' := MkSubscription (m_event s) (m_id s)]>
                   (<[h := MkSubscription None 0]> (w_subs w)))).
Proof.
  intros [Hids Hx] Hne Hh' Hh. split; [exact Hids|].
  eapply exclusive_ext; [apply (exclusive_transfer _ _ h h' Hx Hne Hh')| |reflexivity].
  intros h1. rewrite !sub_of_insert, !fn_lookup_insert_decide.
  destruct (decide (h' = h1)) as [->|H1].
  - unfold sub_of. rewrite Hh. reflexivity.
  - destruct (decide (h = h1)) as [->|H2]; [reflexivity|]. destruct w; reflexivity.
Qed.

(** Every statement keeps ids and subscriptions in agreement, as long as
    the id counter does not wrap. *)
Lemma evt_world_ok_step n o w w' :
  world_ok n w -> n + Z.of_nat (subscribe_count [o]) < U64.modulus ->
  wstep o w = Some w' ->
  world_ok (n + Z.of_nat (subscribe_count [o])) w'.
Proof.
  intros Hw Hn Hstep.
  destruct o as [a h f|h|h|h|h' h|h' h]; simpl in Hstep, Hn |- *;
    rewrite ?Z.add_0_r.
  - case_decide as Hh; [|discriminate].
    destruct (w_events w !! a) as [e|] eqn:He; simpl in Hstep; [|discriminate].
    injection Hstep as <-. destruct Hw as [Hids Hx].
    destruct (ids_ok_subscribe n a f e (Hids a e He) ltac:(lia)) as [Hok Hnew].
    split.
    + intros b eb. simpl. rewrite lookup_insert. case_decide.
      * intros Hb. injection Hb as <-. exact Hok.
      * intros Hb. eapply ids_ok_mono; [|eapply Hids, Hb]. lia.
    + eapply exclusive_ext;
        [apply (exclusive_acquire _ _ h (a, m_next_id e) Hx)| |].
      * unfold sub_of. rewrite Hh. reflexivity.
      * unfold listed_at; simpl. rewrite He. simpl. rewrite Hnew. reflexivity.
      * intros h1. rewrite sub_of_insert, fn_lookup_insert_decide.
        case_decide; [reflexivity|]. destruct w; reflexivity.
      * intros [b j]. rewrite listed_at_insert, fn_lookup_insert_decide. cbn [fst snd].
        destruct (decide (a = b)) as [->|Hab].
        -- change (MkEvent (m_handles e ++ [MkHandle (m_next_id e) f])
                           (U64.add (m_next_id e) 1))
             with (subscribe b f e).2.
           rewrite listed_subscribe. destruct (decide (m_next_id e = j)) as [->|Hij].
           ++ rewrite decide_True by reflexivity. reflexivity.
           ++ rewrite decide_False by congruence.
              unfold listed_at; simpl. rewrite He. reflexivity.
        -- rewrite decide_False by congruence. destruct w; reflexivity.
  - case_decide as Hh; [|discriminate]. injection Hstep as <-.
    destruct Hw as [Hids Hx]. split; [exact Hids|].
    apply (exclusive_ext _ _ _ _ Hx); [|reflexivity].
    intros h1. rewrite sub_of_insert. case_decide; [|destruct w; reflexivity].
    subst h1. unfold sub_of. rewrite Hh. reflexivity.
  - destruct (w_subs w !! h) as [s|] eqn:Hs; simpl in Hstep; [|discriminate].
    destruct (Subscription_unsubscribe s (w_events w)) as [[s' σ']|] eqn:Hun;
      simpl in Hstep; [|discriminate].
    injection Hstep as <-. eapply evt_world_ok_release; eassumption.
  - destruct (w_subs w !! h) as [s|] eqn:Hs; simpl in Hstep; [|discriminate].
    destruct (Subscription_unsubscribe s (w_events w)) as [[s' σ']|] eqn:Hun;
      simpl in Hstep; [|discriminate].
    injection Hstep as <-.
    destruct (evt_world_ok_release n w h s s' σ' Hw Hs Hun) as [H1 Hnull].
    apply (evt_world_ok_delete _ _ h) in H1.
    + simpl in H1. rewrite delete_insert_eq in H1. exact H1.
    + rewrite sub_of_insert, decide_True by reflexivity. rewrite Hnull. reflexivity.
  - case_decide as Hh'; [|discriminate].
    destruct (w_subs w !! h) as [s|] eqn:Hs; simpl in Hstep; [|discriminate].
    injection Hstep as <-. apply evt_world_ok_transfer; try assumption.
    + intros ->. congruence.
    + unfold sub_of. rewrite Hh'. reflexivity.
  - destruct (w_subs w !! h') as [s'|] eqn:Hs'; simpl in Hstep; [|discriminate].
    destruct (w_subs w !! h) as [s|] eqn:Hs; simpl in Hstep; [|discriminate].
    case_decide as Hne; [injection Hstep as <-; assumption|].
    unfold Subscription_move_assign in Hstep.
    destruct (Subscription_unsubscribe s' (w_events w)) as [[s1 σ']|] eqn:Hun;
      simpl in Hstep; [|discriminate].
    injection Hstep as <-.
    destruct (evt_world_ok_release n w h' s' s1 σ' Hw Hs' Hun) as [H1 Hnull].
    apply (evt_world_ok_transfer _ _ h h' s) in H1; simpl; try congruence.
    + simpl in H1.
      replace (<[h':=MkSubscription (m_event s) (m_id s)]>
                 (<[h:=MkSubscription None 0]> (w_subs w)))
        with (<[h':=MkSubscription (m_event s) (m_id s)]>
                (<[h:=MkSubscription None 0]> (<[h':=s1]> (w_subs w))));
        [exact H1|].
      apply map_eq. intros k. rewrite !lookup_insert. repeat case_decide; congruence.
    + rewrite sub_of_insert, decide_True by reflexivity. rewrite Hnull. reflexivity.
    + rewrite lookup_insert_ne by assumption. assumption.
Qed.

Lemma subscribe_count_cons o ops :
  subscribe_count (o :: ops) = (subscribe_count [o] + subscribe_count ops)%nat.
Proof. destruct o; reflexivity. Qed.

Lemma evt_world_ok_run ops : forall n w w',
  world_ok n w -> n + Z.of_nat (subscribe_count ops) < U64.modulus ->
  wrun ops w = Some w' ->
  world_ok (n + Z.of_nat (subscribe_count ops)) w'.
Proof.
  induction ops as [|o ops IH]; intros n w w' Hw Hn Hrun.
  - simpl in Hrun |- *. injection Hrun as <-. rewrite Z.add_0_r. exact Hw.
  - simpl in Hrun. destruct (wstep o w) as [w1|] eqn:Hstep; simpl in Hrun; [|discriminate].
    rewrite subscribe_count_cons, Nat2Z.inj_add in Hn |- *.
    pose proof (evt_world_ok_step n o w w1 Hw ltac:(lia) Hstep) as Hw1.
    specialize (IH _ w1 w' Hw1 ltac:(lia) Hrun).
    rewrite Z.add_assoc. exact IH.
Qed.

(** The worlds a program brings about from fresh events with fewer than
    [2^64] calls of [subscribe]. *)
Definition reached (w : World) : Prop :=
  exists w0 ops,
    fresh w0 /\ wrun ops w0 = Some w /\ Z.of_nat (subscribe_count ops) < U64.modulus.

Lemma reached_world_ok w : reached w -> exists n, n < U64.modulus /\ world_ok n w.
Proof.
  intros (w0 & ops & Hf & Hrun & Hn). exists (0 + Z.of_nat (subscribe_count ops)).
  split; [lia|].
  apply (evt_world_ok_run ops 0 w0 w (evt_world_ok_fresh w0 Hf)); [lia|exact Hrun].
Qed.

Lemma filter_all {A : Type} (P : A -> Prop) `{!forall x, Decision (P x)} (l : list A) :
  Forall P l -> filter P l = l.
Proof.
  induction 1 as [|x l Hx _ IH]; [reflexivity|].
  rewrite filter_cons_True by assumption. rewrite IH. reflexivity.
Qed.

(** Removing the one callback listed under [i]. *)
Lemma unsubscribe_split (i : Z) (f : option C) (l1 l2 : list Handle) (n : Z) :
  NoDup (id <$> (l1 ++ MkHandle i f :: l2)) ->
  unsubscribe i (MkEvent (l1 ++ MkHandle i f :: l2) n) = MkEvent (l1 ++ l2) n.
Proof.
  intros Hnd. unfold unsubscribe; cbn [m_handles m_next_id]. f_equal.
  rewrite fmap_app in Hnd. apply NoDup_app in Hnd as (_ & Hl1 & Hnd).
  cbn [fmap list_fmap id] in Hl1, Hnd. apply NoDup_cons in Hnd as [Hl2 _].
  rewrite filter_app, filter_cons_False by (cbn [id]; intros Hne; apply Hne; reflexivity).
  rewrite !filter_all; [reflexivity| |].
  - apply Forall_forall. intros h Hh Heq. apply Hl2.
    apply list_elem_of_fmap. exists h. split; [symmetry; exact Heq|exact Hh].
  - apply Forall_forall. intros h Hh Heq. apply (Hl1 i).
    + apply list_elem_of_fmap. exists h. split; [symmetry; exact Heq|exact Hh].
    + left.
Qed.

Lemma emit_app (args : Args) (l1 l2 : list Handle) (n : Z) :
  emit args (MkEvent (l1 ++ l2) n) = emit args (MkEvent l1 n) ++ emit args (MkEvent l2 n).
Proof. unfold emit; cbn [m_handles]. apply omap_app. Qed.

(** Subscribing a list of callbacks appends them under consecutive ids. *)
Lemma subscribe_all_handles (this : addr) (fs : list (option C)) : forall e,
  0 <= m_next_id e -> m_next_id e + Z.of_nat (length fs) < U64.modulus ->
  m_handles (subscribe_all this fs e) =
    m_handles e ++ imap (fun k f => MkHandle (m_next_id e + Z.of_nat k) f) fs /\
  m_next_id (subscribe_all this fs e) = m_next_id e + Z.of_nat (length fs).
Proof.
  induction fs as [|f fs IH]; intros e H0 Hn.
  - simpl. rewrite app_nil_r. split; [reflexivity|lia].
  - cbn [subscribe_all foldl]. fold (subscribe_all this fs (subscribe this f e).2).
    simpl in Hn.
    assert (Hnext : m_next_id (subscribe this f e).2 = m_next_id e + 1).
    { unfold subscribe; cbn [snd m_next_id]. apply U64.add_small. lia. }
    destruct (IH (subscribe this f e).2) as [IH1 IH2]; [lia|lia|].
    rewrite IH1, IH2, Hnext. split; [|simpl; lia].
    unfold subscribe; cbn [snd m_handles]. rewrite <- app_assoc. f_equal.
    cbn [imap app]. rewrite Z.add_0_r. f_equal.
    apply imap_ext. intros k g _. cbn. f_equal. lia.
Qed.


(** *** What subscribers can rely on *)

(** X21 (subscriptions and callbacks).  Subscription objects and subscribed
    callbacks correspond one to one.  In every world a program brings about
    from fresh events with fewer than [2^64] calls of [subscribe]: no id is
    listed twice in an event; the callback of every subscription object that
    points to an event is listed in that event under the object's id; no two
    subscription objects point to the same event and id; and every listed
    callback has a subscription object pointing to it. *)
Theorem subscriptions_match_callbacks (w : World) :
  reached w ->
  (forall a e, w_events w !! a = Some e -> NoDup (id <$> m_handles e)) /\
  (forall h a i, sub_of w h = Some (a, i) ->
     exists e, w_events w !! a = Some e /\ i ∈ id <$> m_handles e) /\
  (forall h1 h2 r, sub_of w h1 = Some r -> sub_of w h2 = Some r -> h1 = h2) /\
  (forall a e hd, w_events w !! a = Some e -> hd ∈ m_handles e ->
     exists h, sub_of w h = Some (a, id hd)).
Proof.
  intros Hr. destruct (reached_world_ok w Hr) as (n & _ & Hids & H1 & H2 & H3).
  split; [|split; [|split]].
  - intros a e He. apply (Hids a e He).
  - intros h a i Hh. specialize (H1 h (a, i) Hh). unfold listed_at in H1. simpl in H1.
    destruct (w_events w !! a) as [e|]; simpl in H1; [|discriminate].
    exists e. split; [reflexivity|]. injection H1 as H1.
    apply bool_decide_eq_true in H1. exact H1.
  - exact H2.
  - intros a e hd He Hin. apply (H3 (a, id hd)). unfold listed_at. simpl. rewrite He. simpl.
    f_equal. apply bool_decide_eq_true_2. apply list_elem_of_fmap. eauto.
Qed.

(** X22 ([unsubscribe]).  [unsubscribe()] through a subscription object, or
    the object's destructor, removes exactly the callback that was
    subscribed through it.  In every reached world, the event a subscription
    object points to lists that object's callback once; [unsubscribe()] and
    the destructor are executable and leave the other callbacks of the event
    in their order, so [subscriber_count] falls by one and [emit] makes the
    same calls as before except this one; other events are not touched; the
    subscription object is empty afterwards ([operator bool] gives false),
    and a second [unsubscribe()] changes nothing. *)
Theorem unsubscribe_removes_own_callback (w : World) (h : hid) (a : addr) (i : Z)
    (e : Event) (args : Args) :
  reached w -> sub_of w h = Some (a, i) -> w_events w !! a = Some e ->
  exists l1 f l2,
    m_handles e = l1 ++ MkHandle i f :: l2 /\
    is_Some (wstep (WUnsubscribe h) w) /\ is_Some (wstep (WDestroy h) w) /\
    forall w',
      wstep (WUnsubscribe h) w = Some w' \/ wstep (WDestroy h) w = Some w' ->
      exists e',
        w_events w' !! a = Some e' /\
        m_handles e' = l1 ++ l2 /\
        S (subscriber_count e') = subscriber_count e /\
        emit args e =
          emit args (MkEvent l1 0) ++
          match f with Some g => [(g, args)] | None => [] end ++
          emit args (MkEvent l2 0) /\
        emit args e' = emit args (MkEvent l1 0) ++ emit args (MkEvent l2 0) /\
        (forall b, b <> a -> w_events w' !! b = w_events w !! b) /\
        sub_of w' h = None /\
        (forall s', w_subs w' !! h = Some s' -> Subscription_bool s' = false) /\
        (wstep (WUnsubscribe h) w = Some w' -> wstep (WUnsubscribe h) w' = Some w').
Proof.
  intros Hr Hh He. destruct (reached_world_ok w Hr) as (n & _ & Hids & H1 & _).
  pose proof (H1 h (a, i) Hh) as Hl. unfold listed_at in Hl. simpl in Hl.
  rewrite He in Hl. simpl in Hl. injection Hl as Hl. apply bool_decide_eq_true in Hl.
  apply list_elem_of_fmap in Hl as (hd & Hid & Hin).
  apply list_elem_of_split in Hin as (l1 & l2 & Hsplit).
  destruct hd as [i0 f]. cbn [id] in Hid. subst i0.
  destruct (Hids a e He) as (_ & _ & Hnd).
  destruct e as [hs nx]. cbn [m_handles] in Hsplit, Hnd. subst hs.
  pose proof (unsubscribe_split i f l1 l2 nx Hnd) as Hun.
  unfold sub_of in Hh.
  destruct (w_subs w !! h) as [s|] eqn:Hs; simpl in Hh; [|discriminate].
  destruct s as [[a0|] i0]; simpl in Hh; [|discriminate]. injection Hh as -> ->.
  assert (Hsu : Subscription_unsubscribe (MkSubscription (Some a) i) (w_events w) =
                Some (MkSubscription None 0, <[a := MkEvent (l1 ++ l2) nx]> (w_events w))).
  { unfold Subscription_unsubscribe. cbn [m_event m_id]. rewrite He. simpl. rewrite Hun.
    reflexivity. }
  exists l1, f, l2. split; [reflexivity|].
  split; [simpl; rewrite Hs; simpl; rewrite Hsu; simpl; eauto|].
  split; [simpl; rewrite Hs; simpl; rewrite Hsu; simpl; eauto|].
  intros w' Hstep. exists (MkEvent (l1 ++ l2) nx).
  assert (Hev : w_events w' = <[a := MkEvent (l1 ++ l2) nx]> (w_events w) /\
                sub_of w' h = None /\
                (forall s', w_subs w' !! h = Some s' -> Subscription_bool s' = false) /\
                (wstep (WUnsubscribe h) w = Some w' -> wstep (WUnsubscribe h) w' = Some w')).
  { destruct Hstep as [Hstep|Hstep]; simpl in Hstep; rewrite Hs in Hstep; simpl in Hstep;
      rewrite Hsu in Hstep; simpl in Hstep; injection Hstep as <-.
    - split; [reflexivity|]. split; [|split].
      + rewrite sub_of_insert, decide_True by reflexivity. reflexivity.
      + intros s' Hs'. simpl in Hs'. rewrite lookup_insert_eq in Hs'.
        injection Hs' as <-. reflexivity.
      + intros _. simpl. rewrite lookup_insert_eq. simpl. rewrite insert_insert_eq.
        reflexivity.
    - split; [reflexivity|]. split; [|split].
      + unfold sub_of; simpl. rewrite lookup_delete_eq. reflexivity.
      + intros s' Hs'. simpl in Hs'. rewrite lookup_delete_eq in Hs'. discriminate.
      + intros Hu. simpl in Hu. rewrite Hs in Hu. simpl in Hu. rewrite Hsu in Hu.
        simpl in Hu. injection Hu as Hu.
        assert (Hlk : <[h:=MkSubscription None 0]> (w_subs w) !! h =
                      delete h (w_subs w) !! h) by (rewrite Hu; reflexivity).
        rewrite lookup_insert_eq, lookup_delete_eq in Hlk. discriminate. }
  destruct Hev as (Hev & Hnone & Hbool & Hidem). rewrite Hev.
  split; [apply lookup_insert_eq|]. split; [reflexivity|]. split.
  { unfold subscriber_count; cbn [m_handles]. rewrite !length_app. simpl. lia. }
  split.
  { rewrite (emit_app args l1 (MkHandle i f :: l2) nx).
    change (MkHandle i f :: l2) with ([MkHandle i f] ++ l2).
    rewrite (emit_app args [MkHandle i f] l2 nx). unfold emit; cbn [m_handles].
    destruct f; reflexivity. }
  split; [rewrite emit_app; reflexivity|].
  split; [intros b Hb; apply lookup_insert_ne; congruence|].
  split; [exact Hnone|]. split; [exact Hbool|exact Hidem].
Qed.

(** X23 ([emit] order).  [emit] calls the subscribed callbacks in the order
    in which they were subscribed.  After the callbacks [fs] were subscribed
    to a fresh event one after the other (fewer than [2^64] of them), they
    are listed in this order under the ids 0, 1, 2, ...; [subscriber_count]
    is their number; and [emit] calls each non-empty one once, with the
    arguments given, in this order, skipping the empty ones. *)
Theorem emit_in_subscription_order (this : addr) (fs : list (option C)) (args : Args) :
  Z.of_nat (length fs) < U64.modulus ->
  let e := subscribe_all this fs init in
  m_handles e = imap (fun k f => MkHandle (Z.of_nat k) f) fs /\
  subscriber_count e = length fs /\
  emit args e =
    omap (fun f => match f with Some g => Some (g, args) | None => None end) fs.
Proof.
  intros Hn e.
  destruct (subscribe_all_handles this fs init) as [Hh _]; [simpl; lia|simpl; lia|].
  simpl in Hh. fold e in Hh.
  assert (Hh' : m_handles e = imap (fun k f => MkHandle (Z.of_nat k) f) fs).
  { rewrite Hh. apply imap_ext. intros k f _. reflexivity. }
  split; [exact Hh'|]. split.
  - unfold subscriber_count. rewrite Hh', length_imap. reflexivity.
  - unfold emit. cbn zeta. rewrite Hh'. clear.
    assert (Hgen : forall (l : list (option C)) (k : nat),
              omap (fun handle => match callback handle with
                                  | Some g => Some (g, args) | None => None end)
                   (imap (fun j f => MkHandle (Z.of_nat (k + j)) f) l) =
              omap (fun f => match f with Some g => Some (g, args) | None => None end) l).
    { clear. induction l as [|f l IHl]; intros k; [reflexivity|].
      cbn [imap omap list_omap callback]. destruct f as [g|].
      - f_equal. rewrite <- (IHl (S k)). f_equal. apply imap_ext. intros j x _. cbn.
        f_equal. lia.
      - rewrite <- (IHl (S k)). f_equal. apply imap_ext. intros j x _. cbn. f_equal. lia. }
    rewrite <- (Hgen fs 0%nat). reflexivity.
Qed.

(** X24 (moving a subscription).  Moving a subscription object keeps the
    callback subscribed.  In every reached world, after move-constructing
    [h'] from [h], or move-assigning [h] to a distinct object [h'], the
    destination points to the event and id the source pointed to and the
    source is empty; the callback is still listed in its event; destroying
    the moved-from object changes no event; a move construction changes no
    event at all; and a move assignment removes the callback the destination
    was subscribed with before. *)
Theorem subscription_move (w w' : World) (h h' : hid) :
  reached w ->
  wstep (WMove h' h) w = Some w' \/ (h' <> h /\ wstep (WAssign h' h) w = Some w') ->
  sub_of w' h' = sub_of w h /\
  sub_of w' h = None /\
  (forall r, sub_of w h = Some r -> listed_at w' r = Some true) /\
  (exists w'', wstep (WDestroy h) w' = Some w'' /\ w_events w'' = w_events w') /\
  (wstep (WMove h' h) w = Some w' -> w_events w' = w_events w) /\
  (forall r, sub_of w h' = Some r -> listed_at w' r = Some false).
Proof.
  intros Hr Hmove. destruct (reached_world_ok w Hr) as (n & Hn & Hw).
  assert (Hw' : world_ok n w').
  { destruct Hmove as [Hs|[_ Hs]].
    - pose proof (evt_world_ok_step n (WMove h' h) w w' Hw ltac:(simpl; lia) Hs) as H.
      simpl in H. rewrite Z.add_0_r in H. exact H.
    - pose proof (evt_world_ok_step n (WAssign h' h) w w' Hw ltac:(simpl; lia) Hs) as H.
      simpl in H. rewrite Z.add_0_r in H. exact H. }
  assert (Hfacts : h' <> h /\ exists s σ',
            w_subs w !! h = Some s /\
            w' = MkWorld σ' (<[h' := MkSubscription (m_event s) (m_id s)]>
                               (<[h := MkSubscription None 0]> (w_subs w))) /\
            (wstep (WMove h' h) w = Some w' -> σ' = w_events w) /\
            (forall r, sub_of w h' = Some r ->
               listed_at (MkWorld σ' (w_subs w)) r = Some false)).
  { destruct Hmove as [Hs|[Hne Hs]].
    - pose proof Hs as Hs0. simpl in Hs.
      case_decide as Hh'; [|discriminate].
      destruct (w_subs w !! h) as [s|] eqn:Hsub; simpl in Hs; [|discriminate].
      injection Hs as <-. split; [intros ->; congruence|].
      exists s, (w_events w). split; [reflexivity|]. split; [reflexivity|].
      split; [reflexivity|].
      intros r Hr'. unfold sub_of in Hr'. rewrite Hh' in Hr'. discriminate.
    - split; [exact Hne|]. simpl in Hs.
      destruct (w_subs w !! h') as [s'|] eqn:Hs'; simpl in Hs; [|discriminate].
      destruct (w_subs w !! h) as [s|] eqn:Hsub; simpl in Hs; [|discriminate].
      rewrite decide_False in Hs by assumption.
      unfold Subscription_move_assign in Hs.
      destruct (Subscription_unsubscribe s' (w_events w)) as [[s1 σ']|] eqn:Hun;
        simpl in Hs; [|discriminate].
      injection Hs as <-. exists s, σ'. split; [reflexivity|]. split; [reflexivity|].
      split.
      + intros Hmv. simpl in Hmv. rewrite Hs' in Hmv. discriminate.
      + intros [a' i'] Hr'. unfold sub_of in Hr'. rewrite Hs' in Hr'. simpl in Hr'.
        destruct s' as [[a0|] i0]; simpl in Hr'; [|discriminate].
        injection Hr' as -> ->.
        unfold Subscription_unsubscribe in Hun. cbn [m_event m_id] in Hun.
        destruct (w_events w !! a') as [e|] eqn:He; simpl in Hun; [|discriminate].
        injection Hun as _ <-.
        unfold listed_at. simpl. rewrite lookup_insert_eq. simpl.
        rewrite listed_unsubscribe, decide_True by reflexivity. reflexivity. }
  destruct Hfacts as (Hne & s & σ' & Hs & -> & Hmv & Hold).
  assert (Hdst : sub_of (MkWorld σ'
                    (<[h' := MkSubscription (m_event s) (m_id s)]>
                       (<[h := MkSubscription None 0]> (w_subs w)))) h'
                 = sub_of w h).
  { rewrite sub_of_insert, decide_True by reflexivity.
    unfold sub_of. rewrite Hs. reflexivity. }
  assert (Hsrc : (<[h' := MkSubscription (m_event s) (m_id s)]>
                    (<[h := MkSubscription None 0]> (w_subs w))) !! h
                 = Some (MkSubscription None 0)).
  { rewrite lookup_insert_ne, lookup_insert_eq by assumption. reflexivity. }
  split; [exact Hdst|]. split; [|split; [|split; [|split]]].
  - unfold sub_of; simpl. rewrite Hsrc. reflexivity.
  - intros r Hr'. destruct Hw' as [_ (K1 & _)]. apply (K1 h'). rewrite Hdst. exact Hr'.
  - eexists. split; [simpl; rewrite Hsrc; reflexivity|reflexivity].
  - intros Hm. simpl. apply Hmv, Hm.
  - intros r Hr'. exact (Hold r Hr').
Qed.

End event.

End EVT.


(** ** The caller in [root.cpp]

    [do_nothing] builds one queue of each kind on its stack, takes both
    handles of each, moves them out of the [std::optional]s, pushes one
    value and pops it again; then it subscribes a callback to an event and
    emits once.  [root.cpp] does this with [SPSCQueue<int>] (1024 slots)
    and the value 42, with [SPMCQueue<int, 64, 1024>] and the value 99,
    and with an [Event<int>], a callback that prints its argument and the
    argument 42; here the capacity, the number of consumer slots, the
    values and the callback are parameters.  Each object lives at address
    0 of its store.  [None] is the exception of [std::optional::value] on
    an empty optional or a failed assertion.  The results are
    [push_result] and [pop_result], respectively the calls [emit] makes,
    and the store once the handles have gone out of scope. *)

Section caller.

Context {T : Type} `{!Inhabited T}.
Context {Args C : Type}.
Variable NumSlots : Z.
Variable MaxConsumers : nat.

Hypothesis NumSlots_pos : 0 < NumSlots.
Hypothesis NumSlots_pow2 : Z.land NumSlots (NumSlots - 1) = 0.
Hypothesis NumSlots_size_t : NumSlots < U64.modulus.
Hypothesis MaxConsumers_pos : (0 < MaxConsumers)%nat.

Definition do_nothing_spsc (item : T)
  : option (bool * option T * gmap nat (@SPSC.SPSCQueue T)) :=
  let channel := 0%nat in
  let σ : gmap nat SPSC.SPSCQueue := {[channel := SPSC.init NumSlots]} in
  q ← σ !! channel;
  let '(producer_opt, q) := SPSC.make_producer channel q in
  let '(consumer_opt, q) := SPSC.make_consumer channel q in
  let σ := <[channel := q]> σ in
  p ← producer_opt;
  let '(producer, p) := SPSC.Producer_move_ctor p in
  c ← consumer_opt;
  let '(consumer, c) := SPSC.Consumer_move_ctor c in
  '(push_result, σ) ← SPSC.Producer_push NumSlots producer item σ;
  '(pop_result, σ) ← SPSC.Consumer_pop NumSlots consumer σ;
  let σ := SPSC.Consumer_dtor consumer σ in
  let σ := SPSC.Producer_dtor producer σ in
  let σ := SPSC.Consumer_dtor c σ in
  let σ := SPSC.Producer_dtor p σ in
  Some (push_result, pop_result, σ).

Definition do_nothing_spmc (item : T)
  : option (bool * option T * gmap nat (@SPMC.SPMCQueue T)) :=
  let broadcast_channel := 0%nat in
  let σ : gmap nat SPMC.SPMCQueue :=
    {[broadcast_channel := SPMC.init NumSlots MaxConsumers]} in
  q ← σ !! broadcast_channel;
  let '(broadcast_producer_opt, q) := SPMC.make_producer broadcast_channel q in
  let '(broadcast_consumer_opt, q) := SPMC.make_consumer MaxConsumers broadcast_channel q in
  let σ := <[broadcast_channel := q]> σ in
  p ← broadcast_producer_opt;
  let '(broadcast_producer, p) := SPMC.Producer_move_ctor p in
  c ← broadcast_consumer_opt;
  let '(broadcast_consumer, c) := SPMC.Consumer_move_ctor c in
  '(push_result, σ) ← SPMC.Producer_push NumSlots broadcast_producer item σ;
  '(pop_result, σ) ← SPMC.Consumer_pop NumSlots broadcast_consumer σ;
  σ ← SPMC.Consumer_dtor broadcast_consumer σ;
  let σ := SPMC.Producer_dtor broadcast_producer σ in
  σ ← SPMC.Consumer_dtor c σ;
  let σ := SPMC.Producer_dtor p σ in
  Some (push_result, pop_result, σ).

Definition do_nothing_event (print : C) (x : Args)
  : option (list (C * Args) * gmap nat (@EVT.Event C)) :=
  let OnMessage := 0%nat in
  let σ : gmap nat EVT.Event := {[OnMessage := EVT.init]} in
  e ← σ !! OnMessage;
  let '(sub, e) := EVT.subscribe OnMessage (Some print) e in
  let σ := <[OnMessage := e]> σ in
  e ← σ !! OnMessage;
  let calls := EVT.emit x e in
  '(_, σ) ← EVT.Subscription_unsubscribe sub σ;
  Some (calls, σ).

(** X25 (the caller).  Whatever the capacity, the number of consumer slots,
    the values and the callback, [do_nothing] runs through without an
    exception or a failed assertion: both factory calls of either queue
    return a handle, the push is accepted and the pop returns the value
    pushed; [emit] calls the subscribed callback once with the argument
    given; and when the handles have gone out of scope both roles of the
    SPSC queue are unclaimed again, so are the producer role and every
    consumer slot of the SPMC queue, and the event has no subscriber. *)
Theorem do_nothing_round_trip (item : T) :
  (exists σ q,
     do_nothing_spsc item = Some (true, Some item, σ) /\
     σ !! 0%nat = Some q /\
     SPSC.m_producer_claimed q = false /\ SPSC.m_consumer_claimed q = false) /\
  (exists σ q,
     do_nothing_spmc item = Some (true, Some item, σ) /\
     σ !! 0%nat = Some q /\
     SPMC.m_producer_claimed q = false /\
     Forall (fun s => SPMC.state s = SPMC.Free) (SPMC.m_slots q)) /\
  (forall (print : C) (x : Args),
     exists σ e,
       do_nothing_event print x = Some ([(print, x)], σ) /\
       σ !! 0%nat = Some e /\ EVT.subscriber_count e = 0%nat).
Proof.
  split; [|split].
  3:{ intros print x. eexists. exists (EVT.MkEvent [] (U64.add 0 1)).
      split; [|split; [|reflexivity]].
      - unfold do_nothing_event. rewrite lookup_singleton_eq. cbn [mbind option_bind].
        unfold EVT.subscribe. cbn [EVT.init EVT.m_next_id EVT.m_handles app].
        rewrite lookup_insert_eq. cbn [mbind option_bind].
        unfold EVT.Subscription_unsubscribe. cbn [EVT.m_event EVT.m_id].
        rewrite lookup_insert_eq. cbn [mbind option_bind].
        unfold EVT.unsubscribe. cbn [EVT.m_handles EVT.m_next_id].
        rewrite filter_cons_False by (cbn [EVT.id]; intros Hne; apply Hne; reflexivity).
        reflexivity.
      - rewrite lookup_insert_eq. reflexivity. }
  - pose proof (SPSC.holds_init (T:=T) NumSlots NumSlots_pos) as H0.
    set (q0 := SPSC.store_consumer_claimed true
                 (SPSC.store_producer_claimed true (SPSC.init (T:=T) NumSlots))).
    assert (Hq0 : SPSC.holds NumSlots q0 []) by exact H0.
    assert (Hu0 : SPSC.unwrapped q0) by (split; [simpl; lia|reflexivity]).
    destruct (SPSC.unwrapped_push NumSlots NumSlots_pos NumSlots_pow2 NumSlots_size_t
                item q0 [] Hu0 Hq0 ltac:(simpl; unfold U64.modulus; lia))
      as [[Hn _]|(_ & q1 & Hp & Hq1 & Hu1 & _ & _)]; [simpl in Hn; lia|].
    destruct (SPSC.unwrapped_pop NumSlots NumSlots_pos q1 [item] Hu1 Hq1) as (q2 & Hp2 & _).
    assert (Hf1 : SPSC.m_producer_claimed q1 = true /\ SPSC.m_consumer_claimed q1 = true).
    { pose proof (SPSC.push_impl_flags NumSlots item q0) as [F1 F2].
      rewrite Hp in F1, F2. auto. }
    assert (Hf2 : SPSC.m_producer_claimed q2 = true /\ SPSC.m_consumer_claimed q2 = true).
    { pose proof (SPSC.pop_impl_flags NumSlots q1) as [F1 F2].
      rewrite Hp2 in F1, F2. simpl in F1, F2. destruct Hf1. split; congruence. }
    eexists. exists (SPSC.store_producer_claimed false (SPSC.store_consumer_claimed false q2)).
    split; [|split; [|split; reflexivity]].
    + unfold do_nothing_spsc. rewrite lookup_singleton_eq. cbn [mbind option_bind].
      cbn [SPSC.make_producer SPSC.make_consumer SPSC.init SPSC.m_producer_claimed
           SPSC.m_consumer_claimed SPSC.store_producer_claimed SPSC.Producer_move_ctor
           SPSC.Consumer_move_ctor SPSC.producer_m_queue SPSC.consumer_m_queue
           mbind option_bind].
      unfold SPSC.Producer_push. cbn [SPSC.producer_m_queue mbind option_bind].
      rewrite lookup_insert_eq. cbn [mbind option_bind].
      change (SPSC.push_impl NumSlots item _) with (SPSC.push_impl NumSlots item q0).
      rewrite Hp. cbn [mbind option_bind].
      unfold SPSC.Consumer_pop. cbn [SPSC.consumer_m_queue mbind option_bind].
      rewrite lookup_insert_eq. cbn [mbind option_bind]. rewrite Hp2.
      cbn [mbind option_bind]. reflexivity.
    + unfold SPSC.Producer_dtor, SPSC.Consumer_dtor.
      cbn [SPSC.producer_m_queue SPSC.consumer_m_queue].
      rewrite !lookup_alter_eq, lookup_insert_eq. reflexivity.
  - pose proof (SPMC.records_init (T:=T) NumSlots MaxConsumers) as H0.
    set (q0 := SPMC.store_producer_claimed true (SPMC.init (T:=T) NumSlots MaxConsumers)).
    assert (Hq0 : SPMC.records NumSlots MaxConsumers q0 []) by exact H0.
    pose proof (SPMC.make_consumer_spec NumSlots MaxConsumers NumSlots_pos 0 q0
                  (SPMC.records_wf _ _ _ _ Hq0)) as Hspec.
    pose proof (SPMC.records_make_consumer NumSlots MaxConsumers NumSlots_pos 0 q0 [] Hq0)
      as Hq1.
    destruct (SPMC.make_consumer MaxConsumers 0 q0) as [[c|] q1] eqn:Hmake.
    2:{ exfalso. destruct Hspec as [_ Hnone].
        apply (Hnone 0%nat (SPMC.MkSlot SPMC.Free 0)); [|reflexivity].
        simpl. apply lookup_replicate_2. exact MaxConsumers_pos. }
    destruct Hspec as (Hptr & (s & Hs & Hsf) & Hlow & _ & Hhead1 & Hflag1 & Hsl1).
    simpl in Hq1.
    assert (Hidx : SPMC.consumer_m_slot_idx c = 0%nat).
    { destruct (SPMC.consumer_m_slot_idx c) as [|k] eqn:Hk; [reflexivity|exfalso].
      apply (Hlow 0%nat (SPMC.MkSlot SPMC.Free 0)); [lia| |reflexivity].
      simpl. apply lookup_replicate_2. exact MaxConsumers_pos. }
    destruct c as [cq ci]. simpl in Hptr, Hidx. subst cq ci. simpl in Hsl1, Hs.
    assert (Hatt1 : SPMC.attached 0 0 q1).
    { unfold SPMC.attached. rewrite Hsl1. apply list_lookup_insert_eq.
      eapply lookup_lt_Some, Hs. }
    destruct (SPMC.records_push NumSlots MaxConsumers NumSlots_pos NumSlots_pow2
                NumSlots_size_t item q1 [] Hq1 ltac:(simpl; unfold U64.modulus; lia))
      as [(_ & i & s' & Hi & Ha & Ht)|(q2 & Hp & Hsl2 & Hh2 & Hq2)].
    { exfalso. destruct Hq1 as (_ & Hh & _ & _ & Hslots).
      destruct (Hslots i s' Hi Ha) as [Hge _]. simpl in Hh. lia. }
    simpl in Hq2.
    assert (Hatt2 : SPMC.attached 0 0 q2) by (unfold SPMC.attached; rewrite Hsl2; exact Hatt1).
    assert (Hpop : exists q3, SPMC.pop_impl NumSlots 0 q2 = Some (Some item, q3) /\
                     SPMC.m_slots q3 = <[0%nat := SPMC.MkSlot SPMC.Active 1]> (SPMC.m_slots q2) /\
                     SPMC.m_producer_claimed q3 = SPMC.m_producer_claimed q2).
    { unfold SPMC.pop_impl. rewrite Hatt2. cbn [mbind option_bind SPMC.tail].
      assert (Hh : SPMC.m_head q2 = 1).
      { rewrite Hh2, Hhead1. reflexivity. }
      rewrite Hh. cbn [Z.geb Z.compare].
      destruct Hq2 as (_ & _ & _ & Hbuf & _).
      specialize (Hbuf 0%nat item eq_refl ltac:(simpl; lia)).
      rewrite (list_lookup_total_correct _ _ _ Hbuf).
      eexists. split; [reflexivity|]. split; [|reflexivity].
      unfold SPMC.store_tail. cbn [SPMC.m_slots].
      apply list_eq. intros k. rewrite list_lookup_alter, list_lookup_insert.
      destruct (decide (0%nat = k)) as [<-|Hk].
      - rewrite Hatt2. simpl. rewrite decide_True; [reflexivity|].
        split; [reflexivity|]. eapply lookup_lt_Some, Hatt2.
      - rewrite decide_False by (intros [? _]; congruence). reflexivity. }
    destruct Hpop as (q3 & Hpop & Hsl3 & Hflag3).
    assert (Hlen3 : (0 < length (SPMC.m_slots q3))%nat).
    { rewrite Hsl3, length_insert. eapply lookup_lt_Some, Hatt2. }
    destruct (lookup_lt_is_Some_2 _ _ Hlen3) as [s3 Hs3].
    eexists.
    exists (SPMC.store_producer_claimed false
              (SPMC.store_state 0 SPMC.Free (SPMC.store_tail 0 0 q3))).
    split; [|split; [|split; [reflexivity|]]].
    + unfold do_nothing_spmc. rewrite lookup_singleton_eq. cbn [mbind option_bind].
      cbn [SPMC.make_producer SPMC.init SPMC.m_producer_claimed].
      change (SPMC.store_producer_claimed true _) with q0.
      rewrite Hmake.
      cbn [SPMC.Producer_move_ctor SPMC.Consumer_move_ctor SPMC.producer_m_queue
           SPMC.consumer_m_queue SPMC.consumer_m_slot_idx mbind option_bind].
      unfold SPMC.Producer_push. cbn [SPMC.producer_m_queue mbind option_bind].
      rewrite lookup_insert_eq. cbn [mbind option_bind]. rewrite Hp.
      cbn [mbind option_bind].
      unfold SPMC.Consumer_pop.
      cbn [SPMC.consumer_m_queue SPMC.consumer_m_slot_idx mbind option_bind].
      rewrite lookup_insert_eq. cbn [mbind option_bind]. rewrite Hpop.
      cbn [mbind option_bind].
      unfold SPMC.Consumer_dtor at 2.
      cbn [SPMC.consumer_m_queue SPMC.consumer_m_slot_idx mbind option_bind].
      rewrite lookup_insert_eq. cbn [mbind option_bind]. rewrite Hs3.
      cbn [mbind option_bind].
      unfold SPMC.Consumer_dtor. cbn [SPMC.consumer_m_queue mbind option_bind].
      reflexivity.
    + unfold SPMC.Producer_dtor. cbn [SPMC.producer_m_queue].
      rewrite lookup_alter_eq, lookup_insert_eq. reflexivity.
    + cbn [SPMC.m_slots SPMC.store_producer_claimed].
      rewrite SPMC.detach_slots by exact Hlen3.
      rewrite Hsl3, Hsl2, Hsl1, !list_insert_insert_eq.
      apply Forall_forall. intros s0 Hin.
      apply list_elem_of_lookup in Hin as [k Hk].
      rewrite list_lookup_insert in Hk.
      destruct (decide (0%nat = k)) as [<-|Hne].
      * rewrite decide_True in Hk; [injection Hk as <-; reflexivity|].
        split; [reflexivity|]. simpl. rewrite length_replicate. exact MaxConsumers_pos.
      * rewrite decide_False in Hk by (intros [? _]; congruence).
        simpl in Hk. apply lookup_replicate_1 in Hk as [-> _]. reflexivity.
Qed.

End caller.

(** ** Scenarios on a concrete event

    One event at address 0, with integers as arguments and callbacks
    named by numbers.  Callback 10 is subscribed through object 1,
    callback 20 through object 2, callback 30 through object 3. *)

Definition event_w0 : @EVT.World nat := EVT.MkWorld {[0%nat := EVT.init]} ∅.

Definition event_ops : list (@EVT.wop nat) :=
  [EVT.WSubscribe 0 1 (Some 10%nat); EVT.WSubscribe 0 2 (Some 20%nat);
   EVT.WSubscribe 0 3 (Some 30%nat)].

Definition event_w1 : @EVT.World nat := default event_w0 (EVT.wrun event_ops event_w0).

Lemma event_w1_reached : EVT.reached event_w1.
Proof.
  exists event_w0, event_ops. split; [|split].
  - split; [reflexivity|]. intros a e He. cbn [event_w0 EVT.w_events] in He.
    apply lookup_singleton_Some in He as [_ <-]. reflexivity.
  - vm_compute. reflexivity.
  - reflexivity.
Defined.

Lemma subscriptions_match_callbacks_witness :
  EVT.sub_of event_w1 2 = Some (0%nat, 1) /\
  (exists e, EVT.w_events event_w1 !! 0%nat = Some e /\ 1 ∈ EVT.id <$> EVT.m_handles e) /\
  (forall h, EVT.sub_of event_w1 h = Some (0%nat, 1) -> h = 2%nat).
Proof.
  destruct (EVT.subscriptions_match_callbacks (C:=nat) event_w1 event_w1_reached)
    as (_ & H2 & H3 & _).
  split; [reflexivity|]. split.
  - apply (H2 2%nat). reflexivity.
  - intros h Hh. apply (H3 h 2%nat (0%nat, 1)); [exact Hh|reflexivity].
Defined.

(** Unsubscribing object 2 leaves callbacks 10 and 30, in this order. *)
Lemma unsubscribe_removes_own_callback_witness :
  exists l1 f l2,
    [EVT.MkHandle 0 (Some 10%nat); EVT.MkHandle 1 (Some 20%nat);
     EVT.MkHandle 2 (Some 30%nat)] = l1 ++ EVT.MkHandle 1 f :: l2 /\
    is_Some (EVT.wstep (EVT.WUnsubscribe 2) event_w1) /\
    is_Some (EVT.wstep (EVT.WDestroy 2) event_w1).
Proof.
  destruct (EVT.unsubscribe_removes_own_callback (Args:=Z) (C:=nat) event_w1 2 0 1
              (EVT.MkEvent [EVT.MkHandle 0 (Some 10%nat); EVT.MkHandle 1 (Some 20%nat);
                            EVT.MkHandle 2 (Some 30%nat)] 3)
              7 event_w1_reached eq_refl eq_refl)
    as (l1 & f & l2 & H1 & H2 & H3 & _).
  exists l1, f, l2. split; [exact H1|]. split; [exact H2|exact H3].
Defined.

(** Three subscriptions, the second with an empty [std::function]. *)
Lemma emit_in_subscription_order_witness :
  EVT.emit (7 : Z) (EVT.subscribe_all 0 [Some 10%nat; None; Some 30%nat] EVT.init) =
    [(10%nat, 7); (30%nat, 7)] /\
  EVT.subscriber_count (EVT.subscribe_all 0 [Some 10%nat; None; Some 30%nat] EVT.init) = 3%nat.
Proof.
  destruct (EVT.emit_in_subscription_order (Args:=Z) (C:=nat) 0
              [Some 10%nat; None; Some 30%nat] 7 ltac:(reflexivity)) as (_ & H2 & H3).
  split; [exact H3|exact H2].
Defined.

(** Object 3 is move-assigned to object 1: callback 30 stays, callback 10
    goes. *)
Definition event_w2 : @EVT.World nat :=
  default event_w1 (EVT.wstep (EVT.WAssign 1 3) event_w1).

Lemma subscription_move_witness :
  EVT.sub_of event_w2 1 = Some (0%nat, 2) /\
  EVT.sub_of event_w2 3 = None /\
  EVT.listed_at event_w2 (0%nat, 2) = Some true /\
  EVT.listed_at event_w2 (0%nat, 0) = Some false.
Proof.
  assert (Hne : 1%nat <> 3%nat) by lia.
  destruct (EVT.subscription_move (C:=nat) event_w1 event_w2 3%nat 1%nat event_w1_reached
              (or_intror (conj Hne eq_refl))) as (K1 & K2 & K3 & _ & _ & K6).
  split; [rewrite K1; reflexivity|]. split; [exact K2|].
  split; [apply K3; reflexivity|apply K6; reflexivity].
Defined.

(** [do_nothing] as [root.cpp] has it: 1024 slots and the value 42, 64
    slots for 1024 consumers and the value 99, the callback (named 7) and
    the argument 42. *)
Lemma do_nothing_round_trip_witness :
  (exists σ, do_nothing_spsc 1024 42 = Some (true, Some 42, σ)) /\
  (exists σ, do_nothing_spmc 64 1024 99 = Some (true, Some 99, σ)) /\
  (exists σ, do_nothing_event 7%nat 42 = Some ([(7%nat, 42)], σ)).
Proof.
  split; [|split].
  - destruct (proj1 (do_nothing_round_trip (T:=Z) (Args:=Z) (C:=nat) 1024 1024 ltac:(lia)
                       ltac:(reflexivity) ltac:(reflexivity) ltac:(lia) 42))
      as (σ & _ & H & _).
    exists σ. exact H.
  - destruct (proj1 (proj2 (do_nothing_round_trip (T:=Z) (Args:=Z) (C:=nat) 64 1024
                              ltac:(lia) ltac:(reflexivity) ltac:(reflexivity) ltac:(lia) 99)))
      as (σ & _ & H & _).
    exists σ. exact H.
  - destruct (proj2 (proj2 (do_nothing_round_trip (T:=Z) (Args:=Z) (C:=nat) 64 1024
                              ltac:(lia) ltac:(reflexivity) ltac:(reflexivity) ltac:(lia) 99))
                7%nat 42) as (σ & _ & H & _).
    exists σ. exact H.
Defined.
